(** * tokie-go: the scan-and-aggregate pipeline

    A shallow embedding of the three versions of the program kept in the
    repository, and the properties of its specification checked on it.

    - [V0] is the first version (one goroutine per file, [countLines],
      walk rooted at the working directory);
    - the top level is the worker-pool version: [processFile], a bounded
      channel, [runtime.NumCPU()] workers, walk rooted at the Desktop
      directory.  Its walk callback takes the [skip-node-modules] flag of
      the latest version; with the flag off it is the callback of
      [main.go];
    - [V1] is what the latest version adds to the report: the sort flag,
      [sortLanguageData] and the totals of the rows.

    The Go library functions the program calls (path/filepath, strings,
    unicode, unicode/utf8, bufio, sort) are embedded next to it, on
    Unix. *)

From Stdlib Require Import ZArith Lia Ascii String List.
From Stdlib Require Strings.Byte.
From Equations Require Import Equations.
From stdpp Require Import gmap strings list fin_maps sorting.
Open Scope string_scope.
Open Scope list_scope.
Open Scope Z_scope.
Set Warnings "-register-all".

(** ** Errors *)

(** Go error values the program meets: the two sentinels of
    [filepath.Walk], the glob matcher's and the scanner's errors, and
    operating-system errors (permission denied, no such file, ...). *)
Inductive error : Type :=
| SkipDir
| SkipAll
| ErrBadPattern
| ErrTooLong
| OSError (msg : string).

(** ** Machine integers *)

(** Go's [int] (64 bits on the platforms the program is built for) and
    [int64] wrap around in two's complement. *)
Definition wrap64 (x : Z) : Z := (x + 2^63) mod 2^64 - 2^63.

Definition int_add (x y : Z) : Z := wrap64 (x + y).

Definition is_char (c d : ascii) : bool := Ascii.eqb c d.

Definition is_empty (s : string) : bool :=
  match s with EmptyString => true | _ => false end.

Fixpoint string_drop (n : nat) (s : string) : string :=
  match n, s with
  | O, _ => s
  | S n', String _ s' => string_drop n' s'
  | S _, EmptyString => EmptyString
  end.

Lemma string_drop_length n s : (String.length (string_drop n s) <= String.length s)%nat.
Proof.
  revert s; induction n as [|n IH]; intros [|c s]; simpl; try lia.
  specialize (IH s); lia.
Qed.

Definition inspect {A : Type} (a : A) : {b : A | a = b} := exist _ a eq_refl.

(** A turn of a loop either goes on with a new state or leaves the loop. *)
Inductive loop_step (S R : Type) : Type :=
| Continue (s : S)
| Break (r : R).
Arguments Continue {S R} s.
Arguments Break {S R} r.

(** ** unicode/utf8 *)

Module utf8.

Definition byteZ (c : ascii) : Z := Z.of_N (N_of_ascii c).

Definition RuneError : Z := 0xFFFD.

(** The table [first] of the package, by ranges of the leading byte:
    0xF0 marks ASCII, 0xF1 an invalid byte, otherwise the low bits are
    the size and the high bits index [acceptRanges]. *)
Definition first (b : Z) : Z :=
  if b <? 0x80 then 0xF0
  else if b <? 0xC2 then 0xF1
  else if b <? 0xE0 then 0x02
  else if b =? 0xE0 then 0x13
  else if b <? 0xED then 0x03
  else if b =? 0xED then 0x23
  else if b <? 0xF0 then 0x03
  else if b =? 0xF0 then 0x34
  else if b <? 0xF4 then 0x04
  else if b =? 0xF4 then 0x44
  else 0xF1.

Definition acceptRanges (i : Z) : Z * Z :=
  if i =? 1 then (0xA0, 0xBF)
  else if i =? 2 then (0x80, 0x9F)
  else if i =? 3 then (0x90, 0xBF)
  else if i =? 4 then (0x80, 0x8F)
  else (0x80, 0xBF).

(** DecodeRuneInString unpacks the first UTF-8 encoding in s and returns
    the rune and its width in bytes. *)
Definition DecodeRuneInString (s : string) : Z * nat :=
  match s with
  | EmptyString => (RuneError, 0%nat)
  | String c0 t0 =>
    let s0 := byteZ c0 in
    let x := first s0 in
    if 0xF0 <=? x then ((if x =? 0xF0 then s0 else RuneError), 1%nat)
    else
      let sz := Z.land x 7 in
      let '(lo, hi) := acceptRanges (Z.shiftr x 4) in
      match t0 with
      | EmptyString => (RuneError, 1%nat)
      | String c1 t1 =>
        let s1 := byteZ c1 in
        if (Z.of_nat (String.length s) <? sz) || (s1 <? lo) || (hi <? s1) then (RuneError, 1%nat)
        else if sz <=? 2 then
          (Z.lor (Z.shiftl (Z.land s0 0x1F) 6) (Z.land s1 0x3F), 2%nat)
        else
          match t1 with
          | EmptyString => (RuneError, 1%nat)
          | String c2 t2 =>
            let s2 := byteZ c2 in
            if (s2 <? 0x80) || (0xBF <? s2) then (RuneError, 1%nat)
            else if sz <=? 3 then
              (Z.lor (Z.lor (Z.shiftl (Z.land s0 0x0F) 12) (Z.shiftl (Z.land s1 0x3F) 6))
                     (Z.land s2 0x3F), 3%nat)
            else
              match t2 with
              | EmptyString => (RuneError, 1%nat)
              | String c3 _ =>
                let s3 := byteZ c3 in
                if (s3 <? 0x80) || (0xBF <? s3) then (RuneError, 1%nat)
                else
                  (Z.lor (Z.lor (Z.lor (Z.shiftl (Z.land s0 0x07) 18)
                                       (Z.shiftl (Z.land s1 0x3F) 12))
                                (Z.shiftl (Z.land s2 0x3F) 6))
                         (Z.land s3 0x3F), 4%nat)
              end
          end
      end
  end.

End utf8.

(** ** unicode *)

Module unicode.

Definition MaxLatin1 : Z := 0xFF.

(** IsSpace reports whether the rune is a space character as defined by
    Unicode's White Space property; in the Latin-1 space this is
    '\t', '\n', '\v', '\f', '\r', ' ', U+0085 (NEL), U+00A0 (NBSP). *)
Definition IsSpace (r : Z) : bool :=
  if r <=? MaxLatin1 then
    ((0x09 <=? r) && (r <=? 0x0D)) || (r =? 0x20) || (r =? 0x85) || (r =? 0xA0)
  else
    (r =? 0x1680) || ((0x2000 <=? r) && (r <=? 0x200A)) ||
    ((0x2028 <=? r) && (r <=? 0x2029)) || (r =? 0x202F) || (r =? 0x205F) || (r =? 0x3000).

End unicode.

(** ** path/filepath: Match *)

Module filepath.

Definition Separator : ascii := "/".

(** getEsc gets a possibly-escaped character from chunk, for a character class. *)
Definition getEsc (chunk : string) : error + (Z * string) :=
  match chunk with
  | EmptyString => inl ErrBadPattern
  | String c rest =>
    if is_char c "-" || is_char c "]" then inl ErrBadPattern
    else
      let chunk1 := if is_char c "\" then rest else chunk in
      match chunk1 with
      | EmptyString => inl ErrBadPattern
      | String _ _ =>
        let '(r, n) := utf8.DecodeRuneInString chunk1 in
        let nchunk := string_drop n chunk1 in
        if (r =? utf8.RuneError) && (n =? 1)%nat then inl ErrBadPattern
        else match nchunk with
             | EmptyString => inl ErrBadPattern
             | String _ _ => inr (r, nchunk)
             end
      end
  end.


Lemma DecodeRuneInString_pos c s : (1 <= snd (utf8.DecodeRuneInString (String c s)))%nat.
Proof.
  unfold utf8.DecodeRuneInString.
  repeat (match goal with
          | |- context [if ?b then _ else _] => destruct b
          | |- context [match ?t with EmptyString => _ | String _ _ => _ end] => destruct t
          | |- context [let '(_, _) := ?p in _] => destruct p
          end; simpl; try lia).
Qed.

Lemma getEsc_shorter chunk r rest :
  getEsc chunk = inr (r, rest) -> (String.length rest < String.length chunk)%nat.
Proof.
  unfold getEsc. destruct chunk as [|c chunk]; [discriminate|].
  destruct (is_char c "-" || is_char c "]"); [discriminate|].
  set (chunk1 := if is_char c "\" then chunk else String c chunk).
  assert (Hle : (String.length chunk1 <= String.length (String c chunk))%nat)
    by (subst chunk1; destruct (is_char c "\"); simpl; lia).
  destruct chunk1 as [|c1 t1] eqn:E; [discriminate|].
  pose proof (DecodeRuneInString_pos c1 t1) as Hpos.
  destruct (utf8.DecodeRuneInString (String c1 t1)) as [r' n]. simpl in Hpos.
  destruct ((r' =? utf8.RuneError) && (n =? 1)%nat); [discriminate|].
  destruct (string_drop n (String c1 t1)) eqn:D; [discriminate|].
  intros [= <- <-]. rewrite <- D.
  destruct n as [|n]; [lia|]. simpl.
  pose proof (string_drop_length n t1). simpl in Hle. lia.
Qed.

(** One turn of the range loop of a character class in matchChunk. *)
Definition rangeStep (r : Z) (chunk : string) (nrange : nat) (matched : bool)
  : loop_step (string * bool) (error + (bool * string)) :=
  match chunk with
  | String c chunk' =>
    if is_char c "]" && negb (nrange =? 0)%nat then Break (inr (matched, chunk'))
    else
      match getEsc chunk with
      | inl e => Break (inl e)
      | inr (lo, chunk1) =>
        match chunk1 with
        | String d chunk1' =>
          if is_char d "-" then
            match getEsc chunk1' with
            | inl e => Break (inl e)
            | inr (hi, chunk2) => Continue (chunk2, matched || ((lo <=? r) && (r <=? hi)))
            end
          else Continue (chunk1, matched || ((lo <=? r) && (r <=? lo)))
        | EmptyString => Break (inl ErrBadPattern)
        end
      end
  | EmptyString => Break (inl ErrBadPattern)
  end.

Lemma rangeStep_shorter r chunk nrange matched chunk' m' :
  rangeStep r chunk nrange matched = Continue (chunk', m') ->
  (String.length chunk' < String.length chunk)%nat.
Proof.
  unfold rangeStep. destruct chunk as [|c chunk0]; [discriminate|].
  destruct (is_char c "]" && negb (nrange =? 0)%nat); [discriminate|].
  destruct (getEsc (String c chunk0)) as [e|[lo chunk1]] eqn:E1; [discriminate|].
  apply getEsc_shorter in E1.
  destruct chunk1 as [|d chunk1']; [discriminate|].
  destruct (is_char d "-").
  - destruct (getEsc chunk1') as [e|[hi chunk2]] eqn:E2; [discriminate|].
    apply getEsc_shorter in E2. intros [= <- <-]. simpl in *. lia.
  - intros [= <- <-]. exact E1.
Qed.

Equations? parseRanges (r : Z) (chunk : string) (nrange : nat) (matched : bool)
  : error + (bool * string) by wf (String.length chunk) lt :=
  parseRanges r chunk nrange matched with inspect (rangeStep r chunk nrange matched) := {
    | exist _ (Break res) _ => res
    | exist _ (Continue (chunk', m')) H => parseRanges r chunk' (S nrange) m' }.
Proof. eapply rangeStep_shorter; eassumption. Qed.

Lemma rangeStep_break r chunk nrange matched m rest :
  rangeStep r chunk nrange matched = Break (inr (m, rest)) ->
  (String.length rest < String.length chunk)%nat.
Proof.
  unfold rangeStep. destruct chunk as [|c chunk0]; [discriminate|].
  destruct (is_char c "]" && negb (nrange =? 0)%nat).
  - intros [= <- <-]. simpl; lia.
  - destruct (getEsc (String c chunk0)) as [e'|[lo chunk1]]; [discriminate|].
    destruct chunk1 as [|d chunk1']; [discriminate|].
    destruct (is_char d "-"); [|discriminate].
    destruct (getEsc chunk1') as [e'|[hi chunk2]]; discriminate.
Qed.

Lemma parseRanges_shorter r chunk nrange matched m rest :
  parseRanges r chunk nrange matched = inr (m, rest) ->
  (String.length rest < String.length chunk)%nat.
Proof.
  funelim (parseRanges r chunk nrange matched); intros Hres.
  - eapply Nat.lt_trans; [| eapply rangeStep_shorter; eassumption].
    match goal with IH : forall m rest, _ |- _ => eapply IH; exact Hres end.
  - clear Heqcall. subst. eapply rangeStep_break; eassumption.
Qed.

(** One turn of matchChunk's loop, on a chunk that is not empty. *)
Definition chunkStep (c : ascii) (chunk s : string) (failed : bool)
  : error + (string * string * bool) :=
  let failed := failed || (match s with EmptyString => true | _ => false end) in
  let literal (c : ascii) (chunk : string) :=
    (chunk,
     (if failed then s else string_drop 1 s),
     (failed || match s with String s0 _ => negb (is_char c s0) | EmptyString => false end)) in
  if is_char c "[" then
    let '(r, s1) := if failed then (0, s)
                    else let '(r, n) := utf8.DecodeRuneInString s in (r, string_drop n s) in
    let '(negated, chunk1) := match chunk with
                              | String d chunk' => if is_char d "^" then (true, chunk') else (false, chunk)
                              | EmptyString => (false, chunk)
                              end in
    match parseRanges r chunk1 0 false with
    | inl e => inl e
    | inr (matched, chunk2) => inr (chunk2, s1, failed || Bool.eqb matched negated)
    end
  else if is_char c "?" then
    inr (chunk,
         (if failed then s else string_drop (snd (utf8.DecodeRuneInString s)) s),
         (failed || match s with String s0 _ => is_char s0 Separator | EmptyString => false end))
  else if is_char c "\" then
    match chunk with
    | EmptyString => inl ErrBadPattern
    | String d chunk' => inr (literal d chunk')
    end
  else inr (literal c chunk).

Lemma chunkStep_shorter c chunk s failed chunk' s' f' :
  chunkStep c chunk s failed = inr (chunk', s', f') ->
  (String.length chunk' <= String.length chunk)%nat.
Proof.
  unfold chunkStep. destruct (is_char c "[").
  - destruct (if failed || _ then _ else _) as [r s1].
    destruct (match chunk with EmptyString => _ | String _ _ => _ end) as [negated chunk1] eqn:E.
    assert (String.length chunk1 <= String.length chunk)%nat.
    { destruct chunk as [|d chunk0]; [injection E as <- <-; lia|].
      destruct (is_char d "^"); injection E as <- <-; simpl; lia. }
    destruct (parseRanges r chunk1 0 false) as [e|[m chunk2]] eqn:P; [discriminate|].
    apply parseRanges_shorter in P. intros [= <- <- <-]. lia.
  - destruct (is_char c "?"); [intros [= <- <- <-]; lia|].
    destruct (is_char c "\").
    + destruct chunk; [discriminate|]. intros [= <- <- <-]. simpl; lia.
    + intros [= <- <- <-]; lia.
Qed.

(** matchChunk checks whether chunk matches the beginning of s: the rest
    of s when it does, nothing when it does not, or the pattern's error. *)
Equations? matchChunkLoop (chunk s : string) (failed : bool)
  : error + option string by wf (String.length chunk) lt :=
  matchChunkLoop EmptyString s failed := inr (if failed then None else Some s);
  matchChunkLoop (String c chunk) s failed with inspect (chunkStep c chunk s failed) := {
    | exist _ (inl e) _ => inl e
    | exist _ (inr (chunk', s', failed')) H => matchChunkLoop chunk' s' failed' }.
Proof. apply chunkStep_shorter in H. simpl. lia. Qed.

Definition matchChunk (chunk s : string) : error + option string :=
  matchChunkLoop chunk s false.

(** scanChunk gets the next segment of pattern, which is a non-star string
    possibly preceded by a star. *)
Fixpoint skipStars (pattern : string) : bool * string :=
  match pattern with
  | String c p => if is_char c "*" then (true, snd (skipStars p)) else (false, pattern)
  | EmptyString => (false, pattern)
  end.

Fixpoint scanSegment (pattern : string) (inrange : bool) : string * string :=
  match pattern with
  | EmptyString => (EmptyString, EmptyString)
  | String c p =>
    if is_char c "\" then
      match p with
      | EmptyString => (String c EmptyString, EmptyString)
      | String d p' => let '(chunk, rest) := scanSegment p' inrange in
                       (String c (String d chunk), rest)
      end
    else if is_char c "*" && negb inrange then (EmptyString, pattern)
    else
      let inrange' := if is_char c "[" then true
                      else if is_char c "]" then false else inrange in
      let '(chunk, rest) := scanSegment p inrange' in (String c chunk, rest)
  end.

Definition scanChunk (pattern : string) : bool * string * string :=
  let '(star, p) := skipStars pattern in
  let '(chunk, rest) := scanSegment p false in
  (star, chunk, rest).

Fixpoint ContainsSeparator (name : string) : bool :=
  match name with
  | EmptyString => false
  | String c n => is_char c Separator || ContainsSeparator n
  end.

(** The star loop: look for a match skipping i+1 bytes; a separator
    cannot be skipped. *)
Fixpoint starLoop (chunk name : string) (last : bool) : error + option string :=
  match name with
  | EmptyString => inr None
  | String c name' =>
    if is_char c Separator then inr None
    else
      match matchChunk chunk name' with
      | inr (Some t) =>
        if last && negb (is_empty t) then starLoop chunk name' last
        else inr (Some t)
      | inr None => starLoop chunk name' last
      | inl e => inl e
      end
  end.


Lemma skipStars_length pattern :
  (String.length (snd (skipStars pattern)) <= String.length pattern)%nat.
Proof.
  induction pattern as [|c p IH]; simpl; [lia|].
  destruct (is_char c "*"); simpl; lia.
Qed.

Lemma skipStars_head c p :
  skipStars (String c p) = (false, String c p) \/
  (String.length (snd (skipStars (String c p))) < String.length (String c p))%nat.
Proof.
  simpl. destruct (is_char c "*"); [right|left; reflexivity].
  simpl. pose proof (skipStars_length p). lia.
Qed.

Lemma skipStars_no_star pattern c p :
  snd (skipStars pattern) = String c p -> is_char c "*" = false.
Proof.
  induction pattern as [|d q IH]; simpl; [discriminate|].
  destruct (is_char d "*") eqn:E; simpl; [exact IH|].
  intros [= <- <-]. exact E.
Qed.

Lemma scanSegment_length_aux n : forall pattern inrange,
  (String.length pattern <= n)%nat ->
  (String.length (snd (scanSegment pattern inrange)) <= String.length pattern)%nat.
Proof.
  induction n as [|n IH]; intros [|c p] inrange Hn; simpl in *; try lia.
  destruct (is_char c "\").
  - destruct p as [|d p']; simpl; [lia|].
    specialize (IH p' inrange ltac:(simpl in Hn; lia)).
    destruct (scanSegment p' inrange); simpl in *; lia.
  - destruct (is_char c "*" && negb inrange); simpl; [lia|].
    match goal with |- context [scanSegment p ?b] =>
      specialize (IH p b ltac:(lia)); destruct (scanSegment p b) end.
    simpl in *; lia.
Qed.

Lemma scanSegment_length pattern inrange :
  (String.length (snd (scanSegment pattern inrange)) <= String.length pattern)%nat.
Proof. eapply scanSegment_length_aux; reflexivity. Qed.

Lemma scanSegment_shorter c p :
  is_char c "*" = false ->
  (String.length (snd (scanSegment (String c p) false)) < String.length (String c p))%nat.
Proof.
  intros Hc. simpl. rewrite Hc. simpl.
  destruct (is_char c "\").
  - destruct p as [|d p']; simpl; [lia|].
    pose proof (scanSegment_length p' false). destruct (scanSegment p' false); simpl in *; lia.
  - match goal with |- context [scanSegment p ?b] =>
      pose proof (scanSegment_length p b); destruct (scanSegment p b) end.
    simpl in *; lia.
Qed.

Lemma scanChunk_shorter c p star chunk rest :
  scanChunk (String c p) = (star, chunk, rest) ->
  (String.length rest < String.length (String c p))%nat.
Proof.
  unfold scanChunk.
  pose proof (skipStars_head c p) as Hh.
  pose proof (skipStars_no_star (String c p)) as Hn.
  pose proof (skipStars_length (String c p)) as Hl.
  destruct (skipStars (String c p)) as [st p1]. simpl in *.
  destruct (scanSegment p1 false) as [ch r] eqn:E. intros [= <- <- <-].
  destruct p1 as [|d q].
  - simpl in E. injection E as <- <-. simpl. lia.
  - specialize (Hn d q eq_refl). pose proof (scanSegment_shorter d q Hn) as Hs.
    rewrite E in Hs. simpl in *. lia.
Qed.

Inductive matchTurn : Type :=
| TurnDone (matched : bool) (err : option error)
| TurnNext (pattern name : string).

(** One turn of the Pattern loop of Match, on a pattern that is not
    empty.  When the chunk does not match, Match returns false with no
    error: what is left of the pattern is not looked at (package path
    checks it for being well formed, path/filepath does not). *)
Definition patternTurn (pattern name : string) : matchTurn :=
  let '(star, chunk, pattern') := scanChunk pattern in
  if star && is_empty chunk then
    (* Trailing * matches rest of string unless it has a /. *)
    TurnDone (negb (ContainsSeparator name)) None
  else
    let fail := TurnDone false None in
    let try_star :=
      if star then
        match starLoop chunk name (is_empty pattern') with
        | inl e => TurnDone false (Some e)
        | inr (Some t) => TurnNext pattern' t
        | inr None => fail
        end
      else fail in
    match matchChunk chunk name with
    | inr (Some t) =>
      if is_empty t || negb (is_empty pattern') then TurnNext pattern' t else try_star
    | inr None => try_star
    | inl e => TurnDone false (Some e)
    end.

Lemma patternTurn_shorter c p name pattern' name' :
  patternTurn (String c p) name = TurnNext pattern' name' ->
  (String.length pattern' < String.length (String c p))%nat.
Proof.
  unfold patternTurn.
  destruct (scanChunk (String c p)) as [[star chunk] rest] eqn:E.
  apply scanChunk_shorter in E.
  repeat (match goal with
          | |- context [if ?b then _ else _] => destruct b
          | |- context [match ?t with inl _ => _ | inr _ => _ end] => destruct t
          | |- context [match ?t with Some _ => _ | None => _ end] => destruct t
          end; try discriminate);
    intros [= <- <-]; exact E.
Qed.

Equations? MatchLoop (pattern name : string) : bool * option error
  by wf (String.length pattern) lt :=
  MatchLoop EmptyString name := (is_empty name, None);
  MatchLoop (String c p) name with inspect (patternTurn (String c p) name) := {
    | exist _ (TurnDone matched err) _ => (matched, err)
    | exist _ (TurnNext pattern' name') H => MatchLoop pattern' name' }.
Proof. eapply patternTurn_shorter; eassumption. Qed.

(** filepath.Match reports whether name matches the shell file name
    pattern; the only error is ErrBadPattern. *)
Definition Match (pattern name : string) : bool * option error := MatchLoop pattern name.

(** ** path/filepath: Base, Ext, Join *)

(** Base returns the last element of path; trailing slashes are removed
    before extracting it.  The empty path gives ".", a path of slashes
    only gives "/". *)
Fixpoint stripTrailingSlashes (path : string) : string :=
  match path with
  | EmptyString => EmptyString
  | String c p =>
    let p' := stripTrailingSlashes p in
    if is_char c Separator && is_empty p' then EmptyString else String c p'
  end.

Fixpoint lastElement (path : string) : string :=
  match path with
  | EmptyString => EmptyString
  | String c p => if ContainsSeparator path then lastElement p else path
  end.

Definition Base (path : string) : string :=
  if is_empty path then "."
  else
    let p := lastElement (stripTrailingSlashes path) in
    if is_empty p then "/" else p.

(** Ext returns the suffix beginning at the final dot in the final
    element of path, empty if there is no dot.  Go scans from the end
    until a dot or a separator; here the same suffix is found from the
    front: while a dot or a separator lies further right, look there. *)
Fixpoint hasDotOrSeparator (s : string) : bool :=
  match s with
  | EmptyString => false
  | String c s' => is_char c "." || is_char c Separator || hasDotOrSeparator s'
  end.

Fixpoint Ext (path : string) : string :=
  match path with
  | EmptyString => EmptyString
  | String c p =>
    if hasDotOrSeparator p then Ext p
    else if is_char c "." then path else EmptyString
  end.

(** Join as walk calls it, on the path of a directory and the name of
    one of its entries.  The paths of the walk are clean and are not
    the file-system root, and the name is a directory entry's, so the
    Clean that the library's Join ends with changes nothing: see [join]
    below, which is the library's, and [Join_of_clean_path]. *)
Definition Join (dir name : string) : string := dir +:+ "/" +:+ name.

(** ** path/filepath: Walk *)

Inductive FileMode : Type := ModeRegular | ModeDir | ModeSymlink | ModeIrregular.

Record FileInfo : Type := { Name : string; Mode : FileMode }.

Definition IsDir (info : FileInfo) : bool :=
  match Mode info with ModeDir => true | _ => false end.

(** What is not a directory: a regular file, a symbolic link (Walk does
    not follow it), or a device, pipe or socket. *)
Inductive file_kind : Type := Regular | Symlink | Special.

Definition kindMode (k : file_kind) : FileMode :=
  match k with
  | Regular => ModeRegular
  | Symlink => ModeSymlink
  | Special => ModeIrregular
  end.

(** The tree as Walk meets it.  A directory's entries are in the order
    readDirNames gives them (sorted by name). *)
Inductive node : Type :=
| NoStat (name : string) (err : error)        (* Lstat of the entry fails *)
| File (name : string) (kind : file_kind)
| Dir (name : string) (readErr : option error) (entries : list node).
  (* readErr: the error of reading the directory, when it cannot be read *)

Definition nodeName (n : node) : string :=
  match n with
  | NoStat name _ | File name _ | Dir name _ _ => name
  end.

Definition nodeIsDir (n : node) : bool :=
  match n with Dir _ _ _ => true | _ => false end.

(** What Walk hands to the function besides the path: no FileInfo and
    the Lstat error, or the FileInfo and, for a directory that could not
    be read, the error. *)
Inductive visit : Type :=
| Failed (err : error)
| Found (info : FileInfo) (err : option error).

(** A WalkFunc returns an error or nil; what it sends meanwhile (here:
    on the tasks channel) is the first component. *)
Definition WalkFunc (A : Type) : Type := string -> visit -> list A * option error.

Definition is_SkipDir (e : error) : bool :=
  match e with SkipDir => true | _ => false end.

(** Whether the loop over a directory's names returns the error that
    visiting the entry gave. *)
Definition stopsLoop (entry : node) (err : option error) : bool :=
  match err with
  | None => false
  | Some e =>
    match entry with
    | NoStat _ _ => negb (is_SkipDir e)
    | _ => negb (nodeIsDir entry) || negb (is_SkipDir e)
    end
  end.

Section Walk.
Context {A : Type} (walkFn : WalkFunc A).

(** walk recursively descends path, calling walkFn. *)
Fixpoint walk (path : string) (n : node) {struct n} : list A * option error :=
  match n with
  | NoStat _ e => walkFn path (Failed e)
  | File name kind => walkFn path (Found {| Name := name; Mode := kindMode kind |} None)
  | Dir name (Some e) _ => walkFn path (Found {| Name := name; Mode := ModeDir |} (Some e))
  | Dir name None names =>
    let '(sent, err1) := walkFn path (Found {| Name := name; Mode := ModeDir |} None) in
    match err1 with
    | Some e => (sent, Some e)
    | None =>
      let '(sent', err) :=
        (fix loop (names : list node) : list A * option error :=
           match names with
           | [] => ([], None)
           | entry :: names' =>
             let '(sent1, err) := walk (Join path (nodeName entry)) entry in
             if stopsLoop entry err then (sent1, err)
             else let '(sent2, err') := loop names' in (sent1 ++ sent2, err')
           end) names in
      (sent ++ sent', err)
    end
  end.

(** The loop of walk over the names of a directory. *)
Fixpoint walkNames (path : string) (names : list node) : list A * option error :=
  match names with
  | [] => ([], None)
  | entry :: names' =>
    let '(sent1, err) := walk (Join path (nodeName entry)) entry in
    if stopsLoop entry err then (sent1, err)
    else let '(sent2, err') := walkNames path names' in (sent1 ++ sent2, err')
  end.

Lemma walk_Dir path name names :
  walk path (Dir name None names) =
  let '(sent, err1) := walkFn path (Found {| Name := name; Mode := ModeDir |} None) in
  match err1 with
  | Some e => (sent, Some e)
  | None => let '(sent', err) := walkNames path names in (sent ++ sent', err)
  end.
Proof.
  cbn [walk]. destruct (walkFn path _) as [sent [e|]]; [reflexivity|].
  match goal with
  | |- (let '(_, _) := ?loop names in _) = _ =>
    assert (Hloop : forall ns, loop ns = walkNames path ns)
  end.
  { induction ns as [|entry ns IH]; [reflexivity|].
    cbn [walkNames]. rewrite <- IH. reflexivity. }
  rewrite Hloop. reflexivity.
Qed.

(** Walk walks the file tree rooted at root.  SkipDir and SkipAll from
    the root end the walk without an error. *)
Definition Walk (root : string) (tree : node) : list A * option error :=
  let '(sent, err) := walk root tree in
  match err with
  | Some SkipDir | Some SkipAll => (sent, None)
  | _ => (sent, err)
  end.
End Walk.

(** ** path/filepath: Clean, and Join as the library has it *)

(** Whether an element ends here: at the end of the path or at a
    separator ([r+1 == n || os.IsPathSeparator(path[r+1])]). *)
Definition endsElement (rest : string) : bool :=
  match rest with
  | EmptyString => true
  | String c _ => is_char c Separator
  end.

(** The buffer [out] of Clean is kept with the byte written last first.
    Backtracking over an element, after the first [out.w--]:
    [for out.w > dotdot && !os.IsPathSeparator(out.index(out.w)) { out.w-- }] *)
Fixpoint popElement (dotdot : nat) (out : list ascii) : list ascii :=
  match out with
  | [] => []
  | c :: out' =>
    if (dotdot <? length out')%nat && negb (is_char c Separator)
    then popElement dotdot out' else out'
  end.

(** The loop of Clean over [path[r:]].  [copying]: inside the copy of a
    real path element. *)
Fixpoint cleanLoop (rooted : bool) (rest : string) (copying : bool)
    (out : list ascii) (dotdot : nat) : list ascii * nat :=
  match rest with
  | EmptyString => (out, dotdot)
  | String c rest' =>
    let element :=
      (* real path element: add slash if needed, copy element *)
      let out1 := if (rooted && negb (length out =? 1)%nat)
                     || (negb rooted && negb (length out =? 0)%nat)
                  then Separator :: out else out in
      cleanLoop rooted rest' true (c :: out1) dotdot in
    if is_char c Separator then
      (* empty path element *)
      cleanLoop rooted rest' false out dotdot
    else if copying then cleanLoop rooted rest' true (c :: out) dotdot
    else if is_char c "." && endsElement rest' then
      (* . element *)
      cleanLoop rooted rest' false out dotdot
    else
      match rest' with
      | String c2 rest'' =>
        if is_char c "." && is_char c2 "." && endsElement rest'' then
          (* .. element: remove to last separator *)
          if (dotdot <? length out)%nat then
            (* can backtrack *)
            cleanLoop rooted rest'' false (popElement dotdot out) dotdot
          else if negb rooted then
            (* cannot backtrack, but not rooted, so append .. element *)
            let out1 := if (0 <? length out)%nat then Separator :: out else out in
            let out2 := "."%char :: "."%char :: out1 in
            cleanLoop rooted rest'' false out2 (length out2)
          else cleanLoop rooted rest'' false out dotdot
        else element
      | EmptyString => element
      end
  end.

(** Clean returns the shortest path name equivalent to path by purely
    lexical processing. *)
Definition Clean (path : string) : string :=
  match path with
  | EmptyString => "."
  | String c path' =>
    let '(out, _) :=
      if is_char c Separator then cleanLoop true path' false [Separator] 1
      else cleanLoop false path false [] 0 in
    match out with
    | [] => "."   (* Turn empty string into "." *)
    | _ :: _ => string_of_list_ascii (rev out)
    end
  end.

(** join, which Join calls: Clean of the elements joined by separators,
    from the first element that is not empty. *)
Fixpoint join (elem : list string) : string :=
  match elem with
  | [] => ""
  | e :: elem' =>
    if is_empty e then join elem'
    else Clean (String.concat (String Separator "") elem)
  end.

End filepath.

(** ** strings *)

Module gostrings.

(** Whether s begins with the bytes of the given codes. *)
Fixpoint startsWith (codes : list nat) (s : string) : bool :=
  match codes, s with
  | [], _ => true
  | n :: codes', String c s' => (nat_of_ascii c =? n)%nat && startsWith codes' s'
  | _ :: _, EmptyString => false
  end.

Definition lowerByte (c : ascii) : ascii :=
  let n := nat_of_ascii c in
  if ((65 <=? n) && (n <=? 90))%nat then ascii_of_nat (n + 32) else c.

(** ToLower.  The ASCII letters are lower-cased; so are the two letters
    beyond ASCII whose lower case is an ASCII letter: U+212A KELVIN SIGN
    (bytes E2 84 AA) gives k and U+0130 (bytes C4 B0) gives i.  Every
    other byte is kept, where Go lower-cases the other letters beyond
    ASCII too, to letters beyond ASCII, and writes U+FFFD for a byte
    that is no valid UTF-8: the strings differ then, but neither is a
    key of the extension table, whose keys are ASCII, so the look-up
    gives the same.  On ASCII strings the function is Go's.  [skip]:
    bytes of a letter already replaced. *)
Fixpoint lowerFrom (skip : nat) (s : string) : string :=
  match s with
  | EmptyString => EmptyString
  | String c s' =>
    match skip with
    | S k => lowerFrom k s'
    | O =>
      if startsWith [0xE2; 0x84; 0xAA]%nat s then String "k" (lowerFrom 2 s')
      else if startsWith [0xC4; 0xB0]%nat s then String "i" (lowerFrom 1 s')
      else String (lowerByte c) (lowerFrom 0 s')
    end
  end.

Definition ToLower (s : string) : string := lowerFrom 0 s.

(** The UTF-8 encodings of the runes that unicode.IsSpace accepts: tab
    to carriage return, space, U+0085, U+00A0, U+1680, U+2000 to U+200A,
    U+2028, U+2029, U+202F, U+205F and U+3000. *)
Definition spaces : list (list nat) :=
  ([[0x09]; [0x0A]; [0x0B]; [0x0C]; [0x0D]; [0x20];
    [0xC2; 0x85]; [0xC2; 0xA0]; [0xE1; 0x9A; 0x80]]
   ++ map (fun n => [0xE2; 0x80; 0x80 + n]) (seq 0 11)
   ++ [[0xE2; 0x80; 0xA8]; [0xE2; 0x80; 0xA9]; [0xE2; 0x80; 0xAF];
       [0xE2; 0x81; 0x9F]; [0xE3; 0x80; 0x80]])%nat.

(** The width of the encoding that s begins with, zero if none. *)
Fixpoint spaceWidth (encodings : list (list nat)) (s : string) : nat :=
  match encodings with
  | [] => 0
  | codes :: encodings' =>
    if startsWith codes s then length codes else spaceWidth encodings' s
  end.

(** Drop such encodings from the front of s while there is one; the
    turns are bounded by the length of s. *)
Fixpoint trimFront (encodings : list (list nat)) (turns : nat) (s : string) : string :=
  match turns with
  | O => s
  | S turns' =>
    match spaceWidth encodings s with
    | O => s
    | S w => trimFront encodings turns' (string_drop (S w) s)
    end
  end.

Definition reverse (s : string) : string :=
  string_of_list_ascii (rev (list_ascii_of_string s)).

Definition trimLeft (s : string) : string :=
  trimFront spaces (String.length s) s.

(** From the end the last rune is decoded: the string ends with one of
    the encodings. *)
Definition trimRight (s : string) : string :=
  reverse (trimFront (map (@rev nat) spaces) (String.length s) (reverse s)).

(** TrimSpace returns s without leading and trailing white space. *)
Definition TrimSpace (s : string) : string := trimRight (trimLeft s).

Lemma startsWith_empty codes : startsWith codes "" = true -> codes = [].
Proof. destruct codes; [reflexivity|discriminate]. Qed.

Lemma spaceWidth_empty encodings : spaceWidth encodings "" = 0%nat.
Proof.
  induction encodings as [|codes encodings IH]; [reflexivity|].
  simpl. destruct (startsWith codes "") eqn:E; [|exact IH].
  apply startsWith_empty in E. subst. reflexivity.
Qed.

(** The turns suffice: what is left begins with no white space. *)
Lemma trimFront_done encodings turns : forall s,
  (String.length s <= turns)%nat ->
  spaceWidth encodings (trimFront encodings turns s) = 0%nat.
Proof.
  induction turns as [|turns IH]; intros s Hlen.
  - destruct s; [apply spaceWidth_empty|simpl in Hlen; lia].
  - simpl. destruct (spaceWidth encodings s) as [|w] eqn:E; [exact E|].
    apply IH. destruct s as [|c s].
    + rewrite spaceWidth_empty in E. discriminate.
    + pose proof (string_drop_length w s). simpl in *. lia.
Qed.

(** Split s at every separator byte sep: one more piece than there are
    separators. *)
Fixpoint Split (s : string) (sep : ascii) : list string :=
  match s with
  | EmptyString => [EmptyString]
  | String c s' =>
    match Split s' sep with
    | piece :: pieces =>
      if is_char c sep then EmptyString :: piece :: pieces
      else String c piece :: pieces
    | [] => [String c EmptyString]
    end
  end.

(** The table asciiSpace: '\t', '\n', '\v', '\f', '\r', ' '. *)
Definition asciiSpace (c : ascii) : bool :=
  let n := nat_of_ascii c in
  ((9 <=? n) && (n <=? 13) || (n =? 32))%nat.

(** Whether some byte of s is not ASCII ([setBits >= utf8.RuneSelf]). *)
Fixpoint hasNonASCII (s : string) : bool :=
  match s with
  | EmptyString => false
  | String c s' => (128 <=? nat_of_ascii c)%nat || hasNonASCII s'
  end.

(** The ASCII fast path of Fields.  [field] is [s[fieldStart:i]]: it is
    empty exactly while spaces are skipped. *)
Fixpoint fieldsASCII (field s : string) : list string :=
  match s with
  | EmptyString => if is_empty field then [] else [field]
  | String c s' =>
    if asciiSpace c then
      if is_empty field then fieldsASCII EmptyString s'
      else field :: fieldsASCII EmptyString s'
    else fieldsASCII (field +:+ String c EmptyString) s'
  end.

(** FieldsFunc splits s at each run of code points satisfying f.
    [span]: the bytes of the field that is open ([start >= 0]);
    [skip]: bytes of the rune decoded last that are still to pass. *)
Fixpoint fieldsFrom (f : Z -> bool) (skip : nat) (span : option string) (s : string)
  : list string :=
  match s with
  | EmptyString => match span with Some field => [field] | None => [] end
  | String c s' =>
    match skip with
    | S skip' =>
      fieldsFrom f skip' (option_map (fun field => field +:+ String c EmptyString) span) s'
    | O =>
      let '(rune, width) := utf8.DecodeRuneInString s in
      if f rune then
        match span with
        | Some field => field :: fieldsFrom f (width - 1) None s'
        | None => fieldsFrom f (width - 1) None s'
        end
      else
        fieldsFrom f (width - 1)
          (Some (default EmptyString span +:+ String c EmptyString)) s'
    end
  end.

Definition FieldsFunc (s : string) (f : Z -> bool) : list string :=
  fieldsFrom f 0 None s.

(** Fields splits s around each instance of one or more consecutive
    white space characters, as defined by unicode.IsSpace. *)
Definition Fields (s : string) : list string :=
  if hasNonASCII s then FieldsFunc s unicode.IsSpace
  else fieldsASCII EmptyString s.

End gostrings.

(** ** os: files as the program reads them *)

(** An open file: what Stat answers (the size in bytes, an int64), and
    what Read delivers: the bytes, then io.EOF or, with [readErr], an
    error.  A symbolic link to a directory opens and stats, and its
    first Read fails. *)
Record OpenFile : Type := {
  Stat : error + Z;
  content : list Byte.byte;
  readErr : option error
}.

(** os.Open by path, at the time the file is counted (which is later
    than the walk: a file may have vanished meanwhile).  os.Open follows
    symbolic links: the path of a link opens what the link points to.
    Every file of the model answers: Open, Stat and the reads return,
    and the content ends.  A file on which the program would wait for
    ever (a FIFO that nobody writes to, an endless device) is told
    apart, where the end of a run is at stake, by [answers] below. *)
Definition FileSystem : Type := string -> error + OpenFile.

(** ** bufio: Scanner with the default split function ScanLines *)

Module bufio.

(** The maximum size of a token, and so of the buffer, unless the
    program calls Scanner.Buffer (it does not). *)
Definition MaxScanTokenSize : nat := 64 * 1024.

Definition newline : Byte.byte := Byte.x0a.

(** The scanner over a file: the bytes not yet consumed as tokens, and
    how the reader ends after them. *)
Record Scanner : Type := {
  unread : list Byte.byte;
  readerErr : option error
}.

Definition NewScanner (f : OpenFile) : Scanner :=
  {| unread := content f; readerErr := readErr f |}.

(** bytes.IndexByte *)
Fixpoint IndexByte (b : list Byte.byte) (c : Byte.byte) : option nat :=
  match b with
  | [] => None
  | x :: b' => if Byte.eqb x c then Some O else option_map S (IndexByte b' c)
  end.

(** Scan advances to the next token: [Continue] when it returns true,
    [Break] with what Err() then answers when it returns false.

    The buffer holds at most MaxScanTokenSize bytes from the start of
    the token.  A newline among them ends the token.  Without one, the
    token is the final, unterminated line if the reader ended before the
    buffer was full (at io.EOF or at a read error: ScanLines is called
    with atEOF in both cases), and too long otherwise. *)
Definition Scan (s : Scanner) : loop_step Scanner (option error) :=
  match IndexByte (take MaxScanTokenSize (unread s)) newline with
  | Some i => Continue {| unread := drop (S i) (unread s); readerErr := readerErr s |}
  | None =>
    if (length (unread s) <? MaxScanTokenSize)%nat then
      match unread s with
      | [] => Break (readerErr s)
      | _ :: _ => Continue {| unread := []; readerErr := readerErr s |}
      end
    else Break (Some ErrTooLong)
  end.

Lemma IndexByte_lt b c i : IndexByte b c = Some i -> (i < length b)%nat.
Proof.
  revert i; induction b as [|x b IH]; intros i; simpl; [discriminate|].
  destruct (Byte.eqb x c); [intros [= <-]; lia|].
  destruct (IndexByte b c) as [j|]; [|discriminate].
  intros [= <-]. specialize (IH j eq_refl). lia.
Qed.

Lemma Scan_consumes s s' :
  Scan s = Continue s' -> (length (unread s') < length (unread s))%nat.
Proof.
  unfold Scan.
  destruct (IndexByte _ newline) as [i|] eqn:E.
  - intros [= <-]. cbn [unread]. apply IndexByte_lt in E.
    rewrite length_take in E. rewrite length_drop. lia.
  - destruct (length (unread s) <? MaxScanTokenSize)%nat; [|discriminate].
    destruct (unread s); [discriminate|].
    intros [= <-]. simpl; lia.
Qed.

End bufio.

(** The loop [for scanner.Scan() { lineCount++ }], with what Err()
    answers after it. *)
Equations? scanLoop (s : bufio.Scanner) (lineCount : Z) : Z * option error
  by wf (length (bufio.unread s)) lt :=
  scanLoop s lineCount with inspect (bufio.Scan s) := {
    | exist _ (Continue s') H => scanLoop s' (int_add lineCount 1)
    | exist _ (Break e) _ => (lineCount, e) }.
Proof. apply bufio.Scan_consumes; assumption. Qed.

(** ** Strings in order *)

(** The operator [<] on strings: bytewise lexicographic. *)
Fixpoint string_less (a b : string) : bool :=
  match a, b with
  | _, EmptyString => false
  | EmptyString, String _ _ => true
  | String x a', String y b' =>
    (nat_of_ascii x <? nat_of_ascii y)%nat
    || ((nat_of_ascii x =? nat_of_ascii y)%nat && string_less a' b')
  end.

(** readDirNames sorts the names it has read with sort.Strings: the
    entries of every directory that Walk meets are in increasing order
    of their names. *)
Fixpoint increasing (names : list string) : bool :=
  match names with
  | a :: (b :: _) as rest => string_less a b && increasing rest
  | _ => true
  end.

Fixpoint sortedNames (n : filepath.node) : bool :=
  match n with
  | filepath.Dir _ _ entries =>
    increasing (map filepath.nodeName entries) && forallb sortedNames entries
  | _ => true
  end.

(** ** sort: Slice

    The package as of Go 1.19, which sorts with pdqsort: a slice of at
    most twelve elements is sorted by insertion. *)

Module gosort.

(** What a call leaves: the slice; a panic (an index out of range in
    less or swap); or, for a slice longer than maxInsertion, the
    pivoting part of pdqsort, which is not embedded here. *)
Inductive result (A : Type) : Type :=
| Returns (data : list A)
| Panics
| Pivots.
Arguments Returns {A} data.
Arguments Panics {A}.
Arguments Pivots {A}.

Section Slice.
Context {A : Type}.

(** The less function of the caller reads the slice that is being
    sorted at two indices; [None] when it panics. *)
Variable less : list A -> nat -> nat -> option bool.

(** reflectlite.Swapper: swap the elements at i and j. *)
Definition Swap (data : list A) (i j : nat) : option (list A) :=
  match data !! i, data !! j with
  | Some x, Some y => Some (<[j := x]> (<[i := y]> data))
  | _, _ => None
  end.

(** [for j := i; j > a && data.Less(j, j-1); j-- { data.Swap(j, j-1) }] *)
Fixpoint insertionInner (a : nat) (data : list A) (j : nat) : option (list A) :=
  match j with
  | O => Some data
  | S j' =>
    if (a <? j)%nat then
      match less data j j' with
      | Some true =>
        match Swap data j j' with
        | Some data' => insertionInner a data' j'
        | None => None
        end
      | Some false => Some data
      | None => None
      end
    else Some data
  end.

(** insertionSort_func sorts data[a:b] using insertion sort:
    [for i := a + 1; i < b; i++ { ... }] *)
Definition insertionSort_func (data : list A) (a b : nat) : option (list A) :=
  foldl (fun acc i => match acc with
                      | Some data => insertionInner a data i
                      | None => None
                      end)
        (Some data) (seq (S a) (b - S a)).

Definition maxInsertion : nat := 12.

(** pdqsort_func sorts data[a:b]; a slice of at most maxInsertion
    elements by insertion sort. *)
Definition pdqsort_func (data : list A) (a b : nat) : result A :=
  if (b - a <=? maxInsertion)%nat then
    match insertionSort_func data a b with
    | Some data' => Returns data'
    | None => Panics
    end
  else Pivots.

(** Slice sorts the slice given the provided less function. *)
Definition Slice (x : list A) : result A := pdqsort_func x 0 (length x).


End Slice.

(** Strings sorts a slice of strings in increasing order. *)
Definition Strings (x : list string) : result string :=
  Slice (fun data i j =>
           match data !! i, data !! j with
           | Some a, Some b => Some (string_less a b)
           | _, _ => None
           end) x.

End gosort.

(** ** The program *)

Record FileResult : Type := { path : string; language : string }.

Record LanguageStats : Type := {
  FileCount : Z;   (* int *)
  LineCount : Z;   (* int *)
  ByteCount : Z;   (* int64 *)
  mutex : bool     (* sync.Mutex: locked; these versions never lock it *)
}.

Definition languageExtMap : gmap string string :=
  list_to_map [
    (".go",    "Go");
    (".py",    "Python");
    (".js",    "JavaScript");
    (".ts",    "TypeScript");
    (".java",  "Java");
    (".cpp",   "C++");
    (".c",     "C");
    (".rb",    "Ruby");
    (".php",   "PHP");
    (".rs",    "Rust");
    (".swift", "Swift");
    (".kt",    "Kotlin")
  ].

(** The exclude flag: split at commas; no pattern when the flag is empty. *)
Definition excludePatternsOf (exclude : string) : list string :=
  if is_empty exclude then [] else gostrings.Split exclude ",".

(** The loop over the exclude patterns in the walk function of the
    worker-pool versions: whether it leaves the function, returning nil. *)
Fixpoint excluded (excludePatterns : list string) (path : string) : bool :=
  match excludePatterns with
  | [] => false
  | pattern :: patterns =>
    let '(matched, err) := filepath.Match (gostrings.TrimSpace pattern) (filepath.Base path) in
    if (match err with Some _ => true | None => false end) || matched then true
    else excluded patterns path
  end.

(** The function handed to filepath.Walk by the file-discovery goroutine. *)
Definition walkFn (skipNodeModules : bool) (excludePatterns : list string)
  : filepath.WalkFunc FileResult :=
  fun path v =>
    match v with
    | filepath.Failed err => ([], Some err)
    | filepath.Found info (Some err) => ([], Some err)
    | filepath.Found info None =>
      (* Skip node_modules directories if flag is set *)
      if skipNodeModules && filepath.IsDir info && String.eqb (filepath.Name info) "node_modules"
      then ([], Some SkipDir)
      else if filepath.IsDir info then ([], None)
      else if excluded excludePatterns path then ([], None)
      else
        let ext := gostrings.ToLower (filepath.Ext path) in
        match languageExtMap !! ext with
        | Some lang => ([{| path := path; language := lang |}], None)
        | None => ([], None)
        end
    end.

(** Lines 158-173 of processFile: open, stat, count the lines.  Nothing
    when the function returns early; else lineCount and info.Size(). *)
Definition measure (fs : FileSystem) (path : string) : option (Z * Z) :=
  match fs path with
  | inl _ => None
  | inr file =>
    match Stat file with
    | inl _ => None
    | inr size =>
      let '(lineCount, _) := scanLoop (bufio.NewScanner file) 0 in
      Some (lineCount, size)
    end
  end.

(** ** The stats table and the locked region of processFile *)

Definition zeroStats : LanguageStats :=
  {| FileCount := 0; LineCount := 0; ByteCount := 0; mutex := false |}.

(** Lines 176-178: [if _, exists := stats[language]; !exists { ... }] *)
Definition ensureEntry (language : string) (stats : gmap string LanguageStats)
  : gmap string LanguageStats :=
  match stats !! language with
  | Some _ => stats
  | None => <[language := zeroStats]> stats
  end.

(** An update through the pointer [stats[language]]: a missing key gives
    the nil pointer, and the update panics ([None]). *)
Definition updateEntry (f : LanguageStats -> LanguageStats) (language : string)
    (stats : gmap string LanguageStats) : option (gmap string LanguageStats) :=
  match stats !! language with
  | Some entry => Some (<[language := f entry]> stats)
  | None => None
  end.

(** Line 179: [stats[language].FileCount++] *)
Definition incFileCount
  : string -> gmap string LanguageStats -> option (gmap string LanguageStats) :=
  updateEntry (fun e => {| FileCount := int_add (FileCount e) 1;
                           LineCount := LineCount e; ByteCount := ByteCount e;
                           mutex := mutex e |}).

(** Line 180: [stats[language].LineCount += lineCount] *)
Definition addLineCount (lineCount : Z)
  : string -> gmap string LanguageStats -> option (gmap string LanguageStats) :=
  updateEntry (fun e => {| FileCount := FileCount e;
                           LineCount := int_add (LineCount e) lineCount;
                           ByteCount := ByteCount e; mutex := mutex e |}).

(** Line 181: [stats[language].ByteCount += info.Size()] *)
Definition addByteCount (size : Z)
  : string -> gmap string LanguageStats -> option (gmap string LanguageStats) :=
  updateEntry (fun e => {| FileCount := FileCount e; LineCount := LineCount e;
                           ByteCount := int_add (ByteCount e) size; mutex := mutex e |}).

(** What a counted file adds: its language, line count and size. *)
Record Counted : Type := { lang : string; lines : Z; bytes : Z }.

(** Lines 176-181 run in one piece, as they do under the mutex. *)
Definition recordFile (r : Counted) (stats : gmap string LanguageStats)
  : option (gmap string LanguageStats) :=
  match incFileCount (lang r) (ensureEntry (lang r) stats) with
  | Some stats1 =>
    match addLineCount (lines r) (lang r) stats1 with
    | Some stats2 => addByteCount (bytes r) (lang r) stats2
    | None => None
    end
  | None => None
  end.

(** processFile run on its own, from start to end. *)
Definition processFile (fs : FileSystem) (p language : string)
    (stats : gmap string LanguageStats) : option (gmap string LanguageStats) :=
  match measure fs p with
  | None => Some stats
  | Some (lineCount, size) =>
    recordFile {| lang := language; lines := lineCount; bytes := size |} stats
  end.

(** The same region in closed form. *)
Definition bump (r : Counted) (e : LanguageStats) : LanguageStats :=
  {| FileCount := int_add (FileCount e) 1;
     LineCount := int_add (LineCount e) (lines r);
     ByteCount := int_add (ByteCount e) (bytes r);
     mutex := mutex e |}.

Definition record (r : Counted) (stats : gmap string LanguageStats)
  : gmap string LanguageStats :=
  <[lang r := bump r (default zeroStats (stats !! lang r))]> stats.

Lemma recordFile_record r stats : recordFile r stats = Some (record r stats).
Proof.
  unfold recordFile, record, ensureEntry, incFileCount, addLineCount, addByteCount, updateEntry.
  destruct (stats !! lang r) as [e|] eqn:E; simpl.
  - rewrite E. simpl. rewrite lookup_insert_eq. simpl. rewrite lookup_insert_eq. simpl.
    rewrite !insert_insert_eq. reflexivity.
  - rewrite lookup_insert_eq. simpl. rewrite lookup_insert_eq. simpl.
    rewrite lookup_insert_eq. simpl. rewrite !insert_insert_eq. reflexivity.
Qed.

Lemma wrap64_add_l u v : wrap64 (wrap64 u + v) = wrap64 (u + v).
Proof.
  unfold wrap64. f_equal.
  replace ((u + 2 ^ 63) mod 2 ^ 64 - 2 ^ 63 + v + 2 ^ 63)
    with ((u + 2 ^ 63) mod 2 ^ 64 + v) by lia.
  rewrite Zplus_mod_idemp_l. f_equal. lia.
Qed.

Lemma wrap64_small x : - 2^63 <= x < 2^63 -> wrap64 x = x.
Proof. intros H. unfold wrap64. rewrite Z.mod_small; lia. Qed.

Lemma int_add_swap a x y : int_add (int_add a x) y = int_add (int_add a y) x.
Proof. unfold int_add. rewrite !wrap64_add_l. f_equal. lia. Qed.

Lemma bump_comm r1 r2 e : bump r1 (bump r2 e) = bump r2 (bump r1 e).
Proof. unfold bump; simpl. f_equal; apply int_add_swap. Qed.

(** Each file's contribution is an increment: two of them commute. *)
Lemma record_comm r1 r2 stats :
  record r1 (record r2 stats) = record r2 (record r1 stats).
Proof.
  unfold record. destruct (decide (lang r1 = lang r2)) as [E|N].
  - rewrite E, !lookup_insert_eq, !insert_insert_eq. simpl. rewrite bump_comm. reflexivity.
  - rewrite (lookup_insert_ne _ (lang r2) (lang r1)) by congruence.
    rewrite (lookup_insert_ne _ (lang r1) (lang r2)) by congruence.
    apply insert_insert_ne. congruence.
Qed.

(** The table after the counted files [rs], the last of the list first. *)
Definition aggregate (rs : list Counted) (stats : gmap string LanguageStats)
  : gmap string LanguageStats := foldr record stats rs.

Lemma aggregate_app rs1 rs2 stats :
  aggregate (rs1 ++ rs2) stats = aggregate rs1 (aggregate rs2 stats).
Proof. apply foldr_app. Qed.

Lemma aggregate_perm rs1 rs2 stats :
  rs1 ≡ₚ rs2 -> aggregate rs1 stats = aggregate rs2 stats.
Proof.
  induction 1 as [|r rs1 rs2 _ IH|r1 r2 rs|rs1 rs2 rs3 _ IH1 _ IH2]; simpl.
  - reflexivity.
  - rewrite IH; reflexivity.
  - apply record_comm.
  - congruence.
Qed.

(** What a task adds once processFile has measured its file: nothing
    when it returned early. *)
Definition counted (fs : FileSystem) (task : FileResult) : list Counted :=
  match measure fs (path task) with
  | Some (lineCount, size) => [{| lang := language task; lines := lineCount; bytes := size |}]
  | None => []
  end.

Definition countedAll (fs : FileSystem) (tasks : list FileResult) : list Counted :=
  flat_map (counted fs) tasks.

(** The tasks processed one after the other, in the order of the channel. *)
Definition runSequential (fs : FileSystem) (tasks : list FileResult)
  : gmap string LanguageStats :=
  aggregate (rev (countedAll fs tasks)) ∅.

(** ** The pipeline: walker, channel, worker pool *)

(** Where a worker stands in lines 175-182 of processFile. *)
Inductive pc : Type := L175 | L176 | L179 | L180 | L181 | L182.

Inductive worker : Type :=
| Receiving                          (* for result := range filesChan *)
| Measuring (task : FileResult)      (* processFile, lines 158-173 *)
| Recording (at_ : pc) (r : Counted) (* processFile, lines 175-182 *)
| Exited.                            (* the channel is closed and empty: wg.Done() *)

Record pipeline : Type := Pipeline {
  toSend : list FileResult;     (* what the walk has yet to send *)
  filesChan : list FileResult;  (* the buffer of the channel *)
  closed : bool;                (* close(filesChan) *)
  workers : list worker;
  stats : gmap string LanguageStats;
  statsMutex : bool;            (* locked *)
  panicked : bool
}.

(** make(chan FileResult, 1000) *)
Definition chanCap : nat := 1000.

(** One statement of the locked region, lines 176-181: the next line and
    the table, or a panic. *)
Definition lockedStep (at_ : pc) (r : Counted) (stats : gmap string LanguageStats)
  : option (pc * gmap string LanguageStats) :=
  match at_ with
  | L176 => Some (L179, ensureEntry (lang r) stats)
  | L179 => option_map (pair L180) (incFileCount (lang r) stats)
  | L180 => option_map (pair L181) (addLineCount (lines r) (lang r) stats)
  | L181 => option_map (pair L182) (addByteCount (bytes r) (lang r) stats)
  | L175 | L182 => Some (at_, stats)
  end.

Definition inLocked (at_ : pc) : bool :=
  match at_ with L176 | L179 | L180 | L181 => true | L175 | L182 => false end.

Section Pipeline.
Variable fs : FileSystem.

(** After a measurement the worker is back at the channel (processFile
    returned early) or goes on to the mutex. *)
Definition afterMeasure (task : FileResult) : worker :=
  match measure fs (path task) with
  | None => Receiving
  | Some (lineCount, size) =>
    Recording L175 {| lang := language task; lines := lineCount; bytes := size |}
  end.

(** The interleavings of the goroutines: the file-discovery goroutine
    (send, close) and the workers, one statement at a time. *)
Inductive step : pipeline -> pipeline -> Prop :=
| step_send task ts ch ws T m :
    (length ch < chanCap)%nat ->
    step (Pipeline (task :: ts) ch false ws T m false)
         (Pipeline ts (ch ++ [task]) false ws T m false)
| step_close ch ws T m :
    step (Pipeline [] ch false ws T m false)
         (Pipeline [] ch true ws T m false)
| step_receive ts task ch cl ws1 ws2 T m :
    step (Pipeline ts (task :: ch) cl (ws1 ++ Receiving :: ws2) T m false)
         (Pipeline ts ch cl (ws1 ++ Measuring task :: ws2) T m false)
| step_exit ts ws1 ws2 T m :
    step (Pipeline ts [] true (ws1 ++ Receiving :: ws2) T m false)
         (Pipeline ts [] true (ws1 ++ Exited :: ws2) T m false)
| step_measure ts ch cl ws1 task ws2 T m :
    step (Pipeline ts ch cl (ws1 ++ Measuring task :: ws2) T m false)
         (Pipeline ts ch cl (ws1 ++ afterMeasure task :: ws2) T m false)
| step_lock ts ch cl ws1 r ws2 T :
    step (Pipeline ts ch cl (ws1 ++ Recording L175 r :: ws2) T false false)
         (Pipeline ts ch cl (ws1 ++ Recording L176 r :: ws2) T true false)
| step_locked ts ch cl ws1 at_ r ws2 T m at' T' :
    inLocked at_ = true ->
    lockedStep at_ r T = Some (at', T') ->
    step (Pipeline ts ch cl (ws1 ++ Recording at_ r :: ws2) T m false)
         (Pipeline ts ch cl (ws1 ++ Recording at' r :: ws2) T' m false)
| step_panic ts ch cl ws1 at_ r ws2 T m :
    inLocked at_ = true ->
    lockedStep at_ r T = None ->
    step (Pipeline ts ch cl (ws1 ++ Recording at_ r :: ws2) T m false)
         (Pipeline ts ch cl (ws1 ++ Recording at_ r :: ws2) T m true)
| step_unlock ts ch cl ws1 r ws2 T m :
    step (Pipeline ts ch cl (ws1 ++ Recording L182 r :: ws2) T m false)
         (Pipeline ts ch cl (ws1 ++ Receiving :: ws2) T false false).

(** The state main starts the goroutines in. *)
Definition start (numWorkers : nat) (tasks : list FileResult) : pipeline :=
  Pipeline tasks [] false (replicate numWorkers Receiving) ∅ false false.

Definition reachable (numWorkers : nat) (tasks : list FileResult) (st : pipeline) : Prop :=
  rtc step (start numWorkers tasks) st.

(** wg.Wait() returns: every worker has left its loop. *)
Definition drained (st : pipeline) : Prop :=
  Forall (fun w => w = Exited) (workers st).

(** *** What is still to come *)

Definition holdsMutex (w : worker) : bool :=
  match w with
  | Recording L175 _ => false
  | Recording _ _ => true
  | _ => false
  end.

Definition holders (ws : list worker) : nat :=
  length (filter (fun w => holdsMutex w = true) ws).

(** The rest of the locked region, from where the worker stands. *)
Definition finish (w : worker) (T : gmap string LanguageStats)
  : option (gmap string LanguageStats) :=
  match w with
  | Recording L176 r => recordFile r T
  | Recording L179 r =>
    match incFileCount (lang r) T with
    | Some T1 =>
      match addLineCount (lines r) (lang r) T1 with
      | Some T2 => addByteCount (bytes r) (lang r) T2
      | None => None
      end
    | None => None
    end
  | Recording L180 r =>
    match addLineCount (lines r) (lang r) T with
    | Some T2 => addByteCount (bytes r) (lang r) T2
    | None => None
    end
  | Recording L181 r => addByteCount (bytes r) (lang r) T
  | _ => Some T
  end.

(** The table once the worker inside the locked region has left it. *)
Definition settled (ws : list worker) (T : gmap string LanguageStats)
  : option (gmap string LanguageStats) :=
  foldr (fun w acc => match acc with Some T' => finish w T' | None => None end) (Some T) ws.

(** What a worker outside the locked region has yet to record. *)
Definition owed (w : worker) : list Counted :=
  match w with
  | Measuring task => counted fs task
  | Recording L175 r => [r]
  | _ => []
  end.

Definition pending (st : pipeline) : list Counted :=
  flat_map owed (workers st) ++ countedAll fs (filesChan st) ++ countedAll fs (toSend st).

(** The invariant of the pipeline for the tasks of one walk: the
    mutex is held by exactly the worker inside the locked region; the
    table, once that worker has left the region, is the result of
    whole [recordFile]s of some counted files [done]; and every
    counted file of the walk is either in [done] or still to come,
    once. *)
Definition invariant (tasks : list FileResult) (st : pipeline) : Prop :=
  panicked st = false /\
  holders (workers st) = (if statsMutex st then 1 else 0)%nat /\
  (exists done, settled (workers st) (stats st) = Some (aggregate done ∅) /\
                done ++ pending st ≡ₚ countedAll fs tasks) /\
  (closed st = true -> toSend st = []) /\
  (Exited ∈ workers st -> closed st = true /\ filesChan st = []).
End Pipeline.

(** ** The pipeline keeps every contribution *)

Section PipelineProofs.
Variable fs : FileSystem.

Lemma holders_app ws1 ws2 : holders (ws1 ++ ws2) = (holders ws1 + holders ws2)%nat.
Proof. unfold holders. rewrite filter_app, length_app. reflexivity. Qed.

Lemma holders_cons w ws :
  holders (w :: ws) = ((if holdsMutex w then 1 else 0) + holders ws)%nat.
Proof.
  unfold holders. rewrite filter_cons.
  destruct (decide (holdsMutex w = true)) as [E|E].
  - rewrite E. reflexivity.
  - destruct (holdsMutex w); [congruence|reflexivity].
Qed.

Lemma holders_middle ws1 w ws2 :
  holders (ws1 ++ w :: ws2) =
  (holders ws1 + (if holdsMutex w then 1 else 0) + holders ws2)%nat.
Proof. rewrite holders_app, holders_cons. lia. Qed.

Lemma settled_quiet ws X :
  holders ws = 0%nat ->
  foldr (fun w acc => match acc with Some T' => finish w T' | None => None end) X ws = X.
Proof.
  induction ws as [|w ws IH]; [reflexivity|].
  rewrite holders_cons. intros H. simpl. rewrite IH by lia.
  destruct X as [T|]; [|reflexivity].
  destruct w as [| |[] r|]; simpl in *; try reflexivity; lia.
Qed.

Lemma settled_middle ws1 w ws2 T :
  holders ws1 = 0%nat -> holders ws2 = 0%nat ->
  settled (ws1 ++ w :: ws2) T = finish w T.
Proof.
  intros H1 H2. unfold settled. rewrite foldr_app. simpl.
  rewrite (settled_quiet ws2) by assumption.
  apply settled_quiet; assumption.
Qed.

Lemma settled_idle ws T : holders ws = 0%nat -> settled ws T = Some T.
Proof. apply settled_quiet. Qed.

Lemma owed_middle ws1 w ws2 :
  flat_map (owed fs) (ws1 ++ w :: ws2) ≡ₚ owed fs w ++ flat_map (owed fs) (ws1 ++ ws2).
Proof.
  rewrite !flat_map_app. simpl. 
  rewrite !(assoc app). apply Permutation_app_tail. apply Permutation_app_comm.
Qed.

Lemma settled_swap ws1 w w' ws2 T :
  (forall T', finish w T' = finish w' T') ->
  settled (ws1 ++ w :: ws2) T = settled (ws1 ++ w' :: ws2) T.
Proof.
  intros H. unfold settled. rewrite !foldr_app. simpl.
  destruct (foldr _ (Some T) ws2); [rewrite H|]; reflexivity.
Qed.

Lemma finish_afterMeasure task T : finish (afterMeasure fs task) T = Some T.
Proof. unfold afterMeasure. destruct (measure fs (path task)) as [[? ?]|]; reflexivity. Qed.

Lemma holdsMutex_afterMeasure task : holdsMutex (afterMeasure fs task) = false.
Proof. unfold afterMeasure. destruct (measure fs (path task)) as [[? ?]|]; reflexivity. Qed.

Lemma owed_afterMeasure task : owed fs (afterMeasure fs task) = counted fs task.
Proof.
  unfold afterMeasure, counted.
  destruct (measure fs (path task)) as [[? ?]|]; reflexivity.
Qed.

Lemma Exited_middle ws1 w w' ws2 :
  w' ≠ Exited -> Exited ∈ ws1 ++ w' :: ws2 -> Exited ∈ ws1 ++ w :: ws2.
Proof.
  intros Hne. rewrite !elem_of_app, !elem_of_cons. intros [?|[?|?]]; auto. congruence.
Qed.

Lemma lockedStep_finish at_ r T at' T' :
  inLocked at_ = true ->
  lockedStep at_ r T = Some (at', T') ->
  holdsMutex (Recording at' r) = true /\
  finish (Recording at' r) T' = finish (Recording at_ r) T.
Proof.
  destruct at_; try discriminate; intros _; simpl.
  - intros [= <- <-]. split; reflexivity.
  - destruct (incFileCount (lang r) T); simpl; [|discriminate].
    intros [= <- <-]. split; reflexivity.
  - destruct (addLineCount (lines r) (lang r) T); simpl; [|discriminate].
    intros [= <- <-]. split; reflexivity.
  - destruct (addByteCount (bytes r) (lang r) T); simpl; [|discriminate].
    intros [= <- <-]. split; reflexivity.
Qed.

Lemma lockedStep_safe at_ r T :
  inLocked at_ = true -> is_Some (finish (Recording at_ r) T) ->
  is_Some (lockedStep at_ r T).
Proof.
  destruct at_; try discriminate; intros _; simpl; [eauto| | |].
  - destruct (incFileCount (lang r) T); simpl; [eauto|]. intros [? ?]; discriminate.
  - destruct (addLineCount (lines r) (lang r) T); simpl; [eauto|]. intros [? ?]; discriminate.
  - destruct (addByteCount (bytes r) (lang r) T); simpl; [eauto|]. intros [? ?]; discriminate.
Qed.

Lemma inLocked_holds at_ r : inLocked at_ = true -> holdsMutex (Recording at_ r) = true.
Proof. destruct at_; simpl; congruence. Qed.

Lemma holders_replicate n : holders (replicate n Receiving) = 0%nat.
Proof. induction n as [|n IH]; [reflexivity|]. simpl. rewrite holders_cons. exact IH. Qed.

Lemma owed_replicate n : flat_map (owed fs) (replicate n Receiving) = [].
Proof. induction n as [|n IH]; [reflexivity|]. simpl. exact IH. Qed.

Lemma invariant_start n tasks : invariant fs tasks (start n tasks).
Proof.
  unfold invariant, start; simpl. split; [reflexivity|].
  split; [apply holders_replicate|].
  split.
  - exists []. split; [apply settled_idle, holders_replicate|].
    unfold pending; simpl. rewrite owed_replicate. reflexivity.
  - split; [discriminate|].
    intros H. apply elem_of_replicate in H. destruct H as [H _]. discriminate.
Qed.

Lemma invariant_step tasks st st' :
  invariant fs tasks st -> step fs st st' -> invariant fs tasks st'.
Proof.
  intros (Hp & Hh & (done & Hs & Ha) & Hc & He) Hstep.
  unfold invariant, pending in *.
  destruct Hstep; simpl in *.
  - (* send *)
    split; [reflexivity|]. split; [assumption|]. split.
    + exists done. split; [assumption|]. rewrite <- Ha.
      unfold countedAll. rewrite flat_map_app. simpl. rewrite app_nil_r.
      rewrite <- !(assoc app). reflexivity.
    + split; [discriminate|]. intros Hex. destruct (He Hex); discriminate.
  - (* close *)
    split; [reflexivity|]. split; [assumption|]. split; [eauto|].
    split; [reflexivity|]. intros Hex. destruct (He Hex); discriminate.
  - (* receive *)
    split; [reflexivity|]. split.
    { rewrite holders_middle in *. exact Hh. }
    split.
    + exists done. split.
      { rewrite <- Hs. apply settled_swap. reflexivity. }
      rewrite <- Ha. apply Permutation_app_head.
      rewrite !owed_middle. simpl. unfold countedAll; simpl.
      rewrite <- !(assoc app).
      rewrite (Permutation_app_swap_app (counted fs task)). reflexivity.
    + split; [assumption|]. intros Hex.
      apply (Exited_middle _ Receiving) in Hex; [|discriminate].
      destruct (He Hex); discriminate.
  - (* exit *)
    split; [reflexivity|]. split.
    { rewrite holders_middle in *. exact Hh. }
    split.
    + exists done. split.
      { rewrite <- Hs. apply settled_swap. reflexivity. }
      rewrite <- Ha. apply Permutation_app_head. rewrite !owed_middle. reflexivity.
    + split; [assumption|]. auto.
  - (* measure *)
    split; [reflexivity|]. split.
    { rewrite holders_middle in *. rewrite holdsMutex_afterMeasure. exact Hh. }
    split.
    + exists done. split.
      { rewrite <- Hs. apply settled_swap. intros T'. apply finish_afterMeasure. }
      rewrite <- Ha. apply Permutation_app_head.
      rewrite !owed_middle, owed_afterMeasure. reflexivity.
    + split; [assumption|]. intros Hex. apply He.
      revert Hex. apply Exited_middle.
      unfold afterMeasure. destruct (measure fs (path task)) as [[? ?]|]; discriminate.
  - (* lock *)
    rewrite holders_middle in Hh. simpl in Hh.
    assert (H1 : holders ws1 = 0%nat) by lia.
    assert (H2 : holders ws2 = 0%nat) by lia.
    split; [reflexivity|]. split.
    { rewrite holders_middle. simpl. lia. }
    split.
    + rewrite settled_middle in Hs by assumption. simpl in Hs. injection Hs as ->.
      exists (r :: done). split.
      { rewrite settled_middle by assumption. simpl. apply recordFile_record. }
      rewrite <- Ha. rewrite !owed_middle. simpl.
      rewrite <- Permutation_middle. reflexivity.
    + split; [assumption|]. intros Hex. apply He. revert Hex.
      apply Exited_middle. discriminate.
  - (* a statement under the mutex *)
    pose proof (inLocked_holds at_ r H) as Hin.
    rewrite holders_middle, Hin in Hh.
    destruct m; [|lia].
    assert (H1 : holders ws1 = 0%nat) by lia.
    assert (H2 : holders ws2 = 0%nat) by lia.
    destruct (lockedStep_finish _ _ _ _ _ H H0) as [Hin' Hfin].
    split; [reflexivity|]. split.
    { rewrite holders_middle, Hin'. lia. }
    split.
    + exists done. split.
      { rewrite settled_middle in * by assumption. congruence. }
      rewrite <- Ha. apply Permutation_app_head. rewrite !owed_middle.
      destruct at_; try discriminate; destruct at'; try discriminate Hin'; reflexivity.
    + split; [assumption|]. intros Hex. apply He. revert Hex.
      apply Exited_middle. discriminate.
  - (* no panic *)
    exfalso.
    pose proof (inLocked_holds at_ r H) as Hin.
    rewrite holders_middle, Hin in Hh.
    destruct m; [|lia].
    rewrite settled_middle in Hs by lia.
    destruct (lockedStep_safe at_ r T H) as [x Hx]; [eauto|]. congruence.
  - (* unlock *)
    rewrite holders_middle in Hh. simpl in Hh.
    destruct m; [|lia].
    assert (H1 : holders ws1 = 0%nat) by lia.
    assert (H2 : holders ws2 = 0%nat) by lia.
    split; [reflexivity|]. split.
    { rewrite holders_middle. simpl. lia. }
    split.
    + exists done. split.
      { rewrite settled_middle in * by assumption. exact Hs. }
      rewrite <- Ha. apply Permutation_app_head. rewrite !owed_middle. reflexivity.
    + split; [assumption|]. intros Hex. apply He. revert Hex.
      apply Exited_middle. discriminate.
Qed.

Lemma invariant_reachable n tasks st :
  reachable fs n tasks st -> invariant fs tasks st.
Proof.
  unfold reachable. intros H.
  refine (rtc_ind_r (R := step fs) (invariant fs tasks) _ _ _ _ H).
  - apply invariant_start.
  - intros y z _ Hstep IH. eapply invariant_step; eassumption.
Qed.

Lemma workers_reachable n tasks st :
  reachable fs n tasks st -> length (workers st) = n.
Proof.
  intros Hreach.
  refine (rtc_ind_r (R := step fs) (fun st => length (workers st) = n) _ _ _ _ Hreach).
  - simpl. apply length_replicate.
  - intros y z _ Hstep IH. rewrite <- IH.
    destruct Hstep; simpl; rewrite ?length_app; simpl; reflexivity.
Qed.

(** When the worker pool has drained, the table holds every counted
    file of the walk, and nothing else. *)
Lemma drained_stats n tasks st :
  (0 < n)%nat -> reachable fs n tasks st -> drained st ->
  stats st = aggregate (countedAll fs tasks) ∅.
Proof.
  intros Hn Hreach Hdr.
  pose proof (workers_reachable _ _ _ Hreach) as Hlen.
  destruct (invariant_reachable _ _ _ Hreach) as (Hp & Hh & (done & Hs & Ha) & Hc & He).
  unfold drained in Hdr.
  assert (Hex : Exited ∈ workers st).
  { destruct (workers st) as [|w ws]; [simpl in Hlen; lia|].
    inversion Hdr; subst. left. }
  destruct (He Hex) as [Hcl Hch]. specialize (Hc Hcl).
  assert (Hq : holders (workers st) = 0%nat /\ flat_map (owed fs) (workers st) = []).
  { clear -Hdr. induction Hdr as [|w ws Hw _ IH]; [split; reflexivity|].
    subst w. rewrite holders_cons. simpl. exact IH. }
  destruct Hq as [Hq1 Hq2].
  rewrite settled_idle in Hs by assumption. injection Hs as ->.
  apply aggregate_perm. rewrite <- Ha. unfold pending.
  rewrite Hq2, Hch, Hc. simpl. rewrite app_nil_r. reflexivity.
Qed.

(** *** A complete run exists: one worker takes every task in turn *)

Lemma run_locked ts ch cl ws1 ws2 at_ r T Tf :
  holdsMutex (Recording at_ r) = true ->
  finish (Recording at_ r) T = Some Tf ->
  rtc (step fs) (Pipeline ts ch cl (ws1 ++ Recording at_ r :: ws2) T true false)
                (Pipeline ts ch cl (ws1 ++ Recording L182 r :: ws2) Tf true false).
Proof.
  assert (Hgo : forall at_ T at' T',
             inLocked at_ = true -> lockedStep at_ r T = Some (at', T') ->
             step fs (Pipeline ts ch cl (ws1 ++ Recording at_ r :: ws2) T true false)
                     (Pipeline ts ch cl (ws1 ++ Recording at' r :: ws2) T' true false))
    by (intros; apply step_locked; assumption).
  assert (H181 : forall T, finish (Recording L181 r) T = Some Tf ->
             rtc (step fs) (Pipeline ts ch cl (ws1 ++ Recording L181 r :: ws2) T true false)
                           (Pipeline ts ch cl (ws1 ++ Recording L182 r :: ws2) Tf true false)).
  { intros T1 H. apply rtc_once, Hgo; [reflexivity|]. simpl in *. rewrite H. reflexivity. }
  assert (H180 : forall T, finish (Recording L180 r) T = Some Tf ->
             rtc (step fs) (Pipeline ts ch cl (ws1 ++ Recording L180 r :: ws2) T true false)
                           (Pipeline ts ch cl (ws1 ++ Recording L182 r :: ws2) Tf true false)).
  { intros T1 H. simpl in H.
    destruct (addLineCount (lines r) (lang r) T1) as [T2|] eqn:E; [|discriminate].
    eapply rtc_l; [apply (Hgo L180 T1 L181 T2); [reflexivity|simpl; rewrite E; reflexivity]|].
    apply H181. exact H. }
  assert (H179 : forall T, finish (Recording L179 r) T = Some Tf ->
             rtc (step fs) (Pipeline ts ch cl (ws1 ++ Recording L179 r :: ws2) T true false)
                           (Pipeline ts ch cl (ws1 ++ Recording L182 r :: ws2) Tf true false)).
  { intros T1 H. simpl in H.
    destruct (incFileCount (lang r) T1) as [T2|] eqn:E; [|discriminate].
    eapply rtc_l; [apply (Hgo L179 T1 L180 T2); [reflexivity|simpl; rewrite E; reflexivity]|].
    apply H180. exact H. }
  intros Hin Hfin. destruct at_; try discriminate Hin; auto.
  - eapply rtc_l; [apply (Hgo L176 T L179 (ensureEntry (lang r) T)); reflexivity|].
    apply H179. exact Hfin.
  - simpl in Hfin. injection Hfin as <-. apply rtc_refl.
Qed.

Lemma run_task task ts cl ws T :
  rtc (step fs) (Pipeline ts [task] cl (Receiving :: ws) T false false)
                (Pipeline ts [] cl (Receiving :: ws) (aggregate (counted fs task) T) false false).
Proof.
  eapply rtc_l; [apply (step_receive fs ts task [] cl [] ws)|]. simpl.
  eapply rtc_l; [apply (step_measure fs ts [] cl [] task ws)|]. simpl.
  unfold afterMeasure, counted.
  destruct (measure fs (path task)) as [[lineCount size]|]; simpl; [|apply rtc_refl].
  set (r := {| lang := language task; lines := lineCount; bytes := size |}).
  eapply rtc_l; [apply (step_lock fs ts [] cl [] r ws)|]. simpl.
  eapply rtc_trans.
  - apply (run_locked ts [] cl [] ws L176 r T (record r T)); [reflexivity|].
    apply recordFile_record.
  - apply rtc_once. apply (step_unlock fs ts [] cl [] r ws).
Qed.

Lemma run_tasks tasks ws T :
  rtc (step fs) (Pipeline tasks [] false (Receiving :: ws) T false false)
                (Pipeline [] [] false (Receiving :: ws)
                          (aggregate (rev (countedAll fs tasks)) T) false false).
Proof.
  revert T. induction tasks as [|task tasks IH]; intros T; [apply rtc_refl|].
  eapply rtc_l; [apply step_send; simpl; unfold chanCap; lia|]. simpl.
  eapply rtc_trans; [apply run_task|].
  eapply rtc_trans; [apply IH|].
  unfold countedAll; simpl. rewrite rev_app_distr, aggregate_app.
  assert (Hrev : rev (counted fs task) = counted fs task).
  { unfold counted. destruct (measure fs (path task)) as [[? ?]|]; reflexivity. }
  rewrite Hrev. apply rtc_refl.
Qed.

Lemma run_exits a b T :
  rtc (step fs) (Pipeline [] [] true (replicate a Exited ++ replicate b Receiving) T false false)
                (Pipeline [] [] true (replicate (a + b) Exited) T false false).
Proof.
  revert a. induction b as [|b IH]; intros a.
  - simpl. rewrite app_nil_r, Nat.add_0_r. apply rtc_refl.
  - simpl. eapply rtc_l; [apply step_exit|].
    replace (replicate a Exited ++ Exited :: replicate b Receiving)
      with (replicate (S a) Exited ++ replicate b Receiving).
    + replace (a + S b)%nat with (S a + b)%nat by lia. apply IH.
    + rewrite replicate_S_end, <- (assoc app). reflexivity.
Qed.

(** The state after a complete run that left [T] in the table. *)
Definition finalState (numWorkers : nat) (T : gmap string LanguageStats) : pipeline :=
  Pipeline [] [] true (replicate numWorkers Exited) T false false.

Lemma drained_finalState n T : drained (finalState n T).
Proof.
  unfold drained; simpl. apply Forall_forall. intros w Hw.
  apply elem_of_replicate in Hw. tauto.
Qed.

(** With at least one worker the pipeline can run to its end. *)
Lemma run_complete n tasks :
  (0 < n)%nat -> reachable fs n tasks (finalState n (runSequential fs tasks)).
Proof.
  intros Hn. destruct n as [|n]; [lia|].
  unfold reachable, start, finalState. simpl.
  eapply rtc_trans; [apply run_tasks|].
  eapply rtc_l; [apply step_close|].
  apply (run_exits 0 (S n)).
Qed.
End PipelineProofs.

(** ** Lines, as the specification counts them *)

(** The number of maximal runs of bytes between line terminators, a
    final run with no terminator after it counting when it is not
    empty.  [partial]: bytes were seen since the last terminator. *)
Fixpoint lineRuns (data : list Byte.byte) (partial : bool) : Z :=
  match data with
  | [] => if partial then 1 else 0
  | b :: data' =>
    if Byte.eqb b bufio.newline then 1 + lineRuns data' false
    else lineRuns data' true
  end.

Definition specLines (data : list Byte.byte) : Z := lineRuns data false.

(** Every line, without its terminator, is shorter than [limit] bytes.
    [cur]: the bytes seen since the last terminator. *)
Fixpoint linesFit (limit : nat) (data : list Byte.byte) (cur : nat) : bool :=
  match data with
  | [] => (cur <? limit)%nat
  | b :: data' =>
    if Byte.eqb b bufio.newline then (cur <? limit)%nat && linesFit limit data' 0
    else linesFit limit data' (S cur)
  end.

Lemma IndexByte_take b c i k :
  bufio.IndexByte b c = Some i -> (i < k)%nat -> bufio.IndexByte (take k b) c = Some i.
Proof.
  revert i k; induction b as [|x b IH]; intros i k; simpl; [discriminate|].
  destruct k as [|k]; [lia|]. simpl.
  destruct (Byte.eqb x c); [auto|].
  destruct (bufio.IndexByte b c) as [j|] eqn:E; [|discriminate].
  intros [= <-] Hk. rewrite (IH j k eq_refl) by lia. reflexivity.
Qed.

Lemma IndexByte_take_None b c k :
  bufio.IndexByte b c = None -> bufio.IndexByte (take k b) c = None.
Proof.
  revert k; induction b as [|x b IH]; intros k; simpl; [destruct k; reflexivity|].
  destruct k as [|k]; [reflexivity|]. simpl.
  destruct (Byte.eqb x c); [discriminate|].
  destruct (bufio.IndexByte b c) as [j|] eqn:E; [discriminate|].
  intros _. rewrite IH by reflexivity. reflexivity.
Qed.

Lemma lineRuns_newline data i p :
  bufio.IndexByte data bufio.newline = Some i ->
  lineRuns data p = 1 + lineRuns (drop (S i) data) false.
Proof.
  revert i p; induction data as [|x data IH]; intros i p; simpl; [discriminate|].
  destruct (Byte.eqb x bufio.newline); [intros [= <-]; reflexivity|].
  destruct (bufio.IndexByte data bufio.newline) as [j|] eqn:E; [|discriminate].
  intros [= <-]. apply IH. reflexivity.
Qed.

Lemma lineRuns_no_newline data p :
  bufio.IndexByte data bufio.newline = None ->
  lineRuns data p = if p || negb (bool_decide (data = [])) then 1 else 0.
Proof.
  revert p; induction data as [|x data IH]; intros p; simpl.
  - intros _. rewrite orb_false_r. reflexivity.
  - destruct (Byte.eqb x bufio.newline); [discriminate|].
    destruct (bufio.IndexByte data bufio.newline) as [j|] eqn:E; [discriminate|].
    intros _. rewrite IH by reflexivity. simpl. rewrite orb_true_r. reflexivity.
Qed.

Lemma linesFit_newline limit data i cur :
  bufio.IndexByte data bufio.newline = Some i ->
  linesFit limit data cur = (cur + i <? limit)%nat && linesFit limit (drop (S i) data) 0.
Proof.
  revert i cur; induction data as [|x data IH]; intros i cur; simpl; [discriminate|].
  destruct (Byte.eqb x bufio.newline).
  - intros [= <-]. rewrite Nat.add_0_r. reflexivity.
  - destruct (bufio.IndexByte data bufio.newline) as [j|] eqn:E; [|discriminate].
    intros [= <-]. rewrite (IH j (S cur) eq_refl).
    replace (S cur + j)%nat with (cur + S j)%nat by lia. reflexivity.
Qed.

Lemma linesFit_no_newline limit data cur :
  bufio.IndexByte data bufio.newline = None ->
  linesFit limit data cur = (cur + length data <? limit)%nat.
Proof.
  revert cur; induction data as [|x data IH]; intros cur; simpl.
  - rewrite Nat.add_0_r. reflexivity.
  - destruct (Byte.eqb x bufio.newline); [discriminate|].
    destruct (bufio.IndexByte data bufio.newline) as [j|] eqn:E; [discriminate|].
    intros _. rewrite IH by reflexivity.
    replace (S cur + length data)%nat with (cur + S (length data))%nat by lia. reflexivity.
Qed.


Lemma lineRuns_bounds data p :
  0 <= lineRuns data p <= Z.of_nat (length data) + (if p then 1 else 0).
Proof.
  revert p; induction data as [|x data IH]; intros p; simpl length.
  - simpl. destruct p; lia.
  - simpl lineRuns. destruct (Byte.eqb x bufio.newline).
    + specialize (IH false). simpl in IH. destruct p; lia.
    + specialize (IH true). simpl in IH. destruct p; lia.
Qed.

Lemma specLines_bounds data : 0 <= specLines data <= Z.of_nat (length data).
Proof. unfold specLines. pose proof (lineRuns_bounds data false). simpl in *. lia. Qed.

Lemma scanLoop_eq s lineCount :
  scanLoop s lineCount =
  match bufio.Scan s with
  | Continue s' => scanLoop s' (int_add lineCount 1)
  | Break e => (lineCount, e)
  end.
Proof.
  funelim (scanLoop s lineCount).
  - match goal with H : bufio.Scan _ = Continue _ |- _ => rewrite H end. reflexivity.
  - match goal with H : bufio.Scan _ = Break _ |- _ => rewrite H end. reflexivity.
Qed.

Lemma wrap64_range x : - 2^63 <= wrap64 x < 2^63.
Proof. unfold wrap64. pose proof (Z.mod_pos_bound (x + 2^63) (2^64)). lia. Qed.

(** When every line fits the buffer, the loop counts the lines of the
    specification and ends with the reader's error, if any. *)
Lemma scanLoop_fits k : forall data e n,
  (length data <= k)%nat ->
  linesFit bufio.MaxScanTokenSize data 0 = true ->
  - 2^63 <= n < 2^63 ->
  scanLoop {| bufio.unread := data; bufio.readerErr := e |} n =
  (wrap64 (n + specLines data), e).
Proof.
  induction k as [|k IH]; intros data e n Hlen Hfit Hn.
  - destruct data; [|simpl in Hlen; lia].
    rewrite scanLoop_eq. unfold bufio.Scan. simpl.
    rewrite Z.add_0_r, wrap64_small by assumption. reflexivity.
  - rewrite scanLoop_eq. unfold bufio.Scan. cbn [bufio.unread bufio.readerErr].
    destruct (bufio.IndexByte data bufio.newline) as [i|] eqn:E.
    + rewrite (linesFit_newline _ _ _ _ E) in Hfit.
      apply andb_prop in Hfit. destruct Hfit as [Hi Hrest].
      apply Nat.ltb_lt in Hi. simpl in Hi.
      rewrite (IndexByte_take _ _ _ _ E Hi).
      pose proof (bufio.IndexByte_lt _ _ _ E) as Hlt.
      rewrite IH; [| rewrite length_drop; lia | assumption | apply wrap64_range].
      unfold specLines. rewrite (lineRuns_newline _ _ false E).
      unfold int_add. rewrite wrap64_add_l. do 2 f_equal. lia.
    + rewrite (IndexByte_take_None _ _ _ E).
      rewrite (linesFit_no_newline _ _ _ E) in Hfit. simpl in Hfit. rewrite Hfit.
      unfold specLines. rewrite (lineRuns_no_newline _ _ E). simpl.
      destruct data as [|x data].
      * simpl. rewrite Z.add_0_r, wrap64_small by assumption. reflexivity.
      * rewrite scanLoop_eq. unfold bufio.Scan. simpl. reflexivity.
Qed.

(** A first line of MaxScanTokenSize bytes or more stops the scanner at
    once, with ErrTooLong. *)
Lemma scanLoop_too_long data e n :
  bufio.IndexByte (take bufio.MaxScanTokenSize data) bufio.newline = None ->
  (bufio.MaxScanTokenSize <= length data)%nat ->
  scanLoop {| bufio.unread := data; bufio.readerErr := e |} n = (n, Some ErrTooLong).
Proof.
  intros Hidx Hlen. rewrite scanLoop_eq. unfold bufio.Scan.
  cbn [bufio.unread bufio.readerErr]. rewrite Hidx.
  destruct (length data <? bufio.MaxScanTokenSize)%nat eqn:E; [|reflexivity].
  apply Nat.ltb_lt in E. lia.
Qed.

(** ** The walk of the program *)

Import filepath.

(** Induction on trees, with the property on every entry of a directory. *)
Lemma node_rect' (P : node -> Prop)
    (HNoStat : forall name err, P (NoStat name err))
    (HFile : forall name kind, P (File name kind))
    (HDir : forall name readErr entries, Forall P entries -> P (Dir name readErr entries)) :
  forall n, P n.
Proof.
  fix IH 1. intros [name err|name kind|name readErr entries].
  - apply HNoStat.
  - apply HFile.
  - apply HDir. induction entries as [|entry entries IHentries]; constructor.
    + apply IH.
    + exact IHentries.
Qed.

Lemma append_cons x (a b : string) : String x a +:+ b = String x (a +:+ b).
Proof. reflexivity. Qed.

Lemma append_assoc (a b c : string) : (a +:+ b) +:+ c = a +:+ (b +:+ c).
Proof.
  induction a as [|x a IH]; [reflexivity|].
  rewrite !append_cons, IH. reflexivity.
Qed.

(** A path at or below root. *)
Definition under (root p : string) : Prop :=
  p = root \/ exists rel, p = Join root rel.

Lemma under_Join root p name : under root p -> under root (Join p name).
Proof.
  intros [->|[rel ->]]; right.
  - exists name. reflexivity.
  - exists (Join rel name). unfold Join. rewrite !append_assoc. reflexivity.
Qed.

(** The function sends at most the path it is called with. *)
Lemma walkFn_sends skip pats p v :
  Forall (fun task => path task = p) (fst (walkFn skip pats p v)).
Proof.
  unfold walkFn. destruct v as [err|info [err|]]; simpl; try constructor.
  repeat (match goal with |- context [if ?b then _ else _] => destruct b end;
          simpl; try constructor).
  destruct (languageExtMap !! _); simpl; repeat constructor.
Qed.

Section WalkFacts.
Context {A : Type} (fn : WalkFunc A) (sentPath : A -> string).
Hypothesis fn_sends : forall p v, Forall (fun a => sentPath a = p) (fst (fn p v)).

Lemma walk_under root : forall n p,
  under root p -> Forall (fun a => under root (sentPath a)) (fst (walk fn p n)).
Proof.
  induction n as [name err|name kind|name readErr entries IH] using node_rect';
    intros p Hp.
  - simpl. eapply Forall_impl; [apply fn_sends|]. intros a ->. exact Hp.
  - simpl. eapply Forall_impl; [apply fn_sends|]. intros a ->. exact Hp.
  - destruct readErr as [e|].
    + simpl. eapply Forall_impl; [apply fn_sends|]. intros a ->. exact Hp.
    + rewrite walk_Dir.
      pose proof (fn_sends p (Found {| Name := name; Mode := ModeDir |} None)) as Hs.
      destruct (fn p _) as [sent [e|]]; simpl in *.
      * eapply Forall_impl; [exact Hs|]. intros a ->. exact Hp.
      * assert (Hnames : Forall (fun a => under root (sentPath a)) (fst (walkNames fn p entries))).
        { clear Hs. induction IH as [|entry entries Hentry _ IHentries]; simpl; [constructor|].
          specialize (Hentry (Join p (nodeName entry)) (under_Join _ _ _ Hp)).
          destruct (walk fn (Join p (nodeName entry)) entry) as [sent1 err].
          destruct (stopsLoop entry err); [exact Hentry|].
          destruct (walkNames fn p entries) as [sent2 err']. simpl in *.
          apply Forall_app; split; assumption. }
        destruct (walkNames fn p entries) as [sent' err]. simpl in *.
        apply Forall_app; split; [|assumption].
        eapply Forall_impl; [exact Hs|]. intros a ->. exact Hp.
Qed.

Lemma Walk_under root n :
  Forall (fun a => under root (sentPath a)) (fst (Walk fn root n)).
Proof.
  unfold Walk. pose proof (walk_under root n root (or_introl eq_refl)) as H.
  destruct (walk fn root n) as [sent [[]|]]; exact H.
Qed.
End WalkFacts.

(** *** What the walk sends *)

Definition skipped (skip : bool) (name : string) : bool :=
  skip && String.eqb name "node_modules".

(** The task of a file, if it has one: not excluded, and of a known
    extension. *)
Definition taskFor (pats : list string) (p : string) : list FileResult :=
  if excluded pats p then []
  else match languageExtMap !! gostrings.ToLower (Ext p) with
       | Some language => [{| path := p; language := language |}]
       | None => []
       end.

(** The paths of the entries of the tree that are not directories, in
    the order of the walk; with [skip], none below a directory named
    node_modules. *)
Fixpoint filesUnder (skip : bool) (p : string) (n : node) : list string :=
  match n with
  | NoStat _ _ => []
  | File _ _ => [p]
  | Dir name _ entries =>
    if skipped skip name then []
    else flat_map (fun entry => filesUnder skip (Join p (nodeName entry)) entry) entries
  end.

(** No entry that the walk reaches fails. *)
Fixpoint clean (skip : bool) (n : node) : bool :=
  match n with
  | NoStat _ _ => false
  | File _ _ => true
  | Dir _ (Some _) _ => false
  | Dir name None entries => skipped skip name || forallb (clean skip) entries
  end.

(** The error of the first entry that fails, in the order of the walk. *)
Fixpoint firstError (skip : bool) (n : node) : option error :=
  match n with
  | NoStat _ err => Some err
  | File _ _ => None
  | Dir _ (Some err) _ => Some err
  | Dir name None entries =>
    if skipped skip name then None
    else
      (fix first (entries : list node) : option error :=
         match entries with
         | [] => None
         | entry :: entries' =>
           match firstError skip entry with
           | Some err => Some err
           | None => first entries'
           end
         end) entries
  end.

(** The operating system's errors are none of Walk's sentinels. *)
Fixpoint osErrors (n : node) : bool :=
  let isOS (e : error) := match e with OSError _ => true | _ => false end in
  match n with
  | NoStat _ err => isOS err
  | File _ _ => true
  | Dir _ readErr entries =>
    match readErr with Some err => isOS err | None => true end && forallb osErrors entries
  end.

Lemma walkFn_Dir skip pats p name :
  walkFn skip pats p (Found {| Name := name; Mode := ModeDir |} None) =
  ([], if skipped skip name then Some SkipDir else None).
Proof.
  unfold walkFn, skipped, IsDir. simpl.
  destruct skip; simpl; [|reflexivity].
  destruct (String.eqb name "node_modules"); reflexivity.
Qed.

Lemma walkFn_File skip pats p name kind :
  walkFn skip pats p (Found {| Name := name; Mode := kindMode kind |} None) =
  (taskFor pats p, None).
Proof.
  unfold walkFn, taskFor, IsDir. simpl.
  replace (match kindMode kind with ModeDir => true | _ => false end) with false
    by (destruct kind; reflexivity).
  rewrite andb_false_r. simpl.
  destruct (excluded pats p); [reflexivity|].
  destruct (languageExtMap !! _); reflexivity.
Qed.

(** The result of walk on a tree without failing entries: SkipDir for a
    skipped directory, else nil. *)
Definition walkResult (skip : bool) (n : node) : option error :=
  match n with
  | Dir name None _ => if skipped skip name then Some SkipDir else None
  | _ => None
  end.

Lemma stopsLoop_walkResult skip n : stopsLoop n (walkResult skip n) = false.
Proof.
  destruct n as [| |name [e|] entries]; simpl; try reflexivity.
  destruct (skipped skip name); reflexivity.
Qed.

Lemma walk_clean skip pats : forall n p,
  clean skip n = true ->
  walk (walkFn skip pats) p n =
  (flat_map (taskFor pats) (filesUnder skip p n), walkResult skip n).
Proof.
  induction n as [name err|name kind|name readErr entries IH] using node_rect';
    intros p Hclean; simpl in Hclean; try discriminate.
  - cbn [walk]. rewrite walkFn_File. simpl. rewrite app_nil_r. reflexivity.
  - destruct readErr as [e|]; [discriminate|].
    rewrite walk_Dir, walkFn_Dir. cbn [filesUnder walkResult].
    destruct (skipped skip name) eqn:Hskip; [reflexivity|].
    simpl in Hclean.
    assert (Hnames : walkNames (walkFn skip pats) p entries =
                     (flat_map (taskFor pats)
                        (flat_map (fun entry => filesUnder skip (Join p (nodeName entry)) entry)
                                  entries), None)).
    { clear Hskip. induction IH as [|entry entries Hentry _ IHentries]; [reflexivity|].
      simpl in Hclean. apply andb_prop in Hclean. destruct Hclean as [Hc1 Hc2].
      cbn [walkNames]. rewrite (Hentry _ Hc1), stopsLoop_walkResult, (IHentries Hc2).
      cbn [flat_map]. rewrite flat_map_app. reflexivity. }
    rewrite Hnames. reflexivity.
Qed.

Definition isOSError (e : error) : bool :=
  match e with OSError _ => true | _ => false end.

Lemma firstError_Dir skip name entries :
  firstError skip (Dir name None entries) =
  if skipped skip name then None
  else foldr (fun entry rest => match firstError skip entry with
                                | Some err => Some err
                                | None => rest
                                end) None entries.
Proof.
  cbn [firstError]. destruct (skipped skip name); [reflexivity|].
  induction entries as [|entry entries IH]; [reflexivity|].
  simpl. rewrite IH. reflexivity.
Qed.

Lemma firstError_os skip : forall n err,
  osErrors n = true -> firstError skip n = Some err -> isOSError err = true.
Proof.
  induction n as [name e|name kind|name readErr entries IH] using node_rect';
    intros err Hos.
  - simpl in *. intros [= <-]. destruct e; try discriminate; reflexivity.
  - discriminate.
  - simpl in Hos. apply andb_prop in Hos. destruct Hos as [Hread Hentries].
    destruct readErr as [e|].
    + simpl. intros [= <-]. destruct e; try discriminate; reflexivity.
    + rewrite firstError_Dir. destruct (skipped skip name); [discriminate|].
      clear Hread. induction IH as [|entry entries Hentry _ IHentries]; [discriminate|].
      simpl in Hentries. apply andb_prop in Hentries. destruct Hentries as [H1 H2].
      simpl. destruct (firstError skip entry) as [e|] eqn:E.
      * intros [= <-]. apply (Hentry e H1 eq_refl).
      * apply IHentries. exact H2.
Qed.

Lemma stopsLoop_os n err : isOSError err = true -> stopsLoop n (Some err) = true.
Proof.
  destruct err; try discriminate. intros _.
  destruct n; reflexivity.
Qed.

(** What walk returns: the first error met, else nil (SkipDir from a
    skipped directory). *)
Lemma walk_result skip pats : forall n p,
  osErrors n = true ->
  snd (walk (walkFn skip pats) p n) =
  match firstError skip n with
  | Some err => Some err
  | None => walkResult skip n
  end.
Proof.
  induction n as [name e|name kind|name readErr entries IH] using node_rect';
    intros p Hos.
  - reflexivity.
  - cbn [walk]. rewrite walkFn_File. reflexivity.
  - simpl in Hos. apply andb_prop in Hos. destruct Hos as [_ Hentries].
    destruct readErr as [e|]; [reflexivity|].
    rewrite walk_Dir, walkFn_Dir, firstError_Dir. cbn [walkResult].
    destruct (skipped skip name); [reflexivity|].
    assert (Hnames : snd (walkNames (walkFn skip pats) p entries) =
                     foldr (fun entry rest => match firstError skip entry with
                                              | Some err => Some err
                                              | None => rest
                                              end) None entries).
    { induction IH as [|entry entries Hentry _ IHentries]; [reflexivity|].
      simpl in Hentries. apply andb_prop in Hentries. destruct Hentries as [H1 H2].
      cbn [walkNames foldr]. specialize (Hentry (Join p (nodeName entry)) H1).
      destruct (walk (walkFn skip pats) (Join p (nodeName entry)) entry) as [sent1 r].
      simpl in Hentry. subst r.
      destruct (firstError skip entry) as [e|] eqn:E.
      - rewrite stopsLoop_os by (eapply firstError_os; eassumption). reflexivity.
      - rewrite stopsLoop_walkResult. rewrite <- (IHentries H2).
        destruct (walkNames (walkFn skip pats) p entries). reflexivity. }
    destruct (walkNames (walkFn skip pats) p entries) as [sent' r]. simpl in *.
    subst r. destruct (foldr _ None entries); reflexivity.
Qed.

Lemma Walk_result skip pats root n :
  osErrors n = true ->
  snd (Walk (walkFn skip pats) root n) = firstError skip n.
Proof.
  intros Hos. unfold Walk. pose proof (walk_result skip pats n root Hos) as H.
  pose proof (firstError_os skip n) as Hfe.
  destruct (walk (walkFn skip pats) root n) as [sent r]. simpl in H. subst r.
  destruct (firstError skip n) as [e|].
  - specialize (Hfe e Hos eq_refl). destruct e; try discriminate; reflexivity.
  - destruct n as [| |name [e|] entries]; simpl; try reflexivity.
    destruct (skipped skip name); reflexivity.
Qed.

(** When the visit of an entry ends the loop over a directory, the
    entries after it are not visited. *)
Lemma walkNames_abort {A : Type} (fn : WalkFunc A) p before entry after :
  stopsLoop entry (snd (walk fn (Join p (nodeName entry)) entry)) = true ->
  walkNames fn p (before ++ entry :: after) = walkNames fn p (before ++ [entry]).
Proof.
  intros Hstop. induction before as [|b before IH]; simpl.
  - destruct (walk fn (Join p (nodeName entry)) entry) as [sent1 err]. simpl in Hstop.
    rewrite Hstop. reflexivity.
  - rewrite IH. reflexivity.
Qed.

(** *** Skipped directories *)

(** The tree with every directory named node_modules emptied. *)
Fixpoint prune (n : node) : node :=
  match n with
  | Dir name readErr entries =>
    if String.eqb name "node_modules" then Dir name readErr []
    else Dir name readErr (map prune entries)
  | _ => n
  end.

Lemma nodeName_prune n : nodeName (prune n) = nodeName n.
Proof. destruct n as [| |name readErr entries]; try reflexivity.
       simpl. destruct (String.eqb name "node_modules"); reflexivity. Qed.

Lemma stopsLoop_prune n err : stopsLoop (prune n) err = stopsLoop n err.
Proof. destruct n as [| |name readErr entries]; try reflexivity.
       simpl. destruct (String.eqb name "node_modules"); reflexivity. Qed.

(** With the skip flag set, the walk does not see what a node_modules
    directory holds. *)
Lemma walk_prune pats : forall n p,
  walk (walkFn true pats) p (prune n) = walk (walkFn true pats) p n.
Proof.
  induction n as [name e|name kind|name readErr entries IH] using node_rect';
    intros p; try reflexivity.
  cbn [prune]. destruct (String.eqb name "node_modules") eqn:Hname.
  - destruct readErr as [e|]; [reflexivity|].
    rewrite !walk_Dir, walkFn_Dir. unfold skipped. rewrite Hname. reflexivity.
  - destruct readErr as [e|]; [reflexivity|].
    rewrite !walk_Dir.
    assert (Hnames : walkNames (walkFn true pats) p (map prune entries) =
                     walkNames (walkFn true pats) p entries).
    { induction IH as [|entry entries Hentry _ IHentries]; [reflexivity|].
      cbn [map walkNames]. rewrite nodeName_prune, Hentry, IHentries.
      destruct (walk (walkFn true pats) (Join p (nodeName entry)) entry) as [sent1 err].
      rewrite stopsLoop_prune. reflexivity. }
    rewrite Hnames. reflexivity.
Qed.

Lemma Walk_prune pats root n :
  Walk (walkFn true pats) root (prune n) = Walk (walkFn true pats) root n.
Proof. unfold Walk. rewrite walk_prune. reflexivity. Qed.

(** ** Paths of directory entries *)

Lemma hasDotOrSeparator_Join d name : hasDotOrSeparator (d +:+ "/" +:+ name) = true.
Proof.
  induction d as [|c d IH]; [reflexivity|].
  rewrite append_cons. cbn [hasDotOrSeparator]. rewrite IH. apply orb_true_r.
Qed.

(** The extension of an entry's path is that of its name. *)
Lemma Ext_Join dir name : Ext (Join dir name) = Ext ("/" +:+ name).
Proof.
  unfold Join. induction dir as [|c d IH]; [reflexivity|].
  rewrite append_cons. cbn [Ext]. rewrite hasDotOrSeparator_Join. exact IH.
Qed.

Lemma ContainsSeparator_Join d name : ContainsSeparator (d +:+ "/" +:+ name) = true.
Proof.
  induction d as [|c d IH]; [reflexivity|].
  rewrite append_cons. cbn [ContainsSeparator]. rewrite IH. apply orb_true_r.
Qed.

Lemma lastElement_plain name : ContainsSeparator name = false -> lastElement name = name.
Proof. destruct name as [|c n]; [reflexivity|]. intros H. cbn [lastElement]. rewrite H. reflexivity. Qed.

Lemma stripTrailingSlashes_plain name :
  ContainsSeparator name = false -> stripTrailingSlashes name = name.
Proof.
  induction name as [|c n IH]; [reflexivity|].
  cbn [ContainsSeparator]. intros H. apply orb_false_elim in H. destruct H as [Hc Hn].
  cbn [stripTrailingSlashes]. rewrite (IH Hn), Hc. reflexivity.
Qed.

Lemma stripTrailingSlashes_app a b :
  is_empty (stripTrailingSlashes b) = false ->
  stripTrailingSlashes (a +:+ b) = a +:+ stripTrailingSlashes b.
Proof.
  intros Hb. induction a as [|c a IH]; [reflexivity|].
  rewrite !append_cons. cbn [stripTrailingSlashes]. rewrite IH.
  destruct (a +:+ stripTrailingSlashes b) eqn:E.
  - destruct a; [|discriminate].
    change (stripTrailingSlashes b = "") in E. rewrite E in Hb. discriminate.
  - simpl. rewrite andb_false_r. reflexivity.
Qed.

(** The base name of an entry's path is its name. *)
Lemma Base_Join dir name :
  ContainsSeparator name = false -> is_empty name = false ->
  Base (Join dir name) = name.
Proof.
  intros Hsep Hne. unfold Base, Join.
  assert (Hpath : is_empty (dir +:+ "/" +:+ name) = false)
    by (destruct dir; reflexivity).
  rewrite Hpath.
  assert (Hs : stripTrailingSlashes (String "/" name) = String "/" name).
  { cbn [stripTrailingSlashes]. rewrite (stripTrailingSlashes_plain _ Hsep), Hne.
    rewrite andb_false_r. reflexivity. }
  assert (Hstrip : stripTrailingSlashes (dir +:+ "/" +:+ name) = dir +:+ "/" +:+ name).
  { change ("/" +:+ name) with (String "/" name).
    rewrite stripTrailingSlashes_app; rewrite Hs; reflexivity. }
  rewrite Hstrip.
  assert (Hlast : lastElement (dir +:+ "/" +:+ name) = name).
  { clear Hpath Hstrip. induction dir as [|c d IH].
    - change ("" +:+ "/" +:+ name) with (String "/" name).
      cbn [lastElement ContainsSeparator]. simpl. apply lastElement_plain, Hsep.
    - rewrite append_cons. cbn [lastElement]. rewrite <- append_cons.
      rewrite (ContainsSeparator_Join (String c d)). exact IH. }
  rewrite Hlast, Hne. reflexivity.
Qed.

(** ** The sum of the file counts *)

Definition sumFileCount (T : gmap string LanguageStats) : Z :=
  map_fold (fun _ e acc => FileCount e + acc) 0 T.

Lemma sumFileCount_insert_fresh (T : gmap string LanguageStats) l e :
  T !! l = None -> sumFileCount (<[l := e]> T) = FileCount e + sumFileCount T.
Proof.
  intros H. unfold sumFileCount.
  rewrite (map_fold_insert_L (fun _ e acc => FileCount e + acc) 0 l e T); [reflexivity| |exact H].
  intros. lia.
Qed.

Lemma sumFileCount_insert (T : gmap string LanguageStats) l e0 e :
  T !! l = Some e0 ->
  sumFileCount (<[l := e]> T) = sumFileCount T - FileCount e0 + FileCount e.
Proof.
  intros H. rewrite <- (insert_delete_eq T l e).
  rewrite <- (insert_delete_id T l e0 H) at 2.
  rewrite !sumFileCount_insert_fresh by apply lookup_delete_eq. lia.
Qed.

Definition countsNonNegative (T : gmap string LanguageStats) : Prop :=
  map_Forall (fun _ e => 0 <= FileCount e) T.

Lemma sumFileCount_nonneg T : countsNonNegative T -> 0 <= sumFileCount T.
Proof.
  unfold countsNonNegative, sumFileCount.
  apply (map_fold_weak_ind (fun r (m : gmap string LanguageStats) =>
                              map_Forall (fun _ e => 0 <= FileCount e) m -> 0 <= r)).
  - intros _. lia.
  - intros l e m r Hl IH Hall.
    pose proof (map_Forall_lookup_1 _ _ l e Hall (lookup_insert_eq _ _ _)) as He.
    simpl in He.
    assert (Hm : map_Forall (fun _ e => 0 <= FileCount e) m).
    { intros k x Hk. apply (Hall k x). rewrite lookup_insert_ne; [exact Hk|].
      intros ->. congruence. }
    specialize (IH Hm). lia.
Qed.

Lemma sumFileCount_bound T l e :
  countsNonNegative T -> T !! l = Some e -> 0 <= FileCount e <= sumFileCount T.
Proof.
  intros Hall Hl.
  pose proof (map_Forall_lookup_1 _ _ l e Hall Hl) as He. simpl in He.
  rewrite <- (insert_delete_id T l e Hl).
  rewrite sumFileCount_insert_fresh by apply lookup_delete_eq.
  pose proof (sumFileCount_nonneg (delete l T) (map_Forall_delete _ _ _ Hall)). lia.
Qed.

(** As long as the counter does not overflow, every counted file adds
    one to the sum of the file counts. *)
Lemma sumFileCount_aggregate rs :
  Z.of_nat (length rs) < 2^63 ->
  sumFileCount (aggregate rs ∅) = Z.of_nat (length rs) /\
  countsNonNegative (aggregate rs ∅).
Proof.
  induction rs as [|r rs IH]; intros Hlen.
  - split; [reflexivity|]. apply map_Forall_empty.
  - simpl length in Hlen. destruct IH as [Hsum Hall]; [lia|].
    cbn [aggregate foldr]. fold (aggregate rs ∅). unfold record.
    destruct (aggregate rs ∅ !! lang r) as [e|] eqn:E; simpl.
    + destruct (sumFileCount_bound _ _ _ Hall E) as [H0 Hle].
      assert (Hfc : int_add (FileCount e) 1 = FileCount e + 1)
        by (unfold int_add; apply wrap64_small; lia).
      split.
      * rewrite (sumFileCount_insert _ _ e) by exact E. simpl. rewrite Hfc, Hsum. lia.
      * apply map_Forall_insert_2; [simpl; lia|exact Hall].
    + split.
      * rewrite sumFileCount_insert_fresh by exact E. simpl. rewrite Hsum.
        change (int_add 0 1) with 1. lia.
      * apply map_Forall_insert_2; [simpl; unfold int_add; vm_compute; discriminate|exact Hall].
Qed.

(** The tasks that processFile does not return early from. *)
Definition opensAndStats (fs : FileSystem) (p : string) : bool :=
  match fs p with
  | inr file => match Stat file with inr _ => true | inl _ => false end
  | inl _ => false
  end.

Lemma measure_opensAndStats fs p :
  opensAndStats fs p = true <-> is_Some (measure fs p).
Proof.
  unfold opensAndStats, measure. destruct (fs p) as [e|file].
  - split; [discriminate|]. intros [x Hx]; discriminate.
  - destruct (Stat file) as [e|size].
    + split; [discriminate|]. intros [x Hx]; discriminate.
    + destruct (scanLoop _ 0). split; eauto.
Qed.

Lemma countedAll_length fs tasks :
  length (countedAll fs tasks) =
  length (filter (fun task => opensAndStats fs (path task) = true) tasks).
Proof.
  induction tasks as [|task tasks IH]; [reflexivity|].
  unfold countedAll in *. cbn [flat_map]. rewrite length_app, IH, filter_cons.
  unfold counted. pose proof (measure_opensAndStats fs (path task)) as Hm.
  destruct (measure fs (path task)) as [[lc sz]|].
  - rewrite decide_True by (apply Hm; eauto). reflexivity.
  - rewrite decide_False; [reflexivity|].
    intros H. apply Hm in H. destruct H; discriminate.
Qed.

(** ** main *)

(** What main writes to standard output, and how it ends when it calls
    os.Exit.  The report stands for the table main prints after
    wg.Wait(): one row per language of the map, then the totals. *)
Inductive output (Table : Type) : Type :=
| PrintDirError (err : error)    (* "Error getting home directory" / "... current directory" *)
| PrintWalkError (err : error)   (* "Error walking directory" *)
| PrintReport (table : Table)
| Exit (code : Z).
Arguments PrintDirError {Table} err.
Arguments PrintWalkError {Table} err.
Arguments PrintReport {Table} table.
Arguments Exit {Table} code.

(** The command line: the flags of the latest version; main.go has the
    first only (there [skipNodeModules] is false). *)
Record Flags : Type := {
  exclude : string;
  sort : string;
  skipNodeModules : bool
}.

(** What main finds around it. *)
Record Env : Type := {
  UserHomeDir : error + string;   (* os.UserHomeDir() *)
  tree : string -> filepath.node; (* the file tree at a path, as Walk meets it *)
  files : FileSystem;
  NumCPU : nat                    (* runtime.NumCPU() *)
}.

(** [filepath.Join(homeDir, "Desktop")], with the Clean it ends with. *)
Definition desktopPath (homeDir : string) : string := filepath.join [homeDir; "Desktop"].

(** The walk of the file-discovery goroutine. *)
Definition discover (flags : Flags) (env : Env) (root : string)
  : list FileResult * option error :=
  filepath.Walk (walkFn (skipNodeModules flags) (excludePatternsOf (exclude flags)))
                root (tree env root).

Definition walkErrorOutput (err : option error) : list (output (gmap string LanguageStats)) :=
  match err with
  | Some e => [PrintWalkError e]
  | None => []
  end.

(** The runs of main: the goroutines interleave, so there are many. *)
Inductive mainRuns (flags : Flags) (env : Env)
  : list (output (gmap string LanguageStats)) -> Prop :=
| main_no_home err :
    UserHomeDir env = inl err ->
    mainRuns flags env [PrintDirError err; Exit 1]
| main_scan homeDir tasks walkErr st :
    UserHomeDir env = inr homeDir ->
    discover flags env (desktopPath homeDir) = (tasks, walkErr) ->
    reachable (files env) (NumCPU env) tasks st ->
    drained st ->
    mainRuns flags env (walkErrorOutput walkErr ++ [PrintReport (stats st)]).

(** The report of [main.go] (lines 115-140): the keys of the table, in
    an order that Go leaves open, are sorted with [sort.Strings], and a
    row is printed for each with [stat := stats[lang]]. *)
Definition languagesOf (stats : gmap string LanguageStats) (languages : list string) : Prop :=
  languages ≡ₚ (map_to_list stats).*1.

Definition rowsOf (stats : gmap string LanguageStats) (languages : list string)
  : list (string * option LanguageStats) :=
  map (fun lang => (lang, stats !! lang)) languages.

(** * The first version: one goroutine per file *)

Module V0.

Record LanguageStas : Type := {
  FileCount : Z;   (* int *)
  LineCount : Z;   (* int *)
  mutex : bool     (* sync.Mutex: locked *)
}.

(** The exclude flag: split at commas, each pattern trimmed. *)
Definition excludePatternsOf (exclude : string) : list string :=
  if is_empty exclude then []
  else map gostrings.TrimSpace (gostrings.Split exclude ",").

(** The loop over the exclude patterns: a pattern the matcher rejects is
    reported and passed over. *)
Fixpoint excluded (excludePatterns : list string) (path : string) : bool :=
  match excludePatterns with
  | [] => false
  | pattern :: patterns =>
    let '(matched, err) := filepath.Match pattern (filepath.Base path) in
    match err with
    | Some _ => excluded patterns path
    | None => if matched then true else excluded patterns path
    end
  end.

(** The function handed to filepath.Walk; what it sends is the goroutine
    it starts, as the arguments (filePath, language). *)
Definition walkFn (excludePatterns : list string) : filepath.WalkFunc FileResult :=
  fun path v =>
    match v with
    | filepath.Failed err => ([], Some err)
    | filepath.Found info (Some err) => ([], Some err)
    | filepath.Found info None =>
      if filepath.IsDir info then ([], None)
      else if excluded excludePatterns path then ([], None)
      else
        let ext := gostrings.ToLower (filepath.Ext path) in
        match languageExtMap !! ext with
        | Some lang => ([{| path := path; language := lang |}], None)
        | None => ([], None)
        end
    end.

Definition countLines (fs : FileSystem) (filePath : string) : Z * option error :=
  match fs filePath with
  | inl err => (0, Some err)
  | inr file => scanLoop (bufio.NewScanner file) 0
  end.

(** What a counted file adds. *)
Record Counted : Type := { lang : string; lines : Z }.

Definition zeroStas : LanguageStas := {| FileCount := 0; LineCount := 0; mutex := false |}.

(** Lines 96-98 *)
Definition ensureEntry (language : string) (stats : gmap string LanguageStas)
  : gmap string LanguageStas :=
  match stats !! language with
  | Some _ => stats
  | None => <[language := zeroStas]> stats
  end.

(** A statement on [stats[language]] ends in the next table, waits, or
    panics (nil pointer; unlock of an unlocked mutex). *)
Inductive outcome : Type :=
| Next (stats : gmap string LanguageStas)
| Blocked
| Panic.

(** Line 99: [stats[language].mutex.Lock()] *)
Definition lockEntry (language : string) (stats : gmap string LanguageStas) : outcome :=
  match stats !! language with
  | Some e =>
    if mutex e then Blocked
    else Next (<[language := {| FileCount := FileCount e; LineCount := LineCount e;
                                mutex := true |}]> stats)
  | None => Panic
  end.

(** Line 100: [stats[language].FileCount++] *)
Definition incFileCount (language : string) (stats : gmap string LanguageStas) : outcome :=
  match stats !! language with
  | Some e => Next (<[language := {| FileCount := int_add (FileCount e) 1;
                                     LineCount := LineCount e; mutex := mutex e |}]> stats)
  | None => Panic
  end.

(** Line 101: [stats[language].LineCount += lineCount] *)
Definition addLineCount (lineCount : Z) (language : string)
    (stats : gmap string LanguageStas) : outcome :=
  match stats !! language with
  | Some e => Next (<[language := {| FileCount := FileCount e;
                                     LineCount := int_add (LineCount e) lineCount;
                                     mutex := mutex e |}]> stats)
  | None => Panic
  end.

(** Line 102: [stats[language].mutex.Unlock()] *)
Definition unlockEntry (language : string) (stats : gmap string LanguageStas) : outcome :=
  match stats !! language with
  | Some e =>
    if mutex e
    then Next (<[language := {| FileCount := FileCount e; LineCount := LineCount e;
                                mutex := false |}]> stats)
    else Panic
  | None => Panic
  end.

(** Where a goroutine stands in lines 95-103. *)
Inductive pc : Type := L95 | L96 | L99 | L100 | L101 | L102 | L103.

Inductive goroutine : Type :=
| Counting (task : FileResult)       (* line 89: countLines *)
| Recording (at_ : pc) (r : Counted) (* lines 95-103 *)
| Returned.                          (* wg.Done() *)

Record program : Type := Program {
  toLaunch : list FileResult;   (* the goroutines the walk has yet to start *)
  goroutines : list goroutine;
  stats : gmap string LanguageStas;
  statsMutex : bool;
  panicked : bool
}.

Definition inLocked (at_ : pc) : bool :=
  match at_ with L96 | L99 | L100 | L101 | L102 => true | L95 | L103 => false end.

Definition next (at_ : pc) : pc :=
  match at_ with
  | L95 => L96 | L96 => L99 | L99 => L100 | L100 => L101
  | L101 => L102 | L102 => L103 | L103 => L103
  end.

(** One statement of lines 96-102. *)
Definition lockedStep (at_ : pc) (r : Counted) (stats : gmap string LanguageStas) : outcome :=
  match at_ with
  | L96 => Next (ensureEntry (lang r) stats)
  | L99 => lockEntry (lang r) stats
  | L100 => incFileCount (lang r) stats
  | L101 => addLineCount (lines r) (lang r) stats
  | L102 => unlockEntry (lang r) stats
  | L95 | L103 => Next stats
  end.

Section Goroutines.
Variable fs : FileSystem.

(** Lines 89-93: the goroutine returns when countLines fails. *)
Definition afterCount (task : FileResult) : goroutine :=
  match countLines fs (path task) with
  | (lineCount, None) => Recording L95 {| lang := language task; lines := lineCount |}
  | (_, Some _) => Returned
  end.

Inductive step : program -> program -> Prop :=
| step_launch task ts gs T m :
    step (Program (task :: ts) gs T m false)
         (Program ts (gs ++ [Counting task]) T m false)
| step_count ts gs1 task gs2 T m :
    step (Program ts (gs1 ++ Counting task :: gs2) T m false)
         (Program ts (gs1 ++ afterCount task :: gs2) T m false)
| step_lock ts gs1 r gs2 T :
    step (Program ts (gs1 ++ Recording L95 r :: gs2) T false false)
         (Program ts (gs1 ++ Recording L96 r :: gs2) T true false)
| step_locked ts gs1 at_ r gs2 T m T' :
    inLocked at_ = true ->
    lockedStep at_ r T = Next T' ->
    step (Program ts (gs1 ++ Recording at_ r :: gs2) T m false)
         (Program ts (gs1 ++ Recording (next at_) r :: gs2) T' m false)
| step_panic ts gs1 at_ r gs2 T m :
    inLocked at_ = true ->
    lockedStep at_ r T = Panic ->
    step (Program ts (gs1 ++ Recording at_ r :: gs2) T m false)
         (Program ts (gs1 ++ Recording at_ r :: gs2) T m true)
| step_unlock ts gs1 r gs2 T m :
    step (Program ts (gs1 ++ Recording L103 r :: gs2) T m false)
         (Program ts (gs1 ++ Returned :: gs2) T false false).

Definition start (tasks : list FileResult) : program :=
  Program tasks [] ∅ false false.

Definition reachable (tasks : list FileResult) (st : program) : Prop :=
  rtc step (start tasks) st.

(** The walk is over and wg.Wait() returns. *)
Definition drained (st : program) : Prop :=
  toLaunch st = [] /\ Forall (fun g => g = Returned) (goroutines st).

(** *** The locked region in one piece *)

Definition bump (r : Counted) (e : LanguageStas) : LanguageStas :=
  {| FileCount := int_add (FileCount e) 1;
     LineCount := int_add (LineCount e) (lines r);
     mutex := false |}.

Definition record (r : Counted) (T : gmap string LanguageStas) : gmap string LanguageStas :=
  <[lang r := bump r (default zeroStas (T !! lang r))]> T.

Definition aggregate (rs : list Counted) (T : gmap string LanguageStas)
  : gmap string LanguageStas := foldr record T rs.

Definition counted (task : FileResult) : list Counted :=
  match countLines fs (path task) with
  | (lineCount, None) => [{| lang := language task; lines := lineCount |}]
  | (_, Some _) => []
  end.

Definition countedAll (tasks : list FileResult) : list Counted := flat_map counted tasks.

Definition andThen (o : outcome) (f : gmap string LanguageStas -> outcome) : outcome :=
  match o with
  | Next T => f T
  | Blocked => Blocked
  | Panic => Panic
  end.

(** The rest of the locked region, from where the goroutine stands. *)
Definition finish (g : goroutine) (T : gmap string LanguageStas) : outcome :=
  match g with
  | Recording L96 r =>
    andThen (lockEntry (lang r) (ensureEntry (lang r) T)) (fun T =>
    andThen (incFileCount (lang r) T) (fun T =>
    andThen (addLineCount (lines r) (lang r) T) (unlockEntry (lang r))))
  | Recording L99 r =>
    andThen (lockEntry (lang r) T) (fun T =>
    andThen (incFileCount (lang r) T) (fun T =>
    andThen (addLineCount (lines r) (lang r) T) (unlockEntry (lang r))))
  | Recording L100 r =>
    andThen (incFileCount (lang r) T) (fun T =>
    andThen (addLineCount (lines r) (lang r) T) (unlockEntry (lang r)))
  | Recording L101 r =>
    andThen (addLineCount (lines r) (lang r) T) (unlockEntry (lang r))
  | Recording L102 r => unlockEntry (lang r) T
  | _ => Next T
  end.

Definition holdsMutex (g : goroutine) : bool :=
  match g with
  | Recording L95 _ => false
  | Recording _ _ => true
  | _ => false
  end.

Definition holders (gs : list goroutine) : nat :=
  length (filter (fun g => holdsMutex g = true) gs).

Definition settled (gs : list goroutine) (T : gmap string LanguageStas) : outcome :=
  foldr (fun g acc => andThen acc (finish g)) (Next T) gs.

Definition owed (g : goroutine) : list Counted :=
  match g with
  | Counting task => counted task
  | Recording L95 r => [r]
  | _ => []
  end.

Definition pending (st : program) : list Counted :=
  flat_map owed (goroutines st) ++ countedAll (toLaunch st).

Definition invariant (tasks : list FileResult) (st : program) : Prop :=
  panicked st = false /\
  holders (goroutines st) = (if statsMutex st then 1 else 0)%nat /\
  (exists done, settled (goroutines st) (stats st) = Next (aggregate done ∅) /\
                done ++ pending st ≡ₚ countedAll tasks).
End Goroutines.

Section GoroutineProofs.
Variable fs : FileSystem.

Definition unlockedAll (T : gmap string LanguageStas) : Prop :=
  map_Forall (fun _ e => mutex e = false) T.

Lemma recordFile_record_V0 r T :
  unlockedAll T -> finish (Recording L96 r) T = Next (record r T).
Proof.
  intros Hall. unfold finish, record, ensureEntry, lockEntry, incFileCount,
    addLineCount, unlockEntry.
  destruct (T !! lang r) as [e|] eqn:E; simpl.
  - rewrite E. rewrite (Hall _ _ E). simpl.
    rewrite lookup_insert_eq. simpl. rewrite lookup_insert_eq. simpl.
    rewrite lookup_insert_eq. simpl. rewrite !insert_insert_eq. reflexivity.
  - rewrite lookup_insert_eq. simpl. rewrite lookup_insert_eq. simpl.
    rewrite lookup_insert_eq. simpl. rewrite lookup_insert_eq. simpl.
    rewrite !insert_insert_eq. reflexivity.
Qed.

Lemma bump_comm_V0 r1 r2 e : bump r1 (bump r2 e) = bump r2 (bump r1 e).
Proof. unfold bump; simpl. f_equal; apply int_add_swap. Qed.

Lemma record_comm_V0 r1 r2 T : record r1 (record r2 T) = record r2 (record r1 T).
Proof.
  unfold record. destruct (decide (lang r1 = lang r2)) as [E|N].
  - rewrite E, !lookup_insert_eq, !insert_insert_eq. simpl. rewrite bump_comm_V0. reflexivity.
  - rewrite (lookup_insert_ne _ (lang r2) (lang r1)) by congruence.
    rewrite (lookup_insert_ne _ (lang r1) (lang r2)) by congruence.
    apply insert_insert_ne. congruence.
Qed.

Lemma aggregate_perm_V0 rs1 rs2 T : rs1 ≡ₚ rs2 -> aggregate rs1 T = aggregate rs2 T.
Proof.
  induction 1 as [|r rs1 rs2 _ IH|r1 r2 rs|rs1 rs2 rs3 _ IH1 _ IH2]; simpl.
  - reflexivity.
  - rewrite IH; reflexivity.
  - apply record_comm_V0.
  - congruence.
Qed.

Lemma aggregate_unlocked rs : unlockedAll (aggregate rs ∅).
Proof.
  induction rs as [|r rs IH]; [apply map_Forall_empty|].
  simpl. unfold record. apply map_Forall_insert_2; [reflexivity|exact IH].
Qed.

Lemma holders_app_V0 gs1 gs2 : holders (gs1 ++ gs2) = (holders gs1 + holders gs2)%nat.
Proof. unfold holders. rewrite filter_app, length_app. reflexivity. Qed.

Lemma holders_cons_V0 g gs :
  holders (g :: gs) = ((if holdsMutex g then 1 else 0) + holders gs)%nat.
Proof.
  unfold holders. rewrite filter_cons.
  destruct (decide (holdsMutex g = true)) as [E|E].
  - rewrite E. reflexivity.
  - destruct (holdsMutex g); [congruence|reflexivity].
Qed.

Lemma holders_middle_V0 gs1 g gs2 :
  holders (gs1 ++ g :: gs2) =
  (holders gs1 + (if holdsMutex g then 1 else 0) + holders gs2)%nat.
Proof. rewrite holders_app_V0, holders_cons_V0. lia. Qed.

Lemma settled_quiet_V0 gs X :
  holders gs = 0%nat -> foldr (fun g acc => andThen acc (finish g)) X gs = X.
Proof.
  induction gs as [|g gs IH]; [reflexivity|].
  rewrite holders_cons_V0. intros H. simpl. rewrite IH by lia.
  destruct X as [T| |]; try reflexivity.
  destruct g as [|[] r|]; simpl in *; try reflexivity; lia.
Qed.

Lemma settled_middle_V0 gs1 g gs2 T :
  holders gs1 = 0%nat -> holders gs2 = 0%nat ->
  settled (gs1 ++ g :: gs2) T = finish g T.
Proof.
  intros H1 H2. unfold settled. rewrite foldr_app. simpl.
  rewrite (settled_quiet_V0 gs2) by assumption.
  apply settled_quiet_V0; assumption.
Qed.

Lemma settled_idle_V0 gs T : holders gs = 0%nat -> settled gs T = Next T.
Proof. apply settled_quiet_V0. Qed.

Lemma settled_swap_V0 gs1 g g' gs2 T :
  (forall T', finish g T' = finish g' T') ->
  settled (gs1 ++ g :: gs2) T = settled (gs1 ++ g' :: gs2) T.
Proof.
  intros H. unfold settled. rewrite !foldr_app. simpl.
  destruct (foldr _ (Next T) gs2); simpl; [rewrite H|..]; reflexivity.
Qed.

Lemma owed_middle_V0 gs1 g gs2 :
  flat_map (owed fs) (gs1 ++ g :: gs2) ≡ₚ owed fs g ++ flat_map (owed fs) (gs1 ++ gs2).
Proof.
  rewrite !flat_map_app. simpl.
  rewrite !(assoc app). apply Permutation_app_tail. apply Permutation_app_comm.
Qed.

Lemma finish_afterCount task T : finish (afterCount fs task) T = Next T.
Proof. unfold afterCount. destruct (countLines fs (path task)) as [? [?|]]; reflexivity. Qed.

Lemma holdsMutex_afterCount task : holdsMutex (afterCount fs task) = false.
Proof. unfold afterCount. destruct (countLines fs (path task)) as [? [?|]]; reflexivity. Qed.

Lemma owed_afterCount task : owed fs (afterCount fs task) = counted fs task.
Proof.
  unfold afterCount, counted.
  destruct (countLines fs (path task)) as [? [?|]]; reflexivity.
Qed.

Lemma inLocked_holds_V0 at_ r : inLocked at_ = true -> holdsMutex (Recording at_ r) = true.
Proof. destruct at_; simpl; congruence. Qed.

Lemma lockedStep_finish_V0 at_ r T T' :
  inLocked at_ = true ->
  lockedStep at_ r T = Next T' ->
  holdsMutex (Recording (next at_) r) = true /\
  finish (Recording (next at_) r) T' = finish (Recording at_ r) T.
Proof.
  destruct at_; try discriminate; intros _; simpl; intros H;
    (split; [reflexivity|]); try (rewrite H; reflexivity).
  injection H as <-. reflexivity.
Qed.

Lemma lockedStep_safe_V0 at_ r T T1 :
  inLocked at_ = true -> finish (Recording at_ r) T = Next T1 ->
  lockedStep at_ r T <> Panic.
Proof.
  destruct at_; try discriminate; intros _; simpl; try discriminate;
    intros H E; rewrite E in H; discriminate.
Qed.

Lemma invariant_start_V0 tasks : invariant fs tasks (start tasks).
Proof.
  unfold invariant, start; simpl. split; [reflexivity|]. split; [reflexivity|].
  exists []. split; reflexivity.
Qed.

Lemma invariant_step_V0 tasks st st' :
  invariant fs tasks st -> step fs st st' -> invariant fs tasks st'.
Proof.
  intros (Hp & Hh & (done & Hs & Ha)) Hstep.
  unfold invariant, pending in *.
  destruct Hstep; simpl in *.
  - (* launch *)
    split; [reflexivity|]. split.
    { rewrite holders_app_V0. change (holders [Counting task]) with 0%nat. lia. }
    exists done. split.
    + rewrite <- Hs. unfold settled. rewrite foldr_app. reflexivity.
    + rewrite <- Ha. rewrite flat_map_app. simpl. rewrite app_nil_r.
      rewrite <- !(assoc app). reflexivity.
  - (* count *)
    split; [reflexivity|]. split.
    { rewrite holders_middle_V0 in *. rewrite holdsMutex_afterCount. exact Hh. }
    exists done. split.
    + rewrite <- Hs. apply settled_swap_V0. intros T'. apply finish_afterCount.
    + rewrite <- Ha. apply Permutation_app_head.
      rewrite !owed_middle_V0, owed_afterCount. reflexivity.
  - (* lock *)
    rewrite holders_middle_V0 in Hh. simpl in Hh.
    assert (H1 : holders gs1 = 0%nat) by lia.
    assert (H2 : holders gs2 = 0%nat) by lia.
    split; [reflexivity|]. split.
    { rewrite holders_middle_V0. simpl. lia. }
    rewrite settled_middle_V0 in Hs by assumption. simpl in Hs. injection Hs as ->.
    exists (r :: done). split.
    + rewrite settled_middle_V0 by assumption.
      apply recordFile_record_V0, aggregate_unlocked.
    + rewrite <- Ha. rewrite !owed_middle_V0. simpl.
      rewrite <- Permutation_middle. reflexivity.
  - (* a statement under the mutex *)
    pose proof (inLocked_holds_V0 at_ r H) as Hin.
    rewrite holders_middle_V0, Hin in Hh.
    destruct m; [|lia].
    assert (H1 : holders gs1 = 0%nat) by lia.
    assert (H2 : holders gs2 = 0%nat) by lia.
    destruct (lockedStep_finish_V0 _ _ _ _ H H0) as [Hin' Hfin].
    split; [reflexivity|]. split.
    { rewrite holders_middle_V0, Hin'. lia. }
    exists done. split.
    + rewrite settled_middle_V0 in * by assumption. congruence.
    + rewrite <- Ha. apply Permutation_app_head. rewrite !owed_middle_V0.
      destruct at_; try discriminate; reflexivity.
  - (* no panic *)
    exfalso.
    pose proof (inLocked_holds_V0 at_ r H) as Hin.
    rewrite holders_middle_V0, Hin in Hh.
    destruct m; [|lia].
    rewrite settled_middle_V0 in Hs by lia.
    exact (lockedStep_safe_V0 _ _ _ _ H Hs H0).
  - (* unlock *)
    rewrite holders_middle_V0 in Hh. simpl in Hh.
    destruct m; [|lia].
    assert (H1 : holders gs1 = 0%nat) by lia.
    assert (H2 : holders gs2 = 0%nat) by lia.
    split; [reflexivity|]. split.
    { rewrite holders_middle_V0. simpl. lia. }
    exists done. split.
    + rewrite settled_middle_V0 in * by assumption. exact Hs.
    + rewrite <- Ha. apply Permutation_app_head. rewrite !owed_middle_V0. reflexivity.
Qed.

Lemma invariant_reachable_V0 tasks st : reachable fs tasks st -> invariant fs tasks st.
Proof.
  unfold reachable. intros H.
  refine (rtc_ind_r (R := step fs) (invariant fs tasks) _ _ _ _ H).
  - apply invariant_start_V0.
  - intros y z _ Hstep IH. eapply invariant_step_V0; eassumption.
Qed.

(** When every goroutine has returned, the table holds every counted
    file of the walk, and nothing else. *)
Lemma drained_stats_V0 tasks st :
  reachable fs tasks st -> drained st ->
  stats st = aggregate (countedAll fs tasks) ∅.
Proof.
  intros Hreach [Hts Hdr].
  destruct (invariant_reachable_V0 _ _ Hreach) as (Hp & Hh & (done & Hs & Ha)).
  assert (Hq : holders (goroutines st) = 0%nat /\ flat_map (owed fs) (goroutines st) = []).
  { clear -Hdr. induction Hdr as [|g gs Hg _ IH]; [split; reflexivity|].
    subst g. rewrite holders_cons_V0. simpl. exact IH. }
  destruct Hq as [Hq1 Hq2].
  rewrite settled_idle_V0 in Hs by assumption. injection Hs as ->.
  apply aggregate_perm_V0. rewrite <- Ha. unfold pending.
  rewrite Hq2, Hts. simpl. rewrite app_nil_r. reflexivity.
Qed.

(** *** A complete run exists: the goroutines run one after the other *)

Lemma record_unlocked r T : unlockedAll T -> unlockedAll (record r T).
Proof. intros H. unfold record. apply map_Forall_insert_2; [reflexivity|exact H]. Qed.

Lemma run_locked_V0 ts gs1 gs2 at_ r T Tf :
  holdsMutex (Recording at_ r) = true ->
  finish (Recording at_ r) T = Next Tf ->
  rtc (step fs) (Program ts (gs1 ++ Recording at_ r :: gs2) T true false)
                (Program ts (gs1 ++ Recording L103 r :: gs2) Tf true false).
Proof.
  assert (Hgo : forall at_ T T',
             inLocked at_ = true -> lockedStep at_ r T = Next T' ->
             step fs (Program ts (gs1 ++ Recording at_ r :: gs2) T true false)
                     (Program ts (gs1 ++ Recording (next at_) r :: gs2) T' true false))
    by (intros; apply step_locked; assumption).
  assert (Hrun : forall at_ T,
             inLocked at_ = true ->
             (forall T', lockedStep at_ r T = Next T' ->
                         rtc (step fs)
                             (Program ts (gs1 ++ Recording (next at_) r :: gs2) T' true false)
                             (Program ts (gs1 ++ Recording L103 r :: gs2) Tf true false)) ->
             (exists T', lockedStep at_ r T = Next T') ->
             rtc (step fs) (Program ts (gs1 ++ Recording at_ r :: gs2) T true false)
                           (Program ts (gs1 ++ Recording L103 r :: gs2) Tf true false)).
  { intros a T0 Ha Hrest [T' HT']. eapply rtc_l; [apply (Hgo a T0 T' Ha HT')|]. auto. }
  assert (H102 : forall T, finish (Recording L102 r) T = Next Tf ->
             rtc (step fs) (Program ts (gs1 ++ Recording L102 r :: gs2) T true false)
                           (Program ts (gs1 ++ Recording L103 r :: gs2) Tf true false)).
  { intros T0 H. apply Hrun; [reflexivity| |eauto].
    simpl in *. intros T' E. rewrite E in H. injection H as ->. apply rtc_refl. }
  assert (H101 : forall T, finish (Recording L101 r) T = Next Tf ->
             rtc (step fs) (Program ts (gs1 ++ Recording L101 r :: gs2) T true false)
                           (Program ts (gs1 ++ Recording L103 r :: gs2) Tf true false)).
  { intros T0 H. simpl in H.
    destruct (addLineCount (lines r) (lang r) T0) as [T1| |] eqn:E; try discriminate.
    apply Hrun; [reflexivity| |eauto].
    simpl. intros T' E'. rewrite E in E'. injection E' as <-. apply H102. exact H. }
  assert (H100 : forall T, finish (Recording L100 r) T = Next Tf ->
             rtc (step fs) (Program ts (gs1 ++ Recording L100 r :: gs2) T true false)
                           (Program ts (gs1 ++ Recording L103 r :: gs2) Tf true false)).
  { intros T0 H. simpl in H.
    destruct (incFileCount (lang r) T0) as [T1| |] eqn:E; try discriminate.
    apply Hrun; [reflexivity| |eauto].
    simpl. intros T' E'. rewrite E in E'. injection E' as <-. apply H101. exact H. }
  assert (H99 : forall T, finish (Recording L99 r) T = Next Tf ->
             rtc (step fs) (Program ts (gs1 ++ Recording L99 r :: gs2) T true false)
                           (Program ts (gs1 ++ Recording L103 r :: gs2) Tf true false)).
  { intros T0 H. simpl in H.
    destruct (lockEntry (lang r) T0) as [T1| |] eqn:E; try discriminate.
    apply Hrun; [reflexivity| |eauto].
    simpl. intros T' E'. rewrite E in E'. injection E' as <-. apply H100. exact H. }
  intros Hin Hfin. destruct at_; try discriminate Hin; auto.
  - apply Hrun; [reflexivity| |simpl; eauto].
    simpl. intros T' [= <-]. apply H99. exact Hfin.
  - simpl in Hfin. injection Hfin as <-. apply rtc_refl.
Qed.

Lemma run_goroutine ts gs task T :
  unlockedAll T ->
  rtc (step fs) (Program ts (gs ++ [Counting task]) T false false)
                (Program ts (gs ++ [Returned]) (aggregate (counted fs task) T) false false).
Proof.
  intros Hall.
  eapply rtc_l; [apply (step_count fs ts gs task [])|].
  unfold afterCount, counted.
  destruct (countLines fs (path task)) as [lineCount [err|]]; simpl; [apply rtc_refl|].
  set (r := {| lang := language task; lines := lineCount |}).
  eapply rtc_l; [apply (step_lock fs ts gs r [])|].
  eapply rtc_trans.
  - apply (run_locked_V0 ts gs [] L96 r T (record r T)); [reflexivity|].
    apply recordFile_record_V0, Hall.
  - apply rtc_once. apply (step_unlock fs ts gs r []).
Qed.

Lemma run_all tasks : forall gs T,
  unlockedAll T ->
  rtc (step fs) (Program tasks gs T false false)
                (Program [] (gs ++ replicate (length tasks) Returned)
                         (aggregate (rev (countedAll fs tasks)) T) false false).
Proof.
  induction tasks as [|task tasks IH]; intros gs T Hall.
  - simpl. rewrite app_nil_r. apply rtc_refl.
  - eapply rtc_l; [apply step_launch|].
    eapply rtc_trans; [apply run_goroutine, Hall|].
    assert (Hall' : unlockedAll (aggregate (counted fs task) T)).
    { unfold counted. destruct (countLines fs (path task)) as [? [?|]]; simpl;
        [exact Hall|apply record_unlocked, Hall]. }
    eapply rtc_trans; [apply (IH _ _ Hall')|].
    unfold countedAll; simpl.
    assert (Hrev : rev (counted fs task) = counted fs task).
    { unfold counted. destruct (countLines fs (path task)) as [? [?|]]; reflexivity. }
    rewrite rev_app_distr, Hrev. unfold aggregate. rewrite foldr_app.
    rewrite <- (assoc app). apply rtc_refl.
Qed.

(** The table when the goroutines run one after the other, in the
    order of the walk. *)
Definition runSequential (tasks : list FileResult) : gmap string LanguageStas :=
  aggregate (rev (countedAll fs tasks)) ∅.

Definition finalState (tasks : list FileResult) : program :=
  Program [] (replicate (length tasks) Returned) (runSequential tasks) false false.

Lemma run_complete_V0 tasks : reachable fs tasks (finalState tasks).
Proof. apply (run_all tasks [] ∅). apply map_Forall_empty. Qed.

Lemma drained_finalState_V0 tasks : drained (finalState tasks).
Proof.
  split; [reflexivity|]. simpl. apply Forall_forall. intros g Hg.
  apply elem_of_replicate in Hg. tauto.
Qed.
End GoroutineProofs.

(** *** main *)

Record Env : Type := {
  Getwd : error + string;          (* os.Getwd() *)
  tree : string -> filepath.node;  (* the file tree at a path, as Walk meets it *)
  files : FileSystem
}.

(** The walk, in main itself. *)
Definition discover (exclude : string) (env : Env) (startDir : string)
  : list FileResult * option error :=
  filepath.Walk (walkFn (excludePatternsOf exclude)) startDir (tree env startDir).

(** The runs of main.  What the goroutines print when countLines or the
    matcher fails is left out. *)
Inductive mainRuns (exclude : string) (env : Env)
  : list (output (gmap string LanguageStas)) -> Prop :=
| main_no_cwd err :
    Getwd env = inl err ->
    mainRuns exclude env [PrintDirError err; Exit 1]
| main_walk_fails startDir tasks err :
    Getwd env = inr startDir ->
    discover exclude env startDir = (tasks, Some err) ->
    mainRuns exclude env [PrintWalkError err; Exit 1]
| main_report startDir tasks st :
    Getwd env = inr startDir ->
    discover exclude env startDir = (tasks, None) ->
    reachable (files env) tasks st ->
    drained st ->
    mainRuns exclude env [PrintReport (stats st)].

End V0.

(** * The latest version: the sorted report *)

Module V1.

Record SortOption : Type := {
  Field : string;      (* "files", "lines", "size" *)
  Direction : string   (* "asc", "desc" *)
}.

Record LanguageData : Type := {
  Name : string;
  Stats : LanguageStats
}.

(** The body of the function handed to sort.Slice by sortLanguageData,
    on the two elements [data[i]] and [data[j]]. *)
Definition comparison (opt : SortOption) (di dj : LanguageData) : bool :=
  let comparison :=
    if String.eqb (Field opt) "files" then FileCount (Stats di) <? FileCount (Stats dj)
    else if String.eqb (Field opt) "lines" then LineCount (Stats di) <? LineCount (Stats dj)
    else if String.eqb (Field opt) "size" then ByteCount (Stats di) <? ByteCount (Stats dj)
    else (* Default sort by language name *)
      string_less (Name di) (Name dj) in
  (* Reverse for descending order *)
  if String.eqb (Direction opt) "desc" then negb comparison else comparison.

(** The function itself: it reads the slice at the two indices, and
    panics when one is out of range. *)
Definition less (opt : SortOption) (data : list LanguageData) (i j : nat) : option bool :=
  match data !! i, data !! j with
  | Some di, Some dj => Some (comparison opt di dj)
  | _, _ => None
  end.

Definition sortLanguageData (data : list LanguageData) (opt : SortOption)
  : gosort.result LanguageData :=
  gosort.Slice (less opt) data.

(** [for lang, stat := range stats { languageData = append(...) }]: the
    entries of the map, in an order that Go leaves open. *)
Definition languageDataOf (stats : gmap string LanguageStats) (languageData : list LanguageData)
  : Prop :=
  languageData ≡ₚ
  map (fun entry => {| Name := fst entry; Stats := snd entry |}) (map_to_list stats).

(** The totals of the rows, in the order they are printed. *)
Definition totals (languageData : list LanguageData) : Z * Z * Z :=
  foldl (fun '(totalFiles, totalLines, totalSize) data =>
           (int_add totalFiles (FileCount (Stats data)),
            int_add totalLines (LineCount (Stats data)),
            int_add totalSize (ByteCount (Stats data))))
        (0, 0, 0) languageData.


(** Lines 62-72: the sort option of the flag, and whether "Invalid sort
    format. Using default sorting." is printed. *)
Definition sortOptOf (sortFlag : string) : SortOption * bool :=
  let sortOpt := {| Field := EmptyString; Direction := EmptyString |} in
  if is_empty sortFlag then (sortOpt, false)
  else
    match gostrings.Fields sortFlag with
    | [field; direction] =>
      ({| Field := gostrings.ToLower field; Direction := gostrings.ToLower direction |}, false)
    | _ => (sortOpt, true)
    end.

End V1.

(** * Examples *)

Module Examples.

Definition bytesOf (s : string) : list Byte.byte := String.list_byte_of_string s.

Definition textFile (s : string) : OpenFile :=
  {| Stat := inr (Z.of_nat (String.length s)); content := bytesOf s; readErr := None |}.

Definition noSuchFile : error := OSError "no such file or directory".
Definition permissionDenied : error := OSError "permission denied".
Definition isADirectory : error := OSError "is a directory".

(** A Desktop with a Go file of three lines, the last without newline, a
    Python file of two lines, a text file, and a directory that cannot
    be read, whose name sorts between them. *)
Definition desktop : node :=
  Dir "Desktop" None [
    File "a.go" Regular;
    Dir "archive" (Some permissionDenied) [];
    File "b.py" Regular;
    File "c.txt" Regular
  ].

Definition readable : node :=
  Dir "Desktop" None [
    File "a.go" Regular;
    File "b.py" Regular;
    File "c.txt" Regular
  ].

Definition goSource : string :=
  String "p" (String "a" (String "c" (String "k" (String "010"
  (String "f" (String "n" (String "010" (String "}" "")))))))).

Definition disk : FileSystem := fun p =>
  if String.eqb p "/home/u/Desktop/a.go" then inr (textFile goSource)
  else if String.eqb p "/home/u/Desktop/b.py"
       then inr (textFile (String "1" (String "010" (String "2" (String "010" "")))))
  else inl noSuchFile.

Definition env (t : node) : Env :=
  {| UserHomeDir := inr "/home/u"; tree := fun _ => t; files := disk; NumCPU := 4 |}.

Definition noFlags : Flags := {| exclude := ""; sort := ""; skipNodeModules := false |}.

(** The Desktop path is cleaned. *)
Example desktopPath_clean :
  desktopPath "/home/u" = "/home/u/Desktop" /\
  desktopPath "/home/u/" = "/home/u/Desktop" /\
  desktopPath "/" = "/Desktop".
Proof. repeat split. Qed.

Example walk_readable :
  discover noFlags (env readable) "/home/u/Desktop" =
  ([{| path := "/home/u/Desktop/a.go"; language := "Go" |};
    {| path := "/home/u/Desktop/b.py"; language := "Python" |}], None).
Proof. vm_compute. reflexivity. Qed.

Example walk_desktop :
  discover noFlags (env desktop) "/home/u/Desktop" =
  ([{| path := "/home/u/Desktop/a.go"; language := "Go" |}], Some permissionDenied).
Proof. vm_compute. reflexivity. Qed.

Example count_go : measure disk "/home/u/Desktop/a.go" = Some (3, 9).
Proof. vm_compute. reflexivity. Qed.

Example table_desktop :
  runSequential disk [{| path := "/home/u/Desktop/a.go"; language := "Go" |}] =
  {[ "Go" := {| FileCount := 1; LineCount := 3; ByteCount := 9; mutex := false |} ]}.
Proof. vm_compute. reflexivity. Qed.

(** A pnpm-style link named like a JavaScript file, to a directory: it
    opens and stats, and the first Read fails. *)
Definition linkToDirectory : OpenFile :=
  {| Stat := inr 4096; content := []; readErr := Some isADirectory |}.

Definition linkDisk : FileSystem := fun p =>
  if String.eqb p "/home/u/Desktop/chart.js" then inr linkToDirectory
  else inl noSuchFile.

(** A file whose first line has MaxScanTokenSize bytes, and two more
    lines after it. *)
Definition longLine : OpenFile :=
  {| Stat := inr 65540;
     content := replicate bufio.MaxScanTokenSize Byte.x61
                ++ [Byte.x0a; Byte.x62; Byte.x0a; Byte.x63];
     readErr := None |}.

Definition longDisk : FileSystem := fun p =>
  if String.eqb p "/home/u/Desktop/min.js" then inr longLine else inl noSuchFile.

(** A Desktop that holds one symbolic link, link.go, to the file
    /srv/code/main.go.  Walk does not follow the link; os.Open does: the
    path of the link opens the file it points to. *)
Definition linkedDesktop : node := Dir "Desktop" None [File "link.go" Symlink].

Definition followLink (p : string) : string :=
  if String.eqb p "/home/u/Desktop/link.go" then "/srv/code/main.go" else p.

Definition throughLinks : FileSystem := fun p =>
  if String.eqb (followLink p) "/srv/code/main.go" then inr (textFile goSource)
  else inl noSuchFile.

Definition linkedEnv : Env :=
  {| UserHomeDir := inr "/home/u"; tree := fun _ => linkedDesktop;
     files := throughLinks; NumCPU := 4 |}.

(** The Desktop with a node_modules directory, empty or not. *)
Definition withModules (inside : list node) : node :=
  Dir "Desktop" None [
    File "a.go" Regular;
    File "b.py" Regular;
    Dir "node_modules" None inside
  ].

Definition skipFlags : Flags := {| exclude := ""; sort := ""; skipNodeModules := true |}.

Definition twoTasks : list FileResult :=
  [{| path := "/home/u/Desktop/a.go"; language := "Go" |};
   {| path := "/home/u/Desktop/b.py"; language := "Python" |}].

(** A file whose second line has MaxScanTokenSize bytes and no newline
    after them. *)
Definition lateLongLine : OpenFile :=
  {| Stat := inr 65538;
     content := [Byte.x62; Byte.x0a] ++ replicate bufio.MaxScanTokenSize Byte.x61;
     readErr := None |}.

Definition lateDisk : FileSystem := fun p =>
  if String.eqb p "/home/u/Desktop/bundle.js" then inr lateLongLine else inl noSuchFile.

(** Two rows of a report, and the table they come from. *)
Definition goRow : V1.LanguageData :=
  {| V1.Name := "Go";
     V1.Stats := {| FileCount := 3; LineCount := 10; ByteCount := 100; mutex := false |} |}.

Definition cRow : V1.LanguageData :=
  {| V1.Name := "C";
     V1.Stats := {| FileCount := 7; LineCount := 10; ByteCount := 50; mutex := false |} |}.

Definition table : gmap string LanguageStats :=
  <["Go" := V1.Stats goRow]> {["C" := V1.Stats cRow]}.

(** The entries of the directories above are in the order of their
    names. *)
Example trees_sorted :
  sortedNames desktop = true /\ sortedNames readable = true /\
  sortedNames linkedDesktop = true /\
  sortedNames (withModules [File "index.js" Regular;
                            Dir "pkg" None [File "only_here.go" Regular]]) = true.
Proof. repeat split. Qed.

End Examples.

(** * The claims of the specification *)

Lemma discover_reported flags env homeDir tasks walkErr out :
  (0 < NumCPU env)%nat ->
  UserHomeDir env = inr homeDir ->
  discover flags env (desktopPath homeDir) = (tasks, walkErr) ->
  mainRuns flags env out ->
  out = walkErrorOutput walkErr ++
        [PrintReport (aggregate (countedAll (files env) tasks) ∅)].
Proof.
  intros Hn Hhome Hwalk Hrun.
  destruct Hrun as [err Herr|homeDir' tasks' walkErr' st Hhome' Hwalk' Hreach Hdr].
  - congruence.
  - rewrite Hhome in Hhome'. injection Hhome' as <-.
    rewrite Hwalk in Hwalk'. injection Hwalk' as <- <-.
    rewrite (drained_stats _ _ _ _ Hn Hreach Hdr). reflexivity.
Qed.

Lemma main_can_run flags env homeDir tasks walkErr :
  (0 < NumCPU env)%nat ->
  UserHomeDir env = inr homeDir ->
  discover flags env (desktopPath homeDir) = (tasks, walkErr) ->
  mainRuns flags env
    (walkErrorOutput walkErr ++ [PrintReport (runSequential (files env) tasks)]).
Proof.
  intros Hn Hhome Hwalk.
  apply (main_scan flags env homeDir tasks walkErr
           (finalState (NumCPU env) (runSequential (files env) tasks)) Hhome Hwalk).
  - apply run_complete, Hn.
  - apply drained_finalState.
Qed.

(** C1, as stated, fails: the walk of the Desktop of the example, whose
    entries are in the order of their names, stops at the directory
    that cannot be read, main prints the error, and still prints a
    report, of the one file found before it. *)
Lemma C1_report_after_walk_error :
  sortedNames Examples.desktop = true /\
  mainRuns Examples.noFlags (Examples.env Examples.desktop)
    [PrintWalkError Examples.permissionDenied;
     PrintReport {[ "Go" := {| FileCount := 1; LineCount := 3; ByteCount := 9; mutex := false |} ]}].
Proof.
  split; [reflexivity|].
  pose proof (main_can_run Examples.noFlags (Examples.env Examples.desktop) "/home/u"
                _ _ ltac:(simpl; lia) eq_refl Examples.walk_desktop) as H.
  cbn [walkErrorOutput app Examples.env files] in H.
  rewrite Examples.table_desktop in H. exact H.
Qed.

(** C1, amended.  The walk ends at the first entry that fails (its
    Lstat fails, or it is a directory that cannot be read), with that
    entry's error, and visits nothing after it; a symbolic link is not
    followed and is no error.  In the worker-pool versions main prints
    the error and then the report of the tasks sent before the failure
    (such a run exists, and every run prints this).  In the first
    version main prints the error and exits with status 1, without a
    report. *)
Theorem C1_walk_error_aborts_walk :
  (forall skip pats root n,
      osErrors n = true ->
      snd (Walk (walkFn skip pats) root n) = firstError skip n) /\
  (forall skip pats p before entry after,
      stopsLoop entry (snd (walk (walkFn skip pats) (Join p (nodeName entry)) entry)) = true ->
      walkNames (walkFn skip pats) p (before ++ entry :: after) =
      walkNames (walkFn skip pats) p (before ++ [entry])) /\
  (forall skip pats p name,
      snd (walk (walkFn skip pats) p (File name Symlink)) = None) /\
  (forall flags env homeDir tasks err,
      (0 < NumCPU env)%nat ->
      UserHomeDir env = inr homeDir ->
      discover flags env (desktopPath homeDir) = (tasks, Some err) ->
      let printed := [PrintWalkError err;
                      PrintReport (aggregate (countedAll (files env) tasks) ∅)] in
      (exists out, mainRuns flags env out) /\
      (forall out, mainRuns flags env out -> out = printed)) /\
  (forall exclude env startDir tasks err out,
      V0.Getwd env = inr startDir ->
      V0.discover exclude env startDir = (tasks, Some err) ->
      V0.mainRuns exclude env out ->
      out = [PrintWalkError err; Exit 1]).
Proof.
  split; [|split; [|split; [|split]]].
  - intros. apply Walk_result. assumption.
  - intros. apply walkNames_abort. assumption.
  - intros. cbn [walk]. rewrite walkFn_File. reflexivity.
  - intros flags env homeDir tasks err Hn Hhome Hwalk printed. split.
    + eexists. eapply main_can_run; eassumption.
    + intros out Hrun.
      apply (discover_reported _ _ _ _ _ _ Hn Hhome Hwalk Hrun).
  - intros exclude env startDir tasks err out Hwd Hwalk Hrun.
    destruct Hrun as [e He|startDir' tasks' err' Hwd' Hwalk'
                      |startDir' tasks' st Hwd' Hwalk' _ _].
    + congruence.
    + rewrite Hwd in Hwd'. injection Hwd' as <-.
      rewrite Hwalk in Hwalk'. injection Hwalk' as <- <-. reflexivity.
    + rewrite Hwd in Hwd'. injection Hwd' as <-.
      rewrite Hwalk in Hwalk'. discriminate.
Qed.

Lemma C1_walk_error_aborts_walk_witness :
  (osErrors Examples.desktop = true /\
   snd (Walk (walkFn false []) "/home/u/Desktop" Examples.desktop) =
   firstError false Examples.desktop) /\
  ((0 < NumCPU (Examples.env Examples.desktop))%nat /\
   UserHomeDir (Examples.env Examples.desktop) = inr "/home/u" /\
   [PrintWalkError Examples.permissionDenied;
    PrintReport (runSequential Examples.disk
                   [{| path := "/home/u/Desktop/a.go"; language := "Go" |}])] =
   [PrintWalkError Examples.permissionDenied;
    PrintReport (aggregate (countedAll Examples.disk
                   [{| path := "/home/u/Desktop/a.go"; language := "Go" |}]) ∅)]).
Proof.
  split.
  - split; [reflexivity|].
    apply (proj1 C1_walk_error_aborts_walk false [] "/home/u/Desktop" Examples.desktop).
    reflexivity.
  - assert (Hn : (0 < NumCPU (Examples.env Examples.desktop))%nat) by (simpl; lia).
    split; [exact Hn|]. split; [reflexivity|].
    apply (proj2 (proj1 (proj2 (proj2 (proj2 C1_walk_error_aborts_walk)))
                    Examples.noFlags (Examples.env Examples.desktop) "/home/u"
                    _ _ Hn eq_refl Examples.walk_desktop)).
    apply (main_can_run Examples.noFlags (Examples.env Examples.desktop) "/home/u"
             _ _ Hn eq_refl Examples.walk_desktop).
Defined.

(** C2, as stated, fails: with the one pattern "[", which the matcher
    rejects, the walk function of the worker-pool versions drops the
    file a.go; without the pattern it sends the task. *)
Lemma C2_malformed_pattern_drops_file :
  filepath.Match (gostrings.TrimSpace "[") (Base "/home/u/Desktop/a.go")
    = (false, Some ErrBadPattern) /\
  walkFn false ["["] "/home/u/Desktop/a.go"
    (Found {| Name := "a.go"; Mode := ModeRegular |} None) = ([], None) /\
  walkFn false [] "/home/u/Desktop/a.go"
    (Found {| Name := "a.go"; Mode := ModeRegular |} None) =
  ([{| path := "/home/u/Desktop/a.go"; language := "Go" |}], None).
Proof. vm_compute. repeat split. Qed.

Lemma excluded_malformed before bad after p e :
  snd (filepath.Match (gostrings.TrimSpace bad) (Base p)) = Some e ->
  excluded (before ++ bad :: after) p = true.
Proof.
  intros Hbad. induction before as [|pattern before IH]; simpl.
  - destruct (filepath.Match (gostrings.TrimSpace bad) (Base p)) as [matched err].
    simpl in Hbad. subst err. reflexivity.
  - destruct (filepath.Match (gostrings.TrimSpace pattern) (Base p)) as [matched [err|]];
      [reflexivity|]. destruct matched; [reflexivity|exact IH].
Qed.

Lemma V0_excluded_malformed before bad after p e :
  snd (filepath.Match bad (Base p)) = Some e ->
  V0.excluded (before ++ bad :: after) p = V0.excluded (before ++ after) p.
Proof.
  intros Hbad. induction before as [|pattern before IH]; simpl.
  - destruct (filepath.Match bad (Base p)) as [matched err].
    simpl in Hbad. subst err. reflexivity.
  - rewrite IH. reflexivity.
Qed.

(** C2, amended.  In the worker-pool versions a file is dropped, with
    no task and no error, whenever the exclusion list holds a pattern
    that the matcher rejects for its base name: the malformed pattern
    excludes the file.  In the first version such a pattern is passed
    over: the walk function does what it does without the pattern.  In
    no version does it make the walk function return an error, so the
    traversal goes on. *)
Theorem C2_malformed_pattern :
  (forall skip before bad after p name kind e,
      snd (filepath.Match (gostrings.TrimSpace bad) (Base p)) = Some e ->
      walkFn skip (before ++ bad :: after) p
        (Found {| Name := name; Mode := kindMode kind |} None) = ([], None)) /\
  (forall before bad after p v e,
      snd (filepath.Match bad (Base p)) = Some e ->
      V0.walkFn (before ++ bad :: after) p v = V0.walkFn (before ++ after) p v) /\
  (forall pats p name kind,
      snd (V0.walkFn pats p (Found {| Name := name; Mode := kindMode kind |} None)) = None).
Proof.
  split; [|split].
  - intros skip before bad after p name kind e Hbad.
    unfold walkFn, IsDir. simpl.
    replace (match kindMode kind with ModeDir => true | _ => false end) with false
      by (destruct kind; reflexivity).
    rewrite andb_false_r. simpl.
    rewrite (excluded_malformed _ _ _ _ _ Hbad). reflexivity.
  - intros before bad after p v e Hbad.
    unfold V0.walkFn. rewrite (V0_excluded_malformed _ _ _ _ _ Hbad). reflexivity.
  - intros pats p name kind. unfold V0.walkFn, IsDir. simpl.
    replace (match kindMode kind with ModeDir => true | _ => false end) with false
      by (destruct kind; reflexivity).
    destruct (V0.excluded pats p); [reflexivity|].
    destruct (languageExtMap !! _); reflexivity.
Qed.

Lemma C2_malformed_pattern_witness :
  (snd (filepath.Match (gostrings.TrimSpace " [a-") (Base "/home/u/Desktop/a.go"))
     = Some ErrBadPattern /\
   walkFn true ["*.py"; " [a-"; "*.md"] "/home/u/Desktop/a.go"
     (Found {| Name := "a.go"; Mode := kindMode Regular |} None) = ([], None)) /\
  (snd (filepath.Match "[a-" (Base "/home/u/Desktop/a.go")) = Some ErrBadPattern /\
   V0.walkFn ["*.py"; "[a-"; "*.md"] "/home/u/Desktop/a.go"
     (Found {| Name := "a.go"; Mode := kindMode Regular |} None) =
   V0.walkFn ["*.py"; "*.md"] "/home/u/Desktop/a.go"
     (Found {| Name := "a.go"; Mode := kindMode Regular |} None)).
Proof.
  split.
  - split; [vm_compute; reflexivity|].
    apply (proj1 C2_malformed_pattern true ["*.py"] " [a-" ["*.md"]
             "/home/u/Desktop/a.go" "a.go" Regular ErrBadPattern).
    vm_compute; reflexivity.
  - split; [vm_compute; reflexivity|].
    apply (proj1 (proj2 C2_malformed_pattern) ["*.py"] "[a-" ["*.md"]
             "/home/u/Desktop/a.go" _ ErrBadPattern).
    vm_compute; reflexivity.
Defined.

(** What does hold of processFile: a file that cannot be opened, or
    cannot be stat'ed, leaves the table as it was and the worker goes
    back to the channel. *)
Lemma processFile_returns_early fs p language T :
  opensAndStats fs p = false ->
  processFile fs p language T = Some T /\
  counted fs {| path := p; language := language |} = [] /\
  afterMeasure fs {| path := p; language := language |} = Receiving.
Proof.
  intros H. unfold processFile, counted, afterMeasure. simpl.
  destruct (measure fs p) as [[lc sz]|] eqn:E; [|repeat split].
  assert (Hs : is_Some (measure fs p)) by eauto.
  apply measure_opensAndStats in Hs. congruence.
Qed.

(** C3: the code at the failing input.  The file opens and stats, and
    its first Read fails (a link, named chart.js, to a directory).
    processFile of the worker-pool versions does not ask the scanner
    for its error: it records one file, no line and the 4096 bytes of
    the directory.  countLines of the first version returns the error,
    and its caller records nothing. *)
Theorem C3_read_error_is_recorded :
  processFile Examples.linkDisk "/home/u/Desktop/chart.js" "JavaScript" ∅ =
    Some {[ "JavaScript" := {| FileCount := 1; LineCount := 0; ByteCount := 4096; mutex := false |} ]} /\
  V0.countLines Examples.linkDisk "/home/u/Desktop/chart.js" =
    (0, Some Examples.isADirectory) /\
  V0.counted Examples.linkDisk
    {| path := "/home/u/Desktop/chart.js"; language := "JavaScript" |} = [].
Proof. vm_compute. repeat split. Qed.

(** C4.  The locked region of processFile takes effect in one piece.
    In every state the pipeline can reach, with any number of workers
    and for any tasks: nothing has panicked; at most one worker is
    inside the region; and whenever the mutex is free the table is the
    result of whole recordFile operations, one for each counted file
    that is not still to come, none lost and none twice.  The same
    holds of the goroutines of the first version.  In particular two
    workers that record the first two files of a new language leave one
    entry, with both contributions. *)
Theorem C4_recordFile_indivisible :
  (forall fs numWorkers tasks st,
      reachable fs numWorkers tasks st ->
      panicked st = false /\
      (holders (workers st) <= 1)%nat /\
      (statsMutex st = false ->
       exists done, stats st = aggregate done ∅ /\
                    done ++ pending fs st ≡ₚ countedAll fs tasks)) /\
  (forall fs tasks st,
      V0.reachable fs tasks st ->
      V0.panicked st = false /\
      (V0.holders (V0.goroutines st) <= 1)%nat /\
      (V0.statsMutex st = false ->
       exists done, V0.stats st = V0.aggregate done ∅ /\
                    done ++ V0.pending fs st ≡ₚ V0.countedAll fs tasks)) /\
  (forall fs task1 task2 lines1 bytes1 lines2 bytes2 st,
      language task1 = language task2 ->
      measure fs (path task1) = Some (lines1, bytes1) ->
      measure fs (path task2) = Some (lines2, bytes2) ->
      reachable fs 2 [task1; task2] st ->
      drained st ->
      stats st = {[ language task1 :=
                      {| FileCount := 2;
                         LineCount := int_add (int_add 0 lines2) lines1;
                         ByteCount := int_add (int_add 0 bytes2) bytes1;
                         mutex := false |} ]}).
Proof.
  split; [|split].
  - intros fs n tasks st Hreach.
    destruct (invariant_reachable _ _ _ _ Hreach) as (Hp & Hh & (done & Hs & Ha) & _).
    split; [exact Hp|]. split; [rewrite Hh; destruct (statsMutex st); lia|].
    intros Hfree. rewrite Hfree in Hh.
    rewrite settled_idle in Hs by exact Hh. injection Hs as ->. eauto.
  - intros fs tasks st Hreach.
    destruct (V0.invariant_reachable_V0 _ _ _ Hreach) as (Hp & Hh & (done & Hs & Ha)).
    split; [exact Hp|]. split; [rewrite Hh; destruct (V0.statsMutex st); lia|].
    intros Hfree. rewrite Hfree in Hh.
    rewrite V0.settled_idle_V0 in Hs by exact Hh. injection Hs as ->. eauto.
  - intros fs task1 task2 lines1 bytes1 lines2 bytes2 st Hlang H1 H2 Hreach Hdr.
    rewrite (drained_stats fs 2 _ _ ltac:(lia) Hreach Hdr).
    unfold countedAll, counted. simpl. rewrite H1, H2. simpl.
    unfold record. simpl. rewrite <- Hlang.
    rewrite lookup_insert_eq, insert_insert_eq. simpl.
    rewrite lookup_empty. reflexivity.
Qed.

Lemma C4_recordFile_indivisible_witness :
  let goFile := {| path := "/home/u/Desktop/a.go"; language := "Go" |} in
  let st := finalState 2 (runSequential Examples.disk [goFile; goFile]) in
  (reachable Examples.disk 2 [goFile; goFile] st /\ drained st) /\
  panicked st = false /\
  stats st = {[ "Go" := {| FileCount := 2; LineCount := 6; ByteCount := 18; mutex := false |} ]}.
Proof.
  intros goFile st.
  assert (Hreach : reachable Examples.disk 2 [goFile; goFile] st)
    by (apply run_complete; lia).
  assert (Hdr : drained st) by apply drained_finalState.
  split; [split; assumption|]. split.
  - apply (proj1 (proj1 C4_recordFile_indivisible Examples.disk 2%nat [goFile; goFile] st Hreach)).
  - apply (proj2 (proj2 C4_recordFile_indivisible) Examples.disk goFile goFile 3 9 3 9 st
             eq_refl Examples.count_go Examples.count_go Hreach Hdr).
Defined.

(** C5.  The table at the end of a run does not depend on the order in
    which the tasks are produced and processed, nor on the number of
    workers: any two complete runs, over the same tasks in any two
    orders and with any two worker counts (one and N among them), end
    with equal tables, which is the table of processing the tasks one
    after the other. *)
Theorem C5_order_and_worker_count (fs : FileSystem) (tasks tasks' : list FileResult)
    (n n' : nat) (st st' : pipeline) :
  tasks ≡ₚ tasks' ->
  (0 < n)%nat -> (0 < n')%nat ->
  reachable fs n tasks st -> drained st ->
  reachable fs n' tasks' st' -> drained st' ->
  stats st = stats st' /\ stats st = runSequential fs tasks.
Proof.
  intros Hperm Hn Hn' Hreach Hdr Hreach' Hdr'.
  rewrite (drained_stats _ _ _ _ Hn Hreach Hdr).
  rewrite (drained_stats _ _ _ _ Hn' Hreach' Hdr').
  split.
  - apply aggregate_perm. unfold countedAll.
    apply Permutation_flat_map. exact Hperm.
  - unfold runSequential. apply aggregate_perm. apply Permutation_rev.
Qed.

Lemma C5_order_and_worker_count_witness :
  let st := finalState 1 (runSequential Examples.disk Examples.twoTasks) in
  let st' := finalState 4 (runSequential Examples.disk (rev Examples.twoTasks)) in
  (Examples.twoTasks ≡ₚ rev Examples.twoTasks /\
   reachable Examples.disk 1 Examples.twoTasks st /\ drained st /\
   reachable Examples.disk 4 (rev Examples.twoTasks) st' /\ drained st') /\
  stats st = stats st'.
Proof.
  intros st st'.
  assert (Hperm : Examples.twoTasks ≡ₚ rev Examples.twoTasks) by apply Permutation_rev.
  assert (Hreach : reachable Examples.disk 1 Examples.twoTasks st)
    by (apply run_complete; lia).
  assert (Hreach' : reachable Examples.disk 4 (rev Examples.twoTasks) st')
    by (apply run_complete; lia).
  assert (Hdr : drained st) by apply drained_finalState.
  assert (Hdr' : drained st') by apply drained_finalState.
  split; [repeat split; assumption|].
  apply (proj1 (C5_order_and_worker_count Examples.disk Examples.twoTasks
                  (rev Examples.twoTasks) 1%nat 4%nat st st' Hperm
                  ltac:(lia) ltac:(lia) Hreach Hdr Hreach' Hdr')).
Defined.

(** C6, as stated, fails: the file of the example has three lines, the
    first of MaxScanTokenSize bytes.  The scanner stops at it with
    ErrTooLong: processFile counts no line (and records the file);
    countLines returns the error and no count. *)
Lemma C6_long_line_not_counted :
  specLines (content Examples.longLine) = 3 /\
  measure Examples.longDisk "/home/u/Desktop/min.js" = Some (0, 65540) /\
  V0.countLines Examples.longDisk "/home/u/Desktop/min.js" = (0, Some ErrTooLong).
Proof. vm_compute. repeat split. Qed.

(** C6, amended.  For every file that opens, whose reading meets no
    error and whose lines are each shorter than MaxScanTokenSize (64 KiB)
    bytes, the counter returns the number of maximal runs of bytes
    between line feeds, a final run without line feed counting when it
    is not empty; an empty file gives zero lines, and the size is the
    one Stat reports. *)
Theorem C6_line_count (fs : FileSystem) (p : string) (file : OpenFile) (size : Z) :
  fs p = inr file ->
  Stat file = inr size ->
  readErr file = None ->
  linesFit bufio.MaxScanTokenSize (content file) 0 = true ->
  Z.of_nat (length (content file)) < 2^63 ->
  measure fs p = Some (specLines (content file), size) /\
  V0.countLines fs p = (specLines (content file), None) /\
  (content file = [] -> measure fs p = Some (0, size)).
Proof.
  intros Hopen Hstat Hread Hfit Hlen.
  assert (Hscan : scanLoop (bufio.NewScanner file) 0 = (specLines (content file), None)).
  { unfold bufio.NewScanner. rewrite Hread.
    rewrite (scanLoop_fits (length (content file))); [|reflexivity|exact Hfit|lia].
    pose proof (specLines_bounds (content file)).
    rewrite wrap64_small by lia. reflexivity. }
  assert (Hm : measure fs p = Some (specLines (content file), size)).
  { unfold measure. rewrite Hopen, Hstat, Hscan. reflexivity. }
  split; [exact Hm|]. split.
  - unfold V0.countLines. rewrite Hopen. exact Hscan.
  - intros Hnil. rewrite Hm, Hnil. reflexivity.
Qed.

Lemma C6_line_count_witness :
  let file := Examples.textFile Examples.goSource in
  (Examples.disk "/home/u/Desktop/a.go" = inr file /\
   Stat file = inr 9 /\
   readErr file = None /\
   linesFit bufio.MaxScanTokenSize (content file) 0 = true /\
   Z.of_nat (length (content file)) < 2^63) /\
  measure Examples.disk "/home/u/Desktop/a.go" = Some (specLines (content file), 9).
Proof.
  intros file.
  assert (Hfit : linesFit bufio.MaxScanTokenSize (content file) 0 = true)
    by (vm_compute; reflexivity).
  assert (Hlen : Z.of_nat (length (content file)) < 2^63) by (vm_compute; reflexivity).
  split; [repeat split; assumption|].
  apply (proj1 (C6_line_count Examples.disk "/home/u/Desktop/a.go" file 9
                  eq_refl eq_refl eq_refl Hfit Hlen)).
Defined.

(** The claim's words: the file at the path was successfully read.  It
    opened, Stat answered, and the scan came to the end of the file
    without an error. *)
Definition successfullyRead (fs : FileSystem) (p : string) : bool :=
  match fs p with
  | inr file =>
    match Stat file with
    | inr _ =>
      match snd (scanLoop (bufio.NewScanner file) 0) with
      | None => true
      | Some _ => false
      end
    | inl _ => false
    end
  | inl _ => false
  end.

(** C7: the code at the failing input, which is the one of C3.  The one
    file of the walk opens and stats, and its first Read fails (a link,
    named chart.js, to a directory): no file is successfully read.  The
    worker-pool versions have complete runs, and every one of them ends
    with file counts that sum to 1, since processFile does not ask the
    scanner for its error.  In the first version, whose countLines
    returns the error, every run ends with an empty table. *)
Theorem C7_unread_file_is_counted :
  let tasks := [{| path := "/home/u/Desktop/chart.js"; language := "JavaScript" |}] in
  length (filter (fun task => successfullyRead Examples.linkDisk (path task) = true) tasks)
    = 0%nat /\
  (exists st, reachable Examples.linkDisk 4 tasks st /\ drained st) /\
  (forall st, reachable Examples.linkDisk 4 tasks st -> drained st ->
              sumFileCount (stats st) = 1) /\
  (forall st, V0.reachable Examples.linkDisk tasks st -> V0.drained st ->
              V0.stats st = ∅).
Proof.
  intros tasks. split; [vm_compute; reflexivity|]. split; [|split].
  - eexists. split; [apply run_complete; lia|apply drained_finalState].
  - intros st Hreach Hdr.
    rewrite (drained_stats Examples.linkDisk 4%nat _ _ ltac:(lia) Hreach Hdr).
    vm_compute. reflexivity.
  - intros st Hreach Hdr.
    rewrite (V0.drained_stats_V0 Examples.linkDisk _ _ Hreach Hdr). reflexivity.
Qed.

(** C8, as stated, fails.  An entry that is no regular file gets a
    task: the symbolic link link.go.  The walk does not follow it, but
    processFile opens its path with os.Open, which does: the lines
    counted and reported are those of /srv/code/main.go, a file outside
    the root.  And a regular file of a known extension that no pattern
    excludes gets no task when the walk has ended before it: b.py,
    after the directory that cannot be read. *)
Lemma C8_link_leads_outside_root :
  (discover Examples.noFlags Examples.linkedEnv "/home/u/Desktop" =
     ([{| path := "/home/u/Desktop/link.go"; language := "Go" |}], None) /\
   Examples.followLink "/home/u/Desktop/link.go" = "/srv/code/main.go" /\
   ~ under "/home/u/Desktop" "/srv/code/main.go" /\
   measure Examples.throughLinks "/home/u/Desktop/link.go" =
     measure Examples.throughLinks "/srv/code/main.go" /\
   mainRuns Examples.noFlags Examples.linkedEnv
     [PrintReport {[ "Go" := {| FileCount := 1; LineCount := 3; ByteCount := 9;
                                mutex := false |} ]}]) /\
  (sortedNames Examples.desktop = true /\
   discover Examples.noFlags (Examples.env Examples.desktop) "/home/u/Desktop" =
     ([{| path := "/home/u/Desktop/a.go"; language := "Go" |}],
      Some Examples.permissionDenied)).
Proof.
  assert (Hwalk : discover Examples.noFlags Examples.linkedEnv (desktopPath "/home/u") =
                  ([{| path := "/home/u/Desktop/link.go"; language := "Go" |}], None))
    by (vm_compute; reflexivity).
  split; [|split; vm_compute; reflexivity].
  split; [exact Hwalk|]. split; [reflexivity|]. split; [|split; [reflexivity|]].
  - intros [H|[rel H]]; discriminate.
  - pose proof (main_can_run Examples.noFlags Examples.linkedEnv "/home/u"
                  _ _ ltac:(simpl; lia) eq_refl Hwalk) as H.
    cbn [walkErrorOutput app Examples.linkedEnv files] in H.
    replace (runSequential Examples.throughLinks
               [{| path := "/home/u/Desktop/link.go"; language := "Go" |}])
      with ({[ "Go" := {| FileCount := 1; LineCount := 3; ByteCount := 9;
                          mutex := false |} ]} : gmap string LanguageStats) in H
      by (vm_compute; reflexivity).
    exact H.
Qed.

(** C8, amended.  The walk is rooted at the Desktop directory of the
    user's home directory, and every run of main reports the tasks of
    that walk.  Every task the walker sends is for a path at or below
    that root.  When no entry that the walk reaches fails, the tasks
    are, in the order of the walk, one for each entry that is not a
    directory (regular file, link or special file; below a skipped
    node_modules directory none), provided no exclusion pattern drops
    it and its lower-cased extension is in the table; the task carries
    the path and the language of the extension. *)
Theorem C8_tasks_of_the_walk (flags : Flags) (env : Env) (homeDir : string)
    (tasks : list FileResult) (walkErr : option error) :
  let root := desktopPath homeDir in
  let skip := skipNodeModules flags in
  let pats := excludePatternsOf (exclude flags) in
  (0 < NumCPU env)%nat ->
  UserHomeDir env = inr homeDir ->
  discover flags env root = (tasks, walkErr) ->
  (forall out, mainRuns flags env out ->
     out = walkErrorOutput walkErr ++
           [PrintReport (aggregate (countedAll (files env) tasks) ∅)]) /\
  Forall (fun task => under root (path task)) tasks /\
  (clean skip (tree env root) = true ->
   tasks = flat_map (taskFor pats) (filesUnder skip root (tree env root)) /\
   walkErr = None).
Proof.
  intros root skip pats Hn Hhome Hwalk.
  split; [intros out Hrun; apply (discover_reported _ _ _ _ _ _ Hn Hhome Hwalk Hrun)|].
  unfold discover in Hwalk. split.
  - pose proof (Walk_under (walkFn skip pats) path (walkFn_sends skip pats)
                  root (tree env root)) as H.
    fold skip pats in Hwalk. rewrite Hwalk in H. exact H.
  - intros Hclean. fold skip pats in Hwalk. unfold Walk in Hwalk.
    rewrite (walk_clean skip pats _ root Hclean) in Hwalk.
    assert (Hres : walkResult skip (tree env root) = None \/
                   walkResult skip (tree env root) = Some SkipDir).
    { destruct (tree env root) as [| |name [e|] entries]; simpl; auto.
      destruct (skipped skip name); auto. }
    destruct Hres as [Hres|Hres]; rewrite Hres in Hwalk;
      injection Hwalk as <- <-; split; reflexivity.
Qed.

Lemma C8_tasks_of_the_walk_witness :
  ((0 < NumCPU (Examples.env Examples.readable))%nat /\
   UserHomeDir (Examples.env Examples.readable) = inr "/home/u" /\
   discover Examples.noFlags (Examples.env Examples.readable) (desktopPath "/home/u") =
   (Examples.twoTasks, None)) /\
  Forall (fun task => under (desktopPath "/home/u") (path task)) Examples.twoTasks.
Proof.
  assert (Hn : (0 < NumCPU (Examples.env Examples.readable))%nat) by (simpl; lia).
  split; [split; [exact Hn|split; [reflexivity|exact Examples.walk_readable]]|].
  apply (proj1 (proj2 (C8_tasks_of_the_walk Examples.noFlags (Examples.env Examples.readable)
                         "/home/u" Examples.twoTasks None Hn eq_refl
                         Examples.walk_readable))).
Defined.

Lemma discover_prune flags env trees' root :
  skipNodeModules flags = true ->
  prune (trees' root) = prune (tree env root) ->
  discover flags {| UserHomeDir := UserHomeDir env; tree := trees';
                    files := files env; NumCPU := NumCPU env |} root =
  discover flags env root.
Proof.
  intros Hskip Hprune. unfold discover. simpl. rewrite Hskip.
  rewrite <- (Walk_prune _ root (trees' root)), Hprune, Walk_prune. reflexivity.
Qed.

(** C9.  With the skip flag set, a directory named node_modules is not
    descended into: the walk sends nothing from it and goes on after
    it, and two trees that differ only in what their node_modules
    directories hold have the same runs, with the same reports.  So a
    file planted inside adds nothing to any total. *)
Theorem C9_node_modules_pruned :
  (forall pats p entries,
      walk (walkFn true pats) p (Dir "node_modules" None entries) = ([], Some SkipDir) /\
      stopsLoop (Dir "node_modules" None entries) (Some SkipDir) = false) /\
  (forall flags env trees' out,
      skipNodeModules flags = true ->
      (forall root, prune (trees' root) = prune (tree env root)) ->
      mainRuns flags env out <->
      mainRuns flags {| UserHomeDir := UserHomeDir env; tree := trees';
                        files := files env; NumCPU := NumCPU env |} out).
Proof.
  split.
  - intros pats p entries. split; [|reflexivity].
    rewrite walk_Dir, walkFn_Dir. reflexivity.
  - intros flags env trees' out Hskip Hprune. split.
    + intros Hrun. destruct Hrun as [err Herr|homeDir tasks walkErr st Hhome Hwalk Hreach Hdr].
      * apply main_no_home. exact Herr.
      * apply (main_scan _ _ homeDir tasks walkErr st); simpl; try assumption.
        rewrite <- Hwalk. apply discover_prune; [exact Hskip|apply Hprune].
    + intros Hrun. destruct Hrun as [err Herr|homeDir tasks walkErr st Hhome Hwalk Hreach Hdr].
      * apply main_no_home. exact Herr.
      * apply (main_scan _ _ homeDir tasks walkErr st); simpl in *; try assumption.
        rewrite <- Hwalk. symmetry. apply discover_prune; [exact Hskip|apply Hprune].
Qed.

Lemma C9_node_modules_pruned_witness :
  let planted := [File "index.js" Regular; Dir "pkg" None [File "only_here.go" Regular]] in
  let out := [PrintReport (runSequential Examples.disk Examples.twoTasks)] in
  (skipNodeModules Examples.skipFlags = true /\
   (forall root : string,
       prune (Examples.withModules planted) = prune (Examples.withModules [])) /\
   mainRuns Examples.skipFlags (Examples.env (Examples.withModules [])) out) /\
  mainRuns Examples.skipFlags (Examples.env (Examples.withModules planted)) out.
Proof.
  intros planted out.
  assert (Hrun : mainRuns Examples.skipFlags (Examples.env (Examples.withModules [])) out).
  { apply (main_can_run Examples.skipFlags (Examples.env (Examples.withModules []))
             "/home/u" Examples.twoTasks None); [simpl; lia|reflexivity|].
    vm_compute. reflexivity. }
  split; [split; [reflexivity|split; [reflexivity|exact Hrun]]|].
  apply (proj1 (proj2 C9_node_modules_pruned Examples.skipFlags
                  (Examples.env (Examples.withModules []))
                  (fun _ => Examples.withModules planted) out eq_refl
                  (fun _ => eq_refl)) Hrun).
Defined.




(** * Further properties of the code *)

(** ** The glob matcher *)

Lemma matchChunkLoop_eq c chunk s failed :
  matchChunkLoop (String c chunk) s failed =
  match chunkStep c chunk s failed with
  | inl e => inl e
  | inr (chunk', s', failed') => matchChunkLoop chunk' s' failed'
  end.
Proof.
  rewrite matchChunkLoop_equation_2. simpl.
  destruct (chunkStep c chunk s failed) as [e|[[chunk' s'] f']]; reflexivity.
Qed.

Lemma MatchLoop_eq c p name :
  MatchLoop (String c p) name =
  match patternTurn (String c p) name with
  | TurnDone matched err => (matched, err)
  | TurnNext pattern' name' => MatchLoop pattern' name'
  end.
Proof.
  rewrite MatchLoop_equation_2. simpl.
  destruct (patternTurn (String c p) name) as [matched err|pattern' name']; reflexivity.
Qed.

(** *** The only error is ErrBadPattern *)

Lemma getEsc_err chunk e : getEsc chunk = inl e -> e = ErrBadPattern.
Proof.
  unfold getEsc. destruct chunk as [|c chunk]; [congruence|].
  destruct (is_char c "-" || is_char c "]"); [congruence|].
  destruct (if is_char c "\" then chunk else String c chunk) as [|c1 t1]; [congruence|].
  destruct (utf8.DecodeRuneInString (String c1 t1)) as [r n].
  destruct ((r =? utf8.RuneError) && (n =? 1)%nat); [congruence|].
  destruct (string_drop n (String c1 t1)); [congruence|discriminate].
Qed.

Lemma rangeStep_err r chunk nrange matched e :
  rangeStep r chunk nrange matched = Break (inl e) -> e = ErrBadPattern.
Proof.
  unfold rangeStep. destruct chunk as [|c chunk0]; [congruence|].
  destruct (is_char c "]" && negb (nrange =? 0)%nat); [discriminate|].
  destruct (getEsc (String c chunk0)) as [e'|[lo chunk1]] eqn:E1.
  - intros [= <-]. eapply getEsc_err, E1.
  - destruct chunk1 as [|d chunk1']; [congruence|].
    destruct (is_char d "-"); [|discriminate].
    destruct (getEsc chunk1') as [e'|[hi chunk2]] eqn:E2; [|discriminate].
    intros [= <-]. eapply getEsc_err, E2.
Qed.

Lemma parseRanges_err r chunk nrange matched e :
  parseRanges r chunk nrange matched = inl e -> e = ErrBadPattern.
Proof.
  funelim (parseRanges r chunk nrange matched); intros Hres.
  - match goal with IH : forall e, _ |- _ => eapply IH; exact Hres end.
  - clear Heqcall. subst. eapply rangeStep_err; eassumption.
Qed.

Lemma chunkStep_err c chunk s failed e :
  chunkStep c chunk s failed = inl e -> e = ErrBadPattern.
Proof.
  unfold chunkStep. destruct (is_char c "[").
  - destruct (if failed || _ then _ else _) as [r s1].
    destruct (match chunk with EmptyString => _ | String _ _ => _ end) as [negated chunk1].
    destruct (parseRanges r chunk1 0 false) as [e'|[m chunk2]] eqn:P; [|discriminate].
    intros [= <-]. eapply parseRanges_err, P.
  - destruct (is_char c "?"); [discriminate|].
    destruct (is_char c "\"); [|discriminate].
    destruct chunk; [congruence|discriminate].
Qed.

Lemma matchChunkLoop_err chunk s failed e :
  matchChunkLoop chunk s failed = inl e -> e = ErrBadPattern.
Proof.
  funelim (matchChunkLoop chunk s failed); intros Hres.
  - discriminate.
  - clear Heqcall. injection Hres as <-. eapply chunkStep_err; eassumption.
  - match goal with IH : forall e, _ |- _ => eapply IH; exact Hres end.
Qed.

Lemma starLoop_err chunk name last e :
  starLoop chunk name last = inl e -> e = ErrBadPattern.
Proof.
  induction name as [|c name IH]; simpl; [discriminate|].
  destruct (is_char c Separator); [discriminate|].
  destruct (matchChunk chunk name) as [e'|[t|]] eqn:E.
  - intros [= <-]. eapply matchChunkLoop_err, E.
  - destruct (last && negb (is_empty t)); [exact IH|discriminate].
  - exact IH.
Qed.

Lemma patternTurn_err pattern name matched e :
  patternTurn pattern name = TurnDone matched (Some e) ->
  matched = false /\ e = ErrBadPattern.
Proof.
  unfold patternTurn.
  destruct (scanChunk pattern) as [[star chunk] rest].
  destruct (star && is_empty chunk); [discriminate|].
  assert (Hstar : (if star then
                     match starLoop chunk name (is_empty rest) with
                     | inl e => TurnDone false (Some e)
                     | inr (Some t) => TurnNext rest t
                     | inr None => TurnDone false None
                     end
                   else TurnDone false None) = TurnDone matched (Some e) ->
                  matched = false /\ e = ErrBadPattern).
  { destruct star; [|discriminate].
    destruct (starLoop chunk name (is_empty rest)) as [e'|[t|]] eqn:E.
    - intros [= <- <-]. split; [reflexivity|]. eapply starLoop_err, E.
    - discriminate.
    - discriminate. }
  destruct (matchChunk chunk name) as [e'|[t|]] eqn:E.
  - intros [= <- <-]. split; [reflexivity|]. eapply matchChunkLoop_err, E.
  - destruct (is_empty t || negb (is_empty rest)); [discriminate|exact Hstar].
  - exact Hstar.
Qed.

(** X1. Whenever [filepath.Match] returns an error, the error is
    [ErrBadPattern] and the match result returned with it is false: a
    pattern that is malformed never counts as a match. *)
Theorem Match_error_is_bad_pattern (pattern name : string) (matched : bool) (e : error) :
  Match pattern name = (matched, Some e) -> matched = false /\ e = ErrBadPattern.
Proof.
  unfold Match.
  funelim (MatchLoop pattern name); intros Hres.
  - discriminate.
  - clear Heqcall. injection Hres as -> ->. eapply patternTurn_err; eassumption.
  - match goal with IH : forall matched e, _ |- _ => eapply IH; exact Hres end.
Qed.

Lemma Match_error_is_bad_pattern_witness :
  Match "a[" "ab" = (false, Some ErrBadPattern) /\
  (false = false /\ ErrBadPattern = ErrBadPattern).
Proof.
  split; [reflexivity|].
  apply (Match_error_is_bad_pattern "a[" "ab"). reflexivity.
Defined.

(** *** Patterns without metacharacters *)

(** No byte of s is one of the metacharacters of a pattern. *)
Fixpoint literal (s : string) : bool :=
  match s with
  | EmptyString => true
  | String c s' =>
    negb (is_char c "*" || is_char c "?" || is_char c "[" || is_char c "\") && literal s'
  end.

(** What is left of s after the prefix, when s begins with it. *)
Fixpoint stripPrefix (prefix s : string) : option string :=
  match prefix, s with
  | EmptyString, _ => Some s
  | String c prefix', String d s' => if is_char c d then stripPrefix prefix' s' else None
  | String _ _, EmptyString => None
  end.

Lemma literal_head c s :
  literal (String c s) = true ->
  is_char c "*" = false /\ is_char c "?" = false /\ is_char c "[" = false /\
  is_char c "\" = false /\ literal s = true.
Proof.
  cbn [literal]. intros H. apply andb_prop in H. destruct H as [H Hs].
  apply negb_true_iff in H. repeat (apply orb_false_elim in H; destruct H as [H ?]).
  repeat split; assumption.
Qed.

Lemma matchChunkLoop_failed chunk : forall s,
  literal chunk = true -> matchChunkLoop chunk s true = inr None.
Proof.
  induction chunk as [|c chunk IH]; intros s Hlit.
  - rewrite matchChunkLoop_equation_1. reflexivity.
  - destruct (literal_head _ _ Hlit) as (_ & Hq & Hb & He & Hl).
    rewrite matchChunkLoop_eq. unfold chunkStep. rewrite Hb, Hq, He. simpl.
    apply IH, Hl.
Qed.

Lemma matchChunk_literal chunk : forall s,
  literal chunk = true -> matchChunk chunk s = inr (stripPrefix chunk s).
Proof.
  unfold matchChunk.
  induction chunk as [|c chunk IH]; intros s Hlit.
  - rewrite matchChunkLoop_equation_1. reflexivity.
  - destruct (literal_head _ _ Hlit) as (_ & Hq & Hb & He & Hl).
    rewrite matchChunkLoop_eq. unfold chunkStep. rewrite Hb, Hq, He.
    destruct s as [|d s]; simpl.
    + apply matchChunkLoop_failed, Hl.
    + destruct (is_char c d); simpl; [apply IH, Hl|apply matchChunkLoop_failed, Hl].
Qed.

Lemma skipStars_literal c p : is_char c "*" = false -> skipStars (String c p) = (false, String c p).
Proof. intros H. simpl. rewrite H. reflexivity. Qed.

Lemma scanSegment_literal p : literal p = true -> scanSegment p false = (p, "").
Proof.
  induction p as [|c p IH]; [reflexivity|]. intros Hlit.
  destruct (literal_head _ _ Hlit) as (Hs & _ & Hb & He & Hl).
  cbn [scanSegment]. rewrite He, Hs, Hb. simpl.
  destruct (is_char c "]"); rewrite (IH Hl); reflexivity.
Qed.

Lemma stripPrefix_eqb a : forall b,
  match stripPrefix a b with Some "" => true | _ => false end = String.eqb a b.
Proof.
  induction a as [|c a IH]; intros [|d b]; simpl; try reflexivity.
  unfold is_char. destruct (Ascii.eqb c d); [apply IH|reflexivity].
Qed.

(** X2. A pattern without a metacharacter (no star, question mark,
    opening bracket or backslash) matches exactly the name equal to it,
    and is never reported as malformed. *)
Theorem Match_literal (pattern name : string) :
  literal pattern = true ->
  Match pattern name = (String.eqb pattern name, None).
Proof.
  intros Hlit. unfold Match. destruct pattern as [|c p].
  - rewrite MatchLoop_equation_1. destruct name; reflexivity.
  - destruct (literal_head _ _ Hlit) as (Hs & _).
    rewrite MatchLoop_eq. unfold patternTurn, scanChunk.
    rewrite (skipStars_literal _ _ Hs), (scanSegment_literal _ Hlit). simpl andb. cbv iota.
    rewrite (matchChunk_literal _ _ Hlit).
    rewrite <- stripPrefix_eqb.
    destruct (stripPrefix (String c p) name) as [[|d t]|]; simpl.
    + rewrite MatchLoop_equation_1. reflexivity.
    + reflexivity.
    + reflexivity.
Qed.

Lemma Match_literal_witness :
  literal "Makefile" = true /\
  Match "Makefile" "Makefile.am" = (String.eqb "Makefile" "Makefile.am", None).
Proof.
  split; [reflexivity|].
  apply (Match_literal "Makefile" "Makefile.am"). reflexivity.
Defined.

(** *** A star and a literal suffix *)

(** Whether the star loop finds the suffix: after one byte or more,
    none of them a separator. *)
Fixpoint starFinds (suffix name : string) : bool :=
  match name with
  | EmptyString => false
  | String c name' =>
    if is_char c Separator then false
    else if String.eqb suffix name' then true
    else starFinds suffix name'
  end.

Lemma starLoop_literal chunk name :
  literal chunk = true ->
  starLoop chunk name true = inr (if starFinds chunk name then Some "" else None).
Proof.
  intros Hlit. induction name as [|c name IH]; [reflexivity|].
  cbn [starLoop starFinds]. destruct (is_char c Separator); [reflexivity|].
  rewrite (matchChunk_literal _ _ Hlit), <- stripPrefix_eqb.
  destruct (stripPrefix chunk name) as [[|d t]|]; simpl; [reflexivity|exact IH|exact IH].
Qed.

Lemma Match_star_literal suffix name :
  literal suffix = true -> is_empty suffix = false ->
  Match ("*" +:+ suffix) name = (String.eqb suffix name || starFinds suffix name, None).
Proof.
  intros Hlit Hne. unfold Match.
  change ("*" +:+ suffix) with (String "*" suffix).
  rewrite MatchLoop_eq. unfold patternTurn, scanChunk.
  assert (Hskip : skipStars (String "*" suffix) = (true, suffix)).
  { destruct suffix as [|c p]; [discriminate|].
    destruct (literal_head _ _ Hlit) as (Hs & _).
    simpl. rewrite Hs. reflexivity. }
  rewrite Hskip, (scanSegment_literal _ Hlit), Hne. simpl andb. cbv iota.
  rewrite (matchChunk_literal _ _ Hlit), (starLoop_literal _ _ Hlit).
  rewrite <- stripPrefix_eqb.
  destruct (stripPrefix suffix name) as [[|d t]|]; simpl.
  - rewrite MatchLoop_equation_1. reflexivity.
  - destruct (starFinds suffix name).
    + rewrite MatchLoop_equation_1. reflexivity.
    + reflexivity.
  - destruct (starFinds suffix name).
    + rewrite MatchLoop_equation_1. reflexivity.
    + reflexivity.
Qed.

Lemma starFinds_spec suffix name :
  starFinds suffix name = true <->
  exists pre, is_empty pre = false /\ name = pre +:+ suffix /\ ContainsSeparator pre = false.
Proof.
  induction name as [|c name IH]; simpl.
  - split; [discriminate|]. intros (pre & Hne & Hname & _).
    destruct pre; [discriminate|discriminate].
  - destruct (is_char c Separator) eqn:Hc.
    + split; [discriminate|]. intros (pre & Hne & Hname & Hsep).
      destruct pre as [|d pre]; [discriminate|].
      rewrite append_cons in Hname. injection Hname as <- _.
      cbn [ContainsSeparator] in Hsep. rewrite Hc in Hsep. discriminate.
    + destruct (String.eqb suffix name) eqn:E.
      * split; [|reflexivity]. intros _. apply String.eqb_eq in E. subst name.
        exists (String c ""). repeat split. simpl. rewrite Hc. reflexivity.
      * rewrite IH. split.
        -- intros (pre & Hne & -> & Hsep). exists (String c pre).
           repeat split. cbn [ContainsSeparator]. rewrite Hc, Hsep. reflexivity.
        -- intros (pre & Hne & Hname & Hsep).
           destruct pre as [|d pre]; [discriminate|].
           rewrite append_cons in Hname. injection Hname as <- ->.
           cbn [ContainsSeparator] in Hsep. apply orb_false_elim in Hsep.
           destruct Hsep as [_ Hsep].
           exists pre. repeat split; [|exact Hsep].
           destruct pre; [|reflexivity].
           simpl in E. rewrite String.eqb_refl in E. discriminate.
Qed.

(** X3. A pattern made of a star and a suffix without metacharacters,
    such as [*.json], is well formed, and matches exactly the names that
    end with the suffix after a part, possibly empty, that holds no
    separator. *)
Theorem Match_star_suffix (suffix name : string) :
  literal suffix = true -> is_empty suffix = false ->
  snd (Match ("*" +:+ suffix) name) = None /\
  (fst (Match ("*" +:+ suffix) name) = true <->
   exists pre, name = pre +:+ suffix /\ ContainsSeparator pre = false).
Proof.
  intros Hlit Hne. rewrite (Match_star_literal _ _ Hlit Hne). simpl.
  split; [reflexivity|]. rewrite orb_true_iff, starFinds_spec. split.
  - intros [H|(pre & _ & Hname & Hsep)].
    + apply String.eqb_eq in H. subst name. exists "". split; reflexivity.
    + exists pre. split; assumption.
  - intros (pre & Hname & Hsep). destruct pre as [|c pre].
    + left. subst name. apply String.eqb_refl.
    + right. exists (String c pre). repeat split; assumption.
Qed.

Lemma Match_star_suffix_witness :
  (literal ".json" = true /\ is_empty ".json" = false) /\
  snd (Match ("*" +:+ ".json") "package.json") = None /\
  (fst (Match ("*" +:+ ".json") "package.json") = true <->
   exists pre, "package.json" = pre +:+ ".json" /\ ContainsSeparator pre = false).
Proof.
  split; [split; reflexivity|].
  apply (Match_star_suffix ".json" "package.json"); reflexivity.
Defined.

(** *** The exclusion loop is a disjunction *)

(** Whether a pattern of the worker-pool versions drops the file: the
    matcher rejects the pattern, or the pattern matches. *)
Definition drops (path pattern : string) : bool :=
  let '(matched, err) := Match (gostrings.TrimSpace pattern) (Base path) in
  (match err with Some _ => true | None => false end) || matched.

Lemma excluded_existsb pats p : excluded pats p = existsb (drops p) pats.
Proof.
  induction pats as [|pat pats IH]; [reflexivity|].
  simpl. unfold drops at 1.
  destruct (Match (gostrings.TrimSpace pat) (Base p)) as [matched err].
  destruct (_ || matched); [reflexivity|exact IH].
Qed.

Definition drops_V0 (path pattern : string) : bool :=
  let '(matched, err) := Match pattern (Base path) in
  match err with Some _ => false | None => matched end.

Lemma excluded_existsb_V0 pats p : V0.excluded pats p = existsb (drops_V0 p) pats.
Proof.
  induction pats as [|pat pats IH]; [reflexivity|].
  simpl. unfold drops_V0 at 1.
  destruct (Match pat (Base p)) as [matched [err|]]; [exact IH|].
  destruct matched; [reflexivity|exact IH].
Qed.

Lemma existsb_perm {A} (f : A -> bool) l1 l2 : l1 ≡ₚ l2 -> existsb f l1 = existsb f l2.
Proof.
  induction 1 as [|x l1 l2 _ IH|x y l|l1 l2 l3 _ IH1 _ IH2]; simpl.
  - reflexivity.
  - rewrite IH. reflexivity.
  - destruct (f x), (f y); reflexivity.
  - congruence.
Qed.

(** walk with a function that sends a part of what another sends, and
    returns the same. *)
Section WalkRestricted.
Context {A : Type} (fn fn' : WalkFunc A) (keep : list A -> list A).
Hypothesis keep_app : forall l1 l2, keep (l1 ++ l2) = keep l1 ++ keep l2.
Hypothesis fn_keep : forall p v, fn' p v = (keep (fst (fn p v)), snd (fn p v)).

Lemma keep_nil : keep [] = [].
Proof.
  pose proof (keep_app [] []) as H. simpl in H.
  destruct (keep []) as [|a l]; [reflexivity|].
  apply (f_equal (@length A)) in H. rewrite length_app in H. simpl in H. lia.
Qed.

Lemma walk_restricted : forall n p,
  walk fn' p n = (keep (fst (walk fn p n)), snd (walk fn p n)).
Proof.
  induction n as [name err|name kind|name readErr entries IH] using node_rect'; intros p.
  - apply fn_keep.
  - apply fn_keep.
  - destruct readErr as [e|]; [apply fn_keep|].
    rewrite !walk_Dir, fn_keep.
    destruct (fn p _) as [sent [e|]]; simpl; [reflexivity|].
    assert (Hnames : walkNames fn' p entries =
                     (keep (fst (walkNames fn p entries)), snd (walkNames fn p entries))).
    { induction IH as [|entry entries Hentry _ IHentries]; simpl.
      - rewrite keep_nil. reflexivity.
      - rewrite Hentry, IHentries.
        destruct (walk fn (Join p (nodeName entry)) entry) as [sent1 err]. simpl.
        destruct (stopsLoop entry err); [reflexivity|].
        destruct (walkNames fn p entries) as [sent2 err']. simpl.
        rewrite keep_app. reflexivity. }
    rewrite Hnames.
    destruct (walkNames fn p entries) as [sent' err]. simpl.
    rewrite keep_app. reflexivity.
Qed.

Lemma Walk_restricted root n :
  Walk fn' root n = (keep (fst (Walk fn root n)), snd (Walk fn root n)).
Proof.
  unfold Walk. rewrite walk_restricted.
  destruct (walk fn root n) as [sent [[]|]]; reflexivity.
Qed.
End WalkRestricted.

Lemma walkFn_filtered skip pats p v :
  walkFn skip pats p v =
  (filter (fun task => excluded pats (path task) = false) (fst (walkFn skip [] p v)),
   snd (walkFn skip [] p v)).
Proof.
  unfold walkFn. destruct v as [err|info [err|]]; try reflexivity.
  destruct (skip && IsDir info && String.eqb (Name info) "node_modules"); [reflexivity|].
  destruct (IsDir info); [reflexivity|].
  cbn [excluded].
  destruct (languageExtMap !! gostrings.ToLower (Ext p)) as [lang|]; simpl.
  - rewrite filter_cons. simpl. destruct (excluded pats p); reflexivity.
  - destruct (excluded pats p); reflexivity.
Qed.

Lemma walkFn_filtered_V0 pats p v :
  V0.walkFn pats p v =
  (filter (fun task => V0.excluded pats (path task) = false) (fst (V0.walkFn [] p v)),
   snd (V0.walkFn [] p v)).
Proof.
  unfold V0.walkFn. destruct v as [err|info [err|]]; try reflexivity.
  destruct (IsDir info); [reflexivity|].
  cbn [V0.excluded].
  destruct (languageExtMap !! gostrings.ToLower (Ext p)) as [lang|]; simpl.
  - rewrite filter_cons. simpl. destruct (V0.excluded pats p); reflexivity.
  - destruct (V0.excluded pats p); reflexivity.
Qed.

Lemma Walk_filtered skip pats root n :
  Walk (walkFn skip pats) root n =
  (filter (fun task => excluded pats (path task) = false)
          (fst (Walk (walkFn skip []) root n)),
   snd (Walk (walkFn skip []) root n)).
Proof.
  apply (Walk_restricted (walkFn skip []) (walkFn skip pats)
           (filter (fun task => excluded pats (path task) = false))).
  - intros l1 l2. apply filter_app.
  - apply walkFn_filtered.
Qed.

Lemma Walk_filtered_V0 pats root n :
  Walk (V0.walkFn pats) root n =
  (filter (fun task => V0.excluded pats (path task) = false)
          (fst (Walk (V0.walkFn []) root n)),
   snd (Walk (V0.walkFn []) root n)).
Proof.
  apply (Walk_restricted (V0.walkFn []) (V0.walkFn pats)
           (filter (fun task => V0.excluded pats (path task) = false))).
  - intros l1 l2. apply filter_app.
  - apply walkFn_filtered_V0.
Qed.

(** X4. In every version the exclude patterns only remove files from
    what the walk sends: the walk with patterns sends the files of the
    walk without patterns that no pattern excludes, in the same order,
    and ends with the same error.  A pattern never makes the walk skip a
    directory or stop. *)
Theorem exclusion_filters_the_walk :
  (forall skip pats root n,
     Walk (walkFn skip pats) root n =
     (filter (fun task => excluded pats (path task) = false)
             (fst (Walk (walkFn skip []) root n)),
      snd (Walk (walkFn skip []) root n))) /\
  (forall pats root n,
     Walk (V0.walkFn pats) root n =
     (filter (fun task => V0.excluded pats (path task) = false)
             (fst (Walk (V0.walkFn []) root n)),
      snd (Walk (V0.walkFn []) root n))).
Proof.
  split; [apply Walk_filtered|apply Walk_filtered_V0].
Qed.

Lemma filter_ext_bool {A} (f g : A -> bool) (l : list A) :
  (forall x, f x = g x) ->
  filter (fun x => f x = false) l = filter (fun x => g x = false) l.
Proof.
  intros H. induction l as [|x l IH]; [reflexivity|].
  rewrite !filter_cons, IH.
  destruct (decide (f x = false)) as [E|E], (decide (g x = false)) as [E'|E'];
    try reflexivity; rewrite H in E; contradiction.
Qed.

(** X5. A file is excluded by a list of patterns exactly when one of
    the patterns excludes it: for two lists put together the result is
    the disjunction of the two results, and lists with the same patterns
    in another order give the same walk. *)
Theorem exclusion_is_a_disjunction (pats pats' : list string) :
  (forall p, excluded (pats ++ pats') p = excluded pats p || excluded pats' p) /\
  (forall p, V0.excluded (pats ++ pats') p = V0.excluded pats p || V0.excluded pats' p) /\
  (pats ≡ₚ pats' ->
   (forall skip root n, Walk (walkFn skip pats) root n = Walk (walkFn skip pats') root n) /\
   (forall root n, Walk (V0.walkFn pats) root n = Walk (V0.walkFn pats') root n)).
Proof.
  split; [|split].
  - intros p. rewrite !excluded_existsb. apply existsb_app.
  - intros p. rewrite !excluded_existsb_V0. apply existsb_app.
  - intros Hperm. split.
    + intros skip root n.
      rewrite (Walk_filtered skip pats), (Walk_filtered skip pats').
      f_equal. apply filter_ext_bool. intros task.
      rewrite !excluded_existsb. apply existsb_perm, Hperm.
    + intros root n.
      rewrite (Walk_filtered_V0 pats), (Walk_filtered_V0 pats').
      f_equal. apply filter_ext_bool. intros task.
      rewrite !excluded_existsb_V0. apply existsb_perm, Hperm.
Qed.

Lemma exclusion_is_a_disjunction_witness :
  ["*.py"; "*.md"] ≡ₚ ["*.md"; "*.py"] /\
  (forall skip root n,
     Walk (walkFn skip ["*.py"; "*.md"]) root n = Walk (walkFn skip ["*.md"; "*.py"]) root n) /\
  (forall root n,
     Walk (V0.walkFn ["*.py"; "*.md"]) root n = Walk (V0.walkFn ["*.md"; "*.py"]) root n).
Proof.
  split; [apply perm_swap|].
  apply (exclusion_is_a_disjunction ["*.py"; "*.md"] ["*.md"; "*.py"]).
  apply perm_swap.
Defined.

Lemma excludePatternsOf_V0 exclude :
  V0.excludePatternsOf exclude = map gostrings.TrimSpace (excludePatternsOf exclude).
Proof. unfold V0.excludePatternsOf, excludePatternsOf. destruct (is_empty exclude); reflexivity. Qed.

(** X6. For the same value of the exclude flag, the first version
    (which trims the patterns once, before the walk) and the later
    versions (which trim at each test) exclude the same files, provided
    that the matcher rejects none of the patterns on the file's name. *)
Theorem versions_exclude_alike (exclude p : string) :
  (forall pattern, pattern ∈ excludePatternsOf exclude ->
     snd (Match (gostrings.TrimSpace pattern) (Base p)) = None) ->
  excluded (excludePatternsOf exclude) p = V0.excluded (V0.excludePatternsOf exclude) p.
Proof.
  rewrite excludePatternsOf_V0.
  induction (excludePatternsOf exclude) as [|pat pats IH]; intros Hok; [reflexivity|].
  cbn [excluded map V0.excluded].
  pose proof (Hok pat ltac:(left)) as Hpat.
  destruct (Match (gostrings.TrimSpace pat) (Base p)) as [matched err]. simpl in Hpat.
  subst err. simpl. rewrite IH; [reflexivity|].
  intros pattern Hin. apply Hok. right. exact Hin.
Qed.

Lemma versions_exclude_alike_witness :
  (forall pattern, pattern ∈ excludePatternsOf "*.py, *.md" ->
     snd (Match (gostrings.TrimSpace pattern) (Base "/home/u/Desktop/notes.md")) = None) /\
  excluded (excludePatternsOf "*.py, *.md") "/home/u/Desktop/notes.md" =
  V0.excluded (V0.excludePatternsOf "*.py, *.md") "/home/u/Desktop/notes.md".
Proof.
  assert (H : forall pattern, pattern ∈ excludePatternsOf "*.py, *.md" ->
     snd (Match (gostrings.TrimSpace pattern) (Base "/home/u/Desktop/notes.md")) = None).
  { intros pattern Hin. apply list_elem_of_In in Hin.
    destruct Hin as [<-|[<-|[]]]; reflexivity. }
  split; [exact H|].
  apply (versions_exclude_alike "*.py, *.md" "/home/u/Desktop/notes.md" H).
Defined.

Lemma Base_not_empty p : is_empty (Base p) = false.
Proof.
  unfold Base. destruct (is_empty p); [reflexivity|].
  destruct (is_empty (lastElement (stripTrailingSlashes p))) eqn:E; [reflexivity|exact E].
Qed.

Lemma Match_empty_pattern name : Match "" name = (is_empty name, None).
Proof. unfold Match. apply MatchLoop_equation_1. Qed.

(** X7. A pattern that is empty once trimmed, as a doubled or trailing
    comma in the exclude flag leaves, excludes no file in any version:
    the list of patterns excludes what it excludes without it. *)
Theorem blank_pattern_excludes_nothing (before after : list string) (pattern p : string) :
  gostrings.TrimSpace pattern = "" ->
  excluded (before ++ pattern :: after) p = excluded (before ++ after) p /\
  V0.excluded (map gostrings.TrimSpace (before ++ pattern :: after)) p =
  V0.excluded (map gostrings.TrimSpace (before ++ after)) p.
Proof.
  intros Hblank. split.
  - rewrite !excluded_existsb, !existsb_app. cbn [existsb].
    unfold drops at 2. rewrite Hblank, Match_empty_pattern, Base_not_empty. reflexivity.
  - rewrite !map_app. cbn [map]. rewrite !excluded_existsb_V0, !existsb_app. cbn [existsb].
    unfold drops_V0 at 2. rewrite Hblank, Match_empty_pattern, Base_not_empty. reflexivity.
Qed.

Lemma blank_pattern_excludes_nothing_witness :
  gostrings.TrimSpace " " = "" /\
  excluded (["*.py"] ++ " " :: ["*.md"]) "/home/u/Desktop/a.go" =
  excluded (["*.py"] ++ ["*.md"]) "/home/u/Desktop/a.go" /\
  V0.excluded (map gostrings.TrimSpace (["*.py"] ++ " " :: ["*.md"])) "/home/u/Desktop/a.go" =
  V0.excluded (map gostrings.TrimSpace (["*.py"] ++ ["*.md"])) "/home/u/Desktop/a.go".
Proof.
  split; [reflexivity|].
  apply (blank_pattern_excludes_nothing ["*.py"] ["*.md"] " " "/home/u/Desktop/a.go").
  reflexivity.
Defined.

(** *** Split *)

Fixpoint hasByte (sep : ascii) (s : string) : bool :=
  match s with
  | EmptyString => false
  | String c s' => is_char c sep || hasByte sep s'
  end.

Fixpoint countByte (sep : ascii) (s : string) : nat :=
  match s with
  | EmptyString => 0
  | String c s' => (if is_char c sep then 1 else 0) + countByte sep s'
  end.

Lemma Split_not_nil s sep : gostrings.Split s sep <> [].
Proof.
  destruct s as [|c s]; [discriminate|]. simpl.
  destruct (gostrings.Split s sep); [discriminate|].
  destruct (is_char c sep); discriminate.
Qed.

(** X8. [strings.Split] on a one-byte separator loses nothing: joining
    the pieces with the separator gives the string back, no piece holds
    the separator, and there is one piece more than there are
    separators in the string (so the empty string gives one empty
    piece). *)
Theorem Split_pieces (s : string) (sep : ascii) :
  String.concat (String sep "") (gostrings.Split s sep) = s /\
  Forall (fun piece => hasByte sep piece = false) (gostrings.Split s sep) /\
  length (gostrings.Split s sep) = S (countByte sep s).
Proof.
  induction s as [|c s (IH1 & IH2 & IH3)]; [repeat constructor|].
  pose proof (Split_not_nil s sep) as Hne.
  cbn [gostrings.Split countByte].
  destruct (gostrings.Split s sep) as [|piece pieces]; [contradiction|].
  destruct (is_char c sep) eqn:E.
  - unfold is_char in E. apply Ascii.eqb_eq in E. subst c.
    split; [|split].
    + transitivity (String sep (String.concat (String sep "") (piece :: pieces)));
        [reflexivity|rewrite IH1; reflexivity].
    + constructor; [reflexivity|exact IH2].
    + simpl. simpl in IH3. lia.
  - split; [|split].
    + rewrite <- IH1. destruct pieces; reflexivity.
    + inversion IH2; subst. constructor; [|assumption].
      cbn [hasByte]. rewrite E. assumption.
    + simpl. simpl in IH3. lia.
Qed.

(** ** Extensions *)

Lemma hasDotOrSeparator_split s :
  hasDotOrSeparator s = hasByte "." s || ContainsSeparator s.
Proof.
  induction s as [|c s IH]; [reflexivity|].
  cbn [hasDotOrSeparator hasByte ContainsSeparator]. rewrite IH.
  destruct (is_char c "."), (is_char c Separator), (hasByte "." s); reflexivity.
Qed.

Lemma Ext_no_dot name : hasDotOrSeparator name = false -> Ext name = "".
Proof.
  induction name as [|c name IH]; [reflexivity|].
  cbn [hasDotOrSeparator Ext]. intros H.
  apply orb_false_elim in H. destruct H as [H Hn].
  apply orb_false_elim in H. destruct H as [Hd _].
  rewrite Hn, Hd. reflexivity.
Qed.

Lemma hasDotOrSeparator_dot stem e : hasDotOrSeparator (stem +:+ String "." e) = true.
Proof.
  induction stem as [|c stem IH]; [reflexivity|].
  rewrite append_cons. cbn [hasDotOrSeparator]. rewrite IH. apply orb_true_r.
Qed.

Lemma Ext_final_dot stem e :
  hasDotOrSeparator e = false -> Ext (stem +:+ String "." e) = String "." e.
Proof.
  intros He. induction stem as [|c stem IH].
  - change ("" +:+ String "." e) with (String "." e). cbn [Ext]. rewrite He. reflexivity.
  - rewrite append_cons. cbn [Ext]. rewrite hasDotOrSeparator_dot. exact IH.
Qed.

Lemma Ext_after_separator dir name :
  ContainsSeparator name = false -> Ext (dir +:+ "/" +:+ name) = Ext name.
Proof.
  intros Hsep. pose proof (Ext_Join dir name) as H. unfold Join in H. rewrite H.
  change ("/" +:+ name) with (String "/" name). cbn [Ext].
  destruct (hasDotOrSeparator name) eqn:E; [reflexivity|].
  simpl. symmetry. apply Ext_no_dot, E.
Qed.

(** X9. [filepath.Ext] returns the suffix that begins at the last dot
    of the last element of the path: for a part [e] with neither dot nor
    separator, a path ending in a dot and [e] has the dot and [e] as
    extension, whatever comes before it, while a path ending in a
    separator and [e], and [e] alone, have none. *)
Theorem Ext_is_final_dot_suffix (stem e : string) :
  ContainsSeparator e = false -> hasByte "." e = false ->
  Ext (stem +:+ String "." e) = String "." e /\
  Ext (stem +:+ String "/" e) = "" /\
  Ext e = "".
Proof.
  intros Hsep Hdot.
  assert (He : hasDotOrSeparator e = false).
  { rewrite hasDotOrSeparator_split, Hsep, Hdot. reflexivity. }
  split; [|split].
  - apply Ext_final_dot, He.
  - change (stem +:+ String "/" e) with (stem +:+ "/" +:+ e).
    rewrite (Ext_after_separator stem e Hsep). apply Ext_no_dot, He.
  - apply Ext_no_dot, He.
Qed.

Lemma Ext_is_final_dot_suffix_witness :
  (ContainsSeparator "gz" = false /\ hasByte "." "gz" = false) /\
  Ext ("/home/u/archive.tar" +:+ String "." "gz") = String "." "gz" /\
  Ext ("/home/u/archive.tar" +:+ String "/" "gz") = "" /\
  Ext "gz" = "".
Proof.
  split; [split; reflexivity|].
  apply (Ext_is_final_dot_suffix "/home/u/archive.tar" "gz"); reflexivity.
Defined.

(** X10. What the walk callback of the worker-pool versions does with
    a file that was read without error depends on the entry's name
    only, not on the directory it lies in: the file is dropped when a
    pattern, trimmed, matches the name or is rejected by the matcher on
    the name; otherwise it is sent with the language of the name's
    extension in lower case, if the table of extensions has one.  The
    callback never returns an error for a file. *)
Theorem file_is_judged_by_its_name (skip : bool) (pats : list string)
    (dir name : string) (kind : file_kind) :
  ContainsSeparator name = false -> is_empty name = false ->
  walkFn skip pats (Join dir name) (Found {| Name := name; Mode := kindMode kind |} None) =
  (if existsb (fun pattern =>
                 let '(matched, err) := Match (gostrings.TrimSpace pattern) name in
                 (match err with Some _ => true | None => false end) || matched) pats
   then []
   else match languageExtMap !! gostrings.ToLower (Ext name) with
        | Some language => [{| path := Join dir name; language := language |}]
        | None => []
        end,
   None).
Proof.
  intros Hsep Hne. rewrite walkFn_File. unfold taskFor.
  rewrite excluded_existsb. unfold drops.
  rewrite (Base_Join dir name Hsep Hne).
  rewrite (Ext_after_separator dir name Hsep : Ext (Join dir name) = Ext name). reflexivity.
Qed.

Lemma file_is_judged_by_its_name_witness :
  (ContainsSeparator "Main.GO" = false /\ is_empty "Main.GO" = false) /\
  walkFn false ["*.md"] (Join "/home/u/Desktop" "Main.GO")
         (Found {| Name := "Main.GO"; Mode := kindMode Regular |} None) =
  ([{| path := "/home/u/Desktop/Main.GO"; language := "Go" |}], None).
Proof.
  split; [split; reflexivity|].
  rewrite (file_is_judged_by_its_name false ["*.md"] "/home/u/Desktop" "Main.GO" Regular);
    reflexivity.
Defined.

(** ** No file is sent twice *)

(** A name as a directory holds it: not empty, and without separator. *)
Definition plainName (name : string) : bool :=
  negb (is_empty name) && negb (ContainsSeparator name).

(** The entries of every directory have plain names, no two the same. *)
Fixpoint distinctNames (n : node) : bool :=
  match n with
  | Dir _ _ entries =>
    bool_decide (NoDup (map nodeName entries))
    && forallb (fun entry => plainName (nodeName entry)) entries
    && forallb distinctNames entries
  | _ => true
  end.

Lemma append_inv_head (a b c : string) : a +:+ b = a +:+ c -> b = c.
Proof.
  induction a as [|x a IH]; [trivial|].
  rewrite !append_cons. intros [= H]. apply IH, H.
Qed.

Lemma ContainsSeparator_app a b :
  ContainsSeparator (a +:+ b) = ContainsSeparator a || ContainsSeparator b.
Proof.
  induction a as [|x a IH]; [reflexivity|].
  rewrite append_cons. cbn [ContainsSeparator]. rewrite IH. apply orb_assoc.
Qed.

(** The part before the first separator is determined. *)
Lemma first_element_inj a : forall b s t,
  ContainsSeparator a = false -> ContainsSeparator b = false ->
  a +:+ String "/" s = b +:+ String "/" t -> a = b.
Proof.
  induction a as [|x a IH]; intros [|y b] s t Ha Hb H.
  - reflexivity.
  - change ("" +:+ String "/" s) with (String "/" s) in H.
    rewrite append_cons in H. injection H as <- _. discriminate.
  - change ("" +:+ String "/" t) with (String "/" t) in H.
    rewrite append_cons in H. injection H as -> _. discriminate.
  - rewrite !append_cons in H. injection H as <- H.
    cbn [ContainsSeparator] in Ha, Hb.
    apply orb_false_elim in Ha, Hb. destruct Ha as [_ Ha], Hb as [_ Hb].
    f_equal. eapply IH; eassumption.
Qed.

Lemma under_disjoint p name1 name2 q :
  plainName name1 = true -> plainName name2 = true ->
  under (Join p name1) q -> under (Join p name2) q -> name1 = name2.
Proof.
  unfold plainName. intros H1 H2.
  apply andb_prop in H1, H2. destruct H1 as [_ H1], H2 as [_ H2].
  apply negb_true_iff in H1, H2.
  unfold under, Join.
  intros [->|[rel1 ->]] [E|[rel2 E]].
  - apply append_inv_head in E. apply append_inv_head in E. exact E.
  - rewrite !append_assoc in E. apply append_inv_head in E.
    change ("/" +:+ name1) with (String "/" name1) in E.
    change ("/" +:+ name2 +:+ "/" +:+ rel2) with (String "/" (name2 +:+ "/" +:+ rel2)) in E.
    injection E as E. rewrite E, ContainsSeparator_app in H1.
    simpl in H1. rewrite orb_true_r in H1. discriminate.
  - rewrite !append_assoc in E. apply append_inv_head in E.
    change ("/" +:+ name2) with (String "/" name2) in E.
    change ("/" +:+ name1 +:+ "/" +:+ rel1) with (String "/" (name1 +:+ "/" +:+ rel1)) in E.
    injection E as E. rewrite <- E, ContainsSeparator_app in H2.
    simpl in H2. rewrite orb_true_r in H2. discriminate.
  - rewrite !append_assoc in E. apply append_inv_head in E.
    change ("/" +:+ name1 +:+ "/" +:+ rel1) with (String "/" (name1 +:+ String "/" rel1)) in E.
    change ("/" +:+ name2 +:+ "/" +:+ rel2) with (String "/" (name2 +:+ String "/" rel2)) in E.
    injection E as E. eapply first_element_inj; eassumption.
Qed.

Section WalkOnce.
Context {A : Type} (fn : WalkFunc A) (sentPath : A -> string).
Hypothesis fn_sends : forall p v, Forall (fun a => sentPath a = p) (fst (fn p v)).
Hypothesis fn_one : forall p v, (length (fst (fn p v)) <= 1)%nat.
Hypothesis fn_dir : forall p name e,
  fst (fn p (Found {| Name := name; Mode := ModeDir |} e)) = [].

Lemma fn_NoDup p v : NoDup (map sentPath (fst (fn p v))).
Proof.
  pose proof (fn_one p v) as H.
  destruct (fst (fn p v)) as [|a [|b l]]; simpl in *.
  - constructor.
  - repeat constructor. intros Hin. apply elem_of_nil in Hin. exact Hin.
  - lia.
Qed.

Lemma walkNames_under p entries :
  Forall (fun a => exists entry, entry ∈ entries /\
                                 under (Join p (nodeName entry)) (sentPath a))
         (fst (walkNames fn p entries)).
Proof.
  induction entries as [|entry entries IH]; simpl; [constructor|].
  pose proof (walk_under fn sentPath fn_sends (Join p (nodeName entry)) entry
                (Join p (nodeName entry)) (or_introl eq_refl)) as H1.
  destruct (walk fn (Join p (nodeName entry)) entry) as [sent1 err]. simpl in H1.
  assert (H1' : Forall (fun a => exists e, e ∈ entry :: entries /\
                                          under (Join p (nodeName e)) (sentPath a)) sent1).
  { eapply Forall_impl; [exact H1|]. intros a Ha. exists entry. split; [left|exact Ha]. }
  destruct (stopsLoop entry err); [exact H1'|].
  destruct (walkNames fn p entries) as [sent2 err']. simpl in *.
  apply Forall_app. split; [exact H1'|].
  eapply Forall_impl; [exact IH|]. intros a (e & He & Ha). exists e. split; [right; exact He|exact Ha].
Qed.

Lemma walk_NoDup : forall n p,
  distinctNames n = true -> NoDup (map sentPath (fst (walk fn p n))).
Proof.
  induction n as [name err|name kind|name readErr entries IH] using node_rect';
    intros p Hn.
  - apply fn_NoDup.
  - apply fn_NoDup.
  - destruct readErr as [e|]; [apply fn_NoDup|].
    rewrite walk_Dir.
    pose proof (fn_dir p name None) as Hd.
    destruct (fn p _) as [sent [e|]]; simpl in Hd; subst sent; [constructor|].
    cbn [distinctNames] in Hn.
    apply andb_prop in Hn. destruct Hn as [Hn Hsub].
    apply andb_prop in Hn. destruct Hn as [Hnd Hplain].
    apply bool_decide_eq_true in Hnd.
    assert (Hnames : NoDup (map sentPath (fst (walkNames fn p entries)))).
    { induction IH as [|entry entries Hentry _ IHentries]; simpl; [constructor|].
      simpl in Hsub, Hplain, Hnd.
      apply andb_prop in Hsub, Hplain. destruct Hsub as [Hs1 Hs2], Hplain as [Hp1 Hp2].
      apply NoDup_cons in Hnd. destruct Hnd as [Hfresh Hnd].
      specialize (Hentry (Join p (nodeName entry)) Hs1).
      pose proof (walk_under fn sentPath fn_sends (Join p (nodeName entry)) entry
                    (Join p (nodeName entry)) (or_introl eq_refl)) as H1.
      destruct (walk fn (Join p (nodeName entry)) entry) as [sent1 err]. simpl in *.
      destruct (stopsLoop entry err); [exact Hentry|].
      specialize (IHentries Hnd Hp2 Hs2).
      pose proof (walkNames_under p entries) as H2.
      destruct (walkNames fn p entries) as [sent2 err']. simpl in *.
      rewrite map_app. apply NoDup_app. split; [exact Hentry|]. split; [|exact IHentries].
      intros q Hq1 Hq2.
      apply list_elem_of_fmap in Hq1, Hq2.
      destruct Hq1 as (a1 & -> & Ha1), Hq2 as (a2 & Hq & Ha2).
      rewrite Forall_forall in H1, H2.
      specialize (H1 a1 Ha1). destruct (H2 a2 Ha2) as (e & He & Hunder).
      rewrite <- Hq in Hunder.
      assert (Hpe : plainName (nodeName e) = true).
      { rewrite forallb_forall in Hp2. apply Hp2. apply list_elem_of_In, He. }
      pose proof (under_disjoint _ _ _ _ Hp1 Hpe H1 Hunder) as Heq.
      apply Hfresh. rewrite Heq. apply list_elem_of_fmap. exists e. split; [reflexivity|exact He]. }
    destruct (walkNames fn p entries) as [sent' err]. simpl in *. exact Hnames.
Qed.

Lemma Walk_NoDup root n :
  distinctNames n = true -> NoDup (map sentPath (fst (Walk fn root n))).
Proof.
  intros Hn. unfold Walk. pose proof (walk_NoDup n root Hn) as H.
  destruct (walk fn root n) as [sent [[]|]]; exact H.
Qed.
End WalkOnce.

Lemma walkFn_one skip pats p v : (length (fst (walkFn skip pats p v)) <= 1)%nat.
Proof.
  unfold walkFn. destruct v as [err|info [err|]]; simpl; try lia.
  repeat (match goal with |- context [if ?b then _ else _] => destruct b end; simpl; try lia).
  destruct (languageExtMap !! _); simpl; lia.
Qed.

Lemma walkFn_one_V0 pats p v : (length (fst (V0.walkFn pats p v)) <= 1)%nat.
Proof.
  unfold V0.walkFn. destruct v as [err|info [err|]]; simpl; try lia.
  repeat (match goal with |- context [if ?b then _ else _] => destruct b end; simpl; try lia).
  destruct (languageExtMap !! _); simpl; lia.
Qed.

Lemma walkFn_sends_V0 pats p v :
  Forall (fun task => path task = p) (fst (V0.walkFn pats p v)).
Proof.
  unfold V0.walkFn. destruct v as [err|info [err|]]; simpl; try constructor.
  repeat (match goal with |- context [if ?b then _ else _] => destruct b end;
          simpl; try constructor).
  destruct (languageExtMap !! _); simpl; repeat constructor.
Qed.

(** X11. When the entries of every directory of the tree have plain
    names, no two the same, as a file system has them, the walk of
    every version sends no path twice, with any patterns and flags.
    (This is about paths: a file that has two names, or a name and a
    link to it, is met under two paths.) *)
Theorem no_file_is_sent_twice (root : string) (n : node) :
  distinctNames n = true ->
  (forall skip pats, NoDup (map path (fst (Walk (walkFn skip pats) root n)))) /\
  (forall pats, NoDup (map path (fst (Walk (V0.walkFn pats) root n)))).
Proof.
  intros Hn. split.
  - intros skip pats. apply Walk_NoDup; [apply walkFn_sends|apply walkFn_one| |exact Hn].
    intros p name e. destruct e; [reflexivity|]. rewrite walkFn_Dir. reflexivity.
  - intros pats. apply Walk_NoDup; [apply walkFn_sends_V0|apply walkFn_one_V0| |exact Hn].
    intros p name e. unfold V0.walkFn. destruct e; reflexivity.
Qed.

Lemma no_file_is_sent_twice_witness :
  distinctNames Examples.desktop = true /\
  (forall skip pats,
     NoDup (map path (fst (Walk (walkFn skip pats) "/home/u/Desktop" Examples.desktop)))) /\
  (forall pats,
     NoDup (map path (fst (Walk (V0.walkFn pats) "/home/u/Desktop" Examples.desktop)))).
Proof.
  split; [vm_compute; reflexivity|].
  apply (no_file_is_sent_twice "/home/u/Desktop" Examples.desktop).
  vm_compute; reflexivity.
Defined.

(** ** Join on clean paths *)

Lemma endsElement_app rest suffix :
  endsElement suffix = true -> endsElement (rest +:+ suffix) = endsElement rest.
Proof. destruct rest; [simpl; trivial|reflexivity]. Qed.

(** What follows a prefix which an element end follows is cleaned from
    the state that the prefix alone leaves. *)
Lemma cleanLoop_app rooted suffix :
  endsElement suffix = true ->
  forall k rest copying out dotdot,
    (String.length rest <= k)%nat ->
    cleanLoop rooted (rest +:+ suffix) copying out dotdot =
    let '(out', dotdot') := cleanLoop rooted rest copying out dotdot in
    cleanLoop rooted suffix false out' dotdot'.
Proof.
  intros Hs. induction k as [|k IH]; intros rest copying out dotdot Hk.
  - destruct rest; [|simpl in Hk; lia]. simpl.
    destruct suffix as [|c s]; [reflexivity|].
    simpl in Hs. simpl. rewrite Hs. reflexivity.
  - destruct rest as [|c rest'].
    + simpl. destruct suffix as [|c s]; [reflexivity|].
      simpl in Hs. simpl. rewrite Hs. reflexivity.
    + simpl in Hk. rewrite append_cons. cbn [cleanLoop].
      rewrite (endsElement_app _ _ Hs).
      destruct (is_char c Separator); [apply IH; lia|].
      destruct copying; [apply IH; lia|].
      destruct (is_char c "." && endsElement rest'); [apply IH; lia|].
      destruct rest' as [|c2 rest''].
      * change ("" +:+ suffix) with suffix.
        destruct suffix as [|c2 s].
        -- apply (IH ""). simpl. lia.
        -- simpl in Hs. unfold is_char in Hs. apply Ascii.eqb_eq in Hs. subst c2.
           replace (is_char c "." && is_char Separator "." && endsElement s) with false
             by (simpl; rewrite andb_false_r; reflexivity).
           apply (IH ""). simpl. lia.
      * rewrite append_cons. rewrite (endsElement_app _ _ Hs).
        simpl in Hk.
        destruct (is_char c "." && is_char c2 "." && endsElement rest'').
        -- destruct (dotdot <? length out)%nat; [apply IH; lia|].
           destruct (negb rooted); apply IH; lia.
        -- rewrite <- append_cons. apply IH. simpl. lia.
Qed.

Lemma cleanLoop_copy rooted name : forall out dotdot,
  ContainsSeparator name = false ->
  cleanLoop rooted name true out dotdot = (rev (list_ascii_of_string name) ++ out, dotdot).
Proof.
  induction name as [|c name IH]; intros out dotdot Hsep; [reflexivity|].
  cbn [ContainsSeparator] in Hsep. apply orb_false_elim in Hsep. destruct Hsep as [Hc Hn].
  cbn [cleanLoop]. rewrite Hc, (IH _ _ Hn). simpl. rewrite <- (assoc app). reflexivity.
Qed.

(** A directory entry's name: plain, and neither "." nor "..". *)
Definition entryName (name : string) : bool :=
  plainName name && negb (String.eqb name ".") && negb (String.eqb name "..").

Lemma cleanLoop_entry (rooted : bool) (name : string) (out : list ascii) (dotdot : nat) :
  entryName name = true ->
  ((if rooted then 2 else 1) <= length out)%nat ->
  cleanLoop rooted name false out dotdot =
  (rev (list_ascii_of_string name) ++ Separator :: out, dotdot).
Proof.
  unfold entryName, plainName. intros Hname Hout.
  apply andb_prop in Hname. destruct Hname as [Hname Hdd].
  apply andb_prop in Hname. destruct Hname as [Hname Hd].
  apply andb_prop in Hname. destruct Hname as [Hne Hsep].
  apply negb_true_iff in Hne, Hsep, Hd, Hdd.
  destruct name as [|c name']; [discriminate|].
  cbn [ContainsSeparator] in Hsep. apply orb_false_elim in Hsep. destruct Hsep as [Hc Hn].
  assert (Hslash : (rooted && negb (length out =? 1)%nat)
                   || (negb rooted && negb (length out =? 0)%nat) = true).
  { destruct rooted; simpl in *.
    - rewrite orb_false_r. apply negb_true_iff, Nat.eqb_neq. lia.
    - apply negb_true_iff, Nat.eqb_neq. lia. }
  assert (Helement : cleanLoop rooted name' true
                       (c :: (if (rooted && negb (length out =? 1)%nat)
                                 || (negb rooted && negb (length out =? 0)%nat)
                              then Separator :: out else out)) dotdot =
                     (rev (list_ascii_of_string (String c name')) ++ Separator :: out, dotdot)).
  { rewrite Hslash, (cleanLoop_copy _ _ _ _ Hn). simpl.
    rewrite <- (assoc app). reflexivity. }
  cbn [cleanLoop]. rewrite Hc.
  destruct (is_char c "." && endsElement name') eqn:E1.
  { exfalso. apply andb_prop in E1. destruct E1 as [E1 E2].
    unfold is_char in E1. apply Ascii.eqb_eq in E1. subst c.
    destruct name' as [|d name'']; [discriminate|].
    simpl in E2. cbn [ContainsSeparator] in Hn. rewrite E2 in Hn. discriminate. }
  destruct name' as [|c2 name'']; [exact Helement|].
  destruct (is_char c "." && is_char c2 "." && endsElement name'') eqn:E2; [|exact Helement].
  exfalso. apply andb_prop in E2. destruct E2 as [E2 E3].
  apply andb_prop in E2. destruct E2 as [E2 E2'].
  unfold is_char in E2, E2'. apply Ascii.eqb_eq in E2, E2'. subst c c2.
  destruct name'' as [|d name''']; [discriminate|].
  simpl in E3. cbn [ContainsSeparator] in Hn.
  rewrite E3 in Hn. simpl in Hn. discriminate.
Qed.

Lemma string_of_rev_inj (out : list ascii) (s : string) :
  string_of_list_ascii (rev out) = s -> out = rev (list_ascii_of_string s).
Proof.
  intros <-. rewrite list_ascii_of_string_of_list_ascii, rev_involutive. reflexivity.
Qed.

Lemma string_of_list_ascii_app l1 l2 :
  string_of_list_ascii (l1 ++ l2) = string_of_list_ascii l1 +:+ string_of_list_ascii l2.
Proof. induction l1 as [|c l1 IH]; [reflexivity|]. simpl. rewrite IH. reflexivity. Qed.

Lemma string_of_joined (dir name : list ascii) :
  string_of_list_ascii (rev (rev name ++ Separator :: rev dir)) =
  string_of_list_ascii dir +:+ "/" +:+ string_of_list_ascii name.
Proof.
  rewrite rev_app_distr, rev_involutive. simpl. rewrite rev_involutive, <- (assoc app).
  rewrite string_of_list_ascii_app. reflexivity.
Qed.

Lemma length_list_ascii s : length (list_ascii_of_string s) = String.length s.
Proof. induction s as [|c s IH]; [reflexivity|]. simpl. rewrite IH. reflexivity. Qed.

Lemma Clean_entry dir name :
  Clean dir = dir -> dir <> "." -> dir <> "/" -> entryName name = true ->
  Clean (dir +:+ "/" +:+ name) = dir +:+ "/" +:+ name.
Proof.
  intros Hclean Hdot Hroot Hname.
  destruct dir as [|c d]; [discriminate|].
  unfold Clean in *. rewrite append_cons.
  assert (Hs : endsElement ("/" +:+ name) = true) by reflexivity.
  destruct (is_char c Separator) eqn:Hc.
  - rewrite (cleanLoop_app true _ Hs (String.length d)) by lia.
    destruct (cleanLoop true d false [Separator] 1) as [out dd].
    destruct out as [|x out']; [congruence|].
    apply string_of_rev_inj in Hclean.
    change ("/" +:+ name) with (String "/" name). cbn [cleanLoop]. simpl is_char. cbv iota.
    rewrite cleanLoop_entry; [|exact Hname|].
    + destruct (rev (list_ascii_of_string name) ++ Separator :: x :: out') eqn:E.
      { apply (f_equal (@length ascii)) in E. rewrite length_app in E. simpl in E. lia. }
      rewrite <- E, Hclean, string_of_joined, !string_of_list_ascii_of_string.
      reflexivity.
    + rewrite Hclean, length_rev, length_list_ascii. simpl.
      destruct d; [|simpl; lia].
      unfold is_char in Hc. apply Ascii.eqb_eq in Hc. subst c.
      exfalso. apply Hroot. reflexivity.
  - rewrite <- append_cons.
    rewrite (cleanLoop_app false _ Hs (String.length (String c d))) by lia.
    destruct (cleanLoop false (String c d) false [] 0) as [out dd].
    destruct out as [|x out']; [congruence|].
    apply string_of_rev_inj in Hclean.
    change ("/" +:+ name) with (String "/" name). cbn [cleanLoop]. simpl is_char. cbv iota.
    rewrite cleanLoop_entry; [|exact Hname|simpl; lia].
    destruct (rev (list_ascii_of_string name) ++ Separator :: x :: out') eqn:E.
    { apply (f_equal (@length ascii)) in E. rewrite length_app in E. simpl in E. lia. }
    rewrite <- E, Hclean, string_of_joined, !string_of_list_ascii_of_string.
    reflexivity.
Qed.

(** X12. For a directory path that [filepath.Clean] leaves as it is,
    other than "." and "/", and the name of a directory entry,
    [filepath.Join] returns the path, a separator and the name, and the
    result is again a path that Clean leaves as it is: the paths the
    walk builds below a clean root are the ones written [Join] here,
    at every depth. *)
Theorem Join_of_clean_path (dir name : string) :
  Clean dir = dir -> dir <> "." -> dir <> "/" -> entryName name = true ->
  join [dir; name] = Join dir name /\
  Clean (Join dir name) = Join dir name.
Proof.
  intros Hclean Hdot Hroot Hname.
  pose proof (Clean_entry dir name Hclean Hdot Hroot Hname) as H.
  split; [|exact H].
  unfold join. destruct dir as [|c d]; [discriminate|].
  simpl is_empty. cbv iota. exact H.
Qed.

Lemma Join_of_clean_path_witness :
  (Clean "/home/u" = "/home/u" /\ "/home/u" <> "." /\ "/home/u" <> "/" /\
   entryName "Desktop" = true) /\
  join ["/home/u"; "Desktop"] = Join "/home/u" "Desktop" /\
  Clean (Join "/home/u" "Desktop") = Join "/home/u" "Desktop".
Proof.
  split; [repeat split; (reflexivity || discriminate)|].
  apply (Join_of_clean_path "/home/u" "Desktop"); (reflexivity || discriminate).
Defined.

(** ** A line that does not fit the buffer *)

Lemma IndexByte_line l rest c :
  bufio.IndexByte l c = None -> bufio.IndexByte (l ++ c :: rest) c = Some (length l).
Proof.
  induction l as [|x l IH]; simpl.
  - intros _. rewrite (Byte.byte_dec_lb eq_refl). reflexivity.
  - destruct (Byte.eqb x c); [discriminate|].
    destruct (bufio.IndexByte l c); [discriminate|].
    intros _. rewrite IH by reflexivity. reflexivity.
Qed.

(** The bytes of some lines, each with its newline. *)
Definition linesBytes (lines : list (list Byte.byte)) : list Byte.byte :=
  concat (map (fun l => l ++ [bufio.newline]) lines).

(** A line the scanner can return: without newline, and shorter than
    the buffer. *)
Definition fitsBuffer (l : list Byte.byte) : Prop :=
  bufio.IndexByte l bufio.newline = None /\ (length l < bufio.MaxScanTokenSize)%nat.

Lemma scanLoop_long_line lines : forall long e n,
  Forall fitsBuffer lines ->
  bufio.IndexByte (take bufio.MaxScanTokenSize long) bufio.newline = None ->
  (bufio.MaxScanTokenSize <= length long)%nat ->
  - 2^63 <= n < 2^63 ->
  scanLoop {| bufio.unread := linesBytes lines ++ long; bufio.readerErr := e |} n =
  (wrap64 (n + Z.of_nat (length lines)), Some ErrTooLong).
Proof.
  induction lines as [|l lines IH]; intros long e n Hfit Hlong Hlen Hn.
  - simpl. rewrite (scanLoop_too_long _ _ _ Hlong Hlen).
    rewrite Z.add_0_r, wrap64_small by exact Hn. reflexivity.
  - inversion Hfit as [|? ? [Hnl Hshort] Hfit']; subst.
    assert (Hshape : linesBytes (l :: lines) ++ long =
                     l ++ bufio.newline :: (linesBytes lines ++ long)).
    { unfold linesBytes. simpl. rewrite <- !app_assoc. reflexivity. }
    rewrite Hshape.
    rewrite scanLoop_eq. unfold bufio.Scan. cbn [bufio.unread bufio.readerErr].
    rewrite (IndexByte_take _ _ (length l) _ (IndexByte_line l _ _ Hnl)) by exact Hshort.
    assert (Hdrop : drop (S (length l)) (l ++ bufio.newline :: (linesBytes lines ++ long)) =
                    linesBytes lines ++ long).
    { change (l ++ bufio.newline :: (linesBytes lines ++ long))
        with (l ++ [bufio.newline] ++ (linesBytes lines ++ long)).
      rewrite (assoc app). apply drop_app_length'. rewrite length_app. simpl. lia. }
    rewrite Hdrop.
    rewrite (IH long e (int_add n 1) Hfit' Hlong Hlen) by apply wrap64_range.
    unfold int_add. rewrite wrap64_add_l. do 2 f_equal. simpl length. lia.
Qed.

(** X13. When a file begins with complete lines that fit the scanner's
    buffer and goes on with 65536 bytes or more without a newline, the
    count ends there without an error being reported: processFile
    records the file with the number of lines before that point, and
    the size of the whole file, while the first version gets
    ErrTooLong from countLines and records nothing for the file. *)
Theorem long_line_ends_the_count (fs : FileSystem) (p : string) (file : OpenFile) (size : Z)
    (lines : list (list Byte.byte)) (long : list Byte.byte) :
  fs p = inr file ->
  Stat file = inr size ->
  content file = linesBytes lines ++ long ->
  Forall fitsBuffer lines ->
  bufio.IndexByte (take bufio.MaxScanTokenSize long) bufio.newline = None ->
  (bufio.MaxScanTokenSize <= length long)%nat ->
  Z.of_nat (length lines) < 2^63 ->
  measure fs p = Some (Z.of_nat (length lines), size) /\
  V0.countLines fs p = (Z.of_nat (length lines), Some ErrTooLong) /\
  (forall language, V0.counted fs {| path := p; language := language |} = []).
Proof.
  intros Hopen Hstat Hcontent Hfit Hlong Hlen Hcount.
  assert (Hscan : scanLoop (bufio.NewScanner file) 0 =
                  (Z.of_nat (length lines), Some ErrTooLong)).
  { unfold bufio.NewScanner. rewrite Hcontent.
    rewrite (scanLoop_long_line lines long _ 0 Hfit Hlong Hlen) by lia.
    rewrite wrap64_small by lia. reflexivity. }
  split; [|split].
  - unfold measure. rewrite Hopen, Hstat, Hscan. reflexivity.
  - unfold V0.countLines. rewrite Hopen. exact Hscan.
  - intros language. unfold V0.counted, V0.countLines. simpl. rewrite Hopen, Hscan. reflexivity.
Qed.

Lemma long_line_ends_the_count_witness :
  Examples.lateDisk "/home/u/Desktop/bundle.js" = inr Examples.lateLongLine /\
  measure Examples.lateDisk "/home/u/Desktop/bundle.js" = Some (Z.of_nat 1, 65538) /\
  V0.countLines Examples.lateDisk "/home/u/Desktop/bundle.js" =
    (Z.of_nat 1, Some ErrTooLong) /\
  (forall language,
     V0.counted Examples.lateDisk
       {| path := "/home/u/Desktop/bundle.js"; language := language |} = []).
Proof.
  split; [reflexivity|].
  apply (long_line_ends_the_count Examples.lateDisk "/home/u/Desktop/bundle.js"
           Examples.lateLongLine 65538 [[Byte.x62]]
           (replicate bufio.MaxScanTokenSize Byte.x61)).
  - reflexivity.
  - reflexivity.
  - reflexivity.
  - constructor; [|constructor]. split; [reflexivity|].
    apply Nat.ltb_lt. vm_compute. reflexivity.
  - vm_compute. reflexivity.
  - apply Nat.leb_le. vm_compute. reflexivity.
  - simpl. lia.
Defined.

(** ** A row is the sum over the files of its language *)

(** The counted files of a language. *)
Definition ofLanguage (language : string) (rs : list Counted) : list Counted :=
  List.filter (fun r => String.eqb (lang r) language) rs.

Definition sumZ (f : Counted -> Z) (rs : list Counted) : Z :=
  foldr (fun r acc => f r + acc) 0 rs.

(** The row of some counted files of one language: how many there are,
    and their lines and bytes, in the integers of the machine. *)
Definition rowOf (rs : list Counted) : option LanguageStats :=
  match rs with
  | [] => None
  | _ :: _ => Some {| FileCount := wrap64 (Z.of_nat (length rs));
                      LineCount := wrap64 (sumZ lines rs);
                      ByteCount := wrap64 (sumZ bytes rs);
                      mutex := false |}
  end.

Lemma aggregate_row rs language :
  aggregate rs ∅ !! language = rowOf (ofLanguage language rs).
Proof.
  induction rs as [|r rs IH]; [apply lookup_empty|].
  cbn [aggregate foldr]. fold (aggregate rs ∅). unfold record.
  unfold ofLanguage in *. cbn [List.filter].
  destruct (String.eqb (lang r) language) eqn:E.
  - apply String.eqb_eq in E. subst language.
    rewrite lookup_insert_eq, IH.
    destruct (List.filter _ rs) as [|r' rs'] eqn:F.
    + unfold rowOf, bump, int_add, sumZ. simpl. rewrite !Z.add_0_r. reflexivity.
    + unfold rowOf, bump, int_add. cbn [default id FileCount LineCount ByteCount mutex].
      rewrite !wrap64_add_l. unfold sumZ. cbn [foldr length].
      do 2 f_equal; f_equal; lia.
  - apply String.eqb_neq in E. rewrite lookup_insert_ne by exact E. exact IH.
Qed.

(** X14. When all workers have exited, whatever the interleaving was,
    the table has a row for a language exactly when a file of that
    language was counted, and the row holds the number of these files
    and the sums of their lines and of their bytes (in 64-bit
    integers). *)
Theorem row_is_sum_of_its_files (fs : FileSystem) (numWorkers : nat)
    (tasks : list FileResult) (st : pipeline) (language : string) :
  (0 < numWorkers)%nat ->
  reachable fs numWorkers tasks st ->
  drained st ->
  stats st !! language = rowOf (ofLanguage language (countedAll fs tasks)).
Proof.
  intros Hn Hreach Hdr.
  rewrite (drained_stats _ _ _ _ Hn Hreach Hdr). apply aggregate_row.
Qed.

Lemma row_is_sum_of_its_files_witness :
  (0 < 1)%nat /\
  stats (finalState 1 (runSequential Examples.disk Examples.twoTasks)) !! "Go" =
  rowOf (ofLanguage "Go" (countedAll Examples.disk Examples.twoTasks)).
Proof.
  split; [lia|].
  apply (row_is_sum_of_its_files Examples.disk 1 Examples.twoTasks
           (finalState 1 (runSequential Examples.disk Examples.twoTasks)) "Go").
  - lia.
  - apply run_complete. lia.
  - apply drained_finalState.
Defined.

(** ** The first version and the worker pool count alike *)

(** An entry of the worker pool's table without its byte count. *)
Definition withoutBytes (e : LanguageStats) : V0.LanguageStas :=
  {| V0.FileCount := FileCount e; V0.LineCount := LineCount e; V0.mutex := false |}.

Definition withoutSize (r : Counted) : V0.Counted :=
  {| V0.lang := lang r; V0.lines := lines r |}.

Lemma record_withoutBytes r T :
  withoutBytes <$> record r T = V0.record (withoutSize r) (withoutBytes <$> T).
Proof.
  unfold record, V0.record. rewrite fmap_insert, lookup_fmap. simpl.
  destruct (T !! lang r) as [e|]; reflexivity.
Qed.

Lemma aggregate_withoutBytes rs :
  withoutBytes <$> aggregate rs ∅ = V0.aggregate (map withoutSize rs) ∅.
Proof.
  induction rs as [|r rs IH]; simpl.
  - apply fmap_empty.
  - rewrite record_withoutBytes, IH. reflexivity.
Qed.

(** The file of the task, when it opens, can be stat'ed and is read to
    its end without an error. *)
Definition readsWell (fs : FileSystem) (task : FileResult) : Prop :=
  forall file, fs (path task) = inr file ->
    (exists size, Stat file = inr size) /\
    snd (scanLoop (bufio.NewScanner file) 0) = None.

Lemma counted_withoutSize fs task :
  readsWell fs task -> V0.counted fs task = map withoutSize (counted fs task).
Proof.
  intros Hw. unfold V0.counted, counted, V0.countLines, measure.
  destruct (fs (path task)) as [err|file] eqn:E; [reflexivity|].
  destruct (Hw file E) as [[size Hsize] Hscan]. rewrite Hsize.
  destruct (scanLoop (bufio.NewScanner file) 0) as [lineCount err]. simpl in Hscan.
  subst err. reflexivity.
Qed.

Lemma countedAll_withoutSize fs tasks :
  Forall (readsWell fs) tasks ->
  V0.countedAll fs tasks = map withoutSize (countedAll fs tasks).
Proof.
  induction 1 as [|task tasks Htask _ IH]; [reflexivity|].
  unfold V0.countedAll, countedAll in *. simpl.
  rewrite map_app, IH, (counted_withoutSize _ _ Htask). reflexivity.
Qed.

(** X15. On the same files, when every file that opens can be stat'ed
    and is read to its end without an error, the first version and the
    worker-pool versions end with the same languages and the same file
    and line counts: the later versions only add the byte count. *)
Theorem versions_count_alike (fs : FileSystem) (tasks : list FileResult)
    (numWorkers : nat) (st : pipeline) (st0 : V0.program) :
  Forall (readsWell fs) tasks ->
  (0 < numWorkers)%nat ->
  reachable fs numWorkers tasks st -> drained st ->
  V0.reachable fs tasks st0 -> V0.drained st0 ->
  V0.stats st0 = withoutBytes <$> stats st.
Proof.
  intros Hwell Hn Hreach Hdr Hreach0 Hdr0.
  rewrite (drained_stats _ _ _ _ Hn Hreach Hdr).
  rewrite (V0.drained_stats_V0 _ _ _ Hreach0 Hdr0).
  rewrite aggregate_withoutBytes, (countedAll_withoutSize _ _ Hwell). reflexivity.
Qed.

Lemma versions_count_alike_witness :
  Forall (readsWell Examples.disk) Examples.twoTasks /\
  V0.stats (V0.finalState Examples.disk Examples.twoTasks) =
  withoutBytes <$> stats (finalState 1 (runSequential Examples.disk Examples.twoTasks)).
Proof.
  assert (Hwell : Forall (readsWell Examples.disk) Examples.twoTasks).
  { constructor; [|constructor; [|constructor]];
      intros file Hfile; vm_compute in Hfile; injection Hfile as <-;
      (split; [eexists; reflexivity|vm_compute; reflexivity]). }
  split; [exact Hwell|].
  apply (versions_count_alike Examples.disk Examples.twoTasks 1
           (finalState 1 (runSequential Examples.disk Examples.twoTasks))
           (V0.finalState Examples.disk Examples.twoTasks)).
  - exact Hwell.
  - lia.
  - apply run_complete. lia.
  - apply drained_finalState.
  - apply V0.run_complete_V0.
  - apply V0.drained_finalState_V0.
Defined.

(** ** The pipeline ends *)

Section PipelineEnds.
Variable fs : FileSystem.

Lemma workers_split (ws : list worker) :
  Forall (fun w => w = Exited) ws \/
  exists ws1 w ws2, ws = ws1 ++ w :: ws2 /\ w <> Exited.
Proof.
  induction ws as [|w ws IH]; [left; constructor|].
  assert (Hw : w = Exited \/ w <> Exited)
    by (destruct w; [right; discriminate| right; discriminate| right; discriminate|left; reflexivity]).
  destruct Hw as [->|Hne].
  - destruct IH as [IH|(ws1 & w' & ws2 & -> & Hne)].
    + left. constructor; [reflexivity|exact IH].
    + right. exists (Exited :: ws1), w', ws2. split; [reflexivity|exact Hne].
  - right. exists [], w, ws. split; [reflexivity|exact Hne].
Qed.

Lemma holder_split (ws : list worker) :
  (0 < holders ws)%nat ->
  exists ws1 at_ r ws2, ws = ws1 ++ Recording at_ r :: ws2 /\ at_ <> L175.
Proof.
  induction ws as [|w ws IH]; [unfold holders; simpl; lia|].
  rewrite holders_cons. destruct (holdsMutex w) eqn:E.
  - intros _. destruct w as [| |at_ r|]; try discriminate.
    exists [], at_, r, ws. split; [reflexivity|]. intros ->. discriminate.
  - intros H. destruct IH as (ws1 & at_ & r & ws2 & -> & Hne); [lia|].
    exists (w :: ws1), at_, r, ws2. split; [reflexivity|exact Hne].
Qed.

(** A worker that holds the mutex has a next statement. *)
Lemma holder_steps ts ch cl ws1 at_ r ws2 T m :
  at_ <> L175 ->
  exists st', step fs (Pipeline ts ch cl (ws1 ++ Recording at_ r :: ws2) T m false) st'.
Proof.
  intros Hne.
  assert (Hat : at_ = L182 \/ inLocked at_ = true)
    by (destruct at_; try (right; reflexivity); [congruence|left; reflexivity]).
  destruct Hat as [->|Hin].
  - eexists. apply step_unlock.
  - destruct (lockedStep at_ r T) as [[at' T']|] eqn:E.
    + eexists. eapply step_locked; eassumption.
    + eexists. eapply step_panic; eassumption.
Qed.

Lemma progress n tasks st :
  reachable fs n tasks st -> drained st \/ exists st', step fs st st'.
Proof.
  intros Hreach.
  destruct (invariant_reachable fs _ _ _ Hreach) as (Hp & Hh & _).
  destruct st as [ts ch cl ws T m p]. simpl in *. subst p.
  destruct (workers_split ws) as [Hall|(ws1 & w & ws2 & -> & Hne)]; [left; exact Hall|].
  right. destruct w as [|task|at_ r|]; [| | |congruence].
  - (* at the channel *)
    destruct ch as [|task ch].
    + destruct cl.
      * eexists. apply step_exit.
      * destruct ts as [|task ts].
        -- eexists. apply step_close.
        -- eexists. apply step_send. simpl. unfold chanCap. lia.
    + eexists. apply step_receive.
  - eexists. apply step_measure.
  - assert (Hat : at_ = L175 \/ at_ <> L175)
      by (destruct at_; try (right; discriminate); left; reflexivity).
    destruct Hat as [->|Hat]; [|apply holder_steps, Hat].
    destruct m.
    + destruct (holder_split (ws1 ++ Recording L175 r :: ws2)) as (ws1' & at' & r' & ws2' & E & Hat');
        [lia|].
      rewrite E. apply holder_steps, Hat'.
    + eexists. apply step_lock.
Qed.

(** The statements a worker has yet to run before it is back at the
    channel, and one more for leaving the loop. *)
Definition workerWeight (w : worker) : nat :=
  match w with
  | Exited => 0
  | Receiving => 1
  | Recording L182 _ => 2
  | Recording L181 _ => 3
  | Recording L180 _ => 4
  | Recording L179 _ => 5
  | Recording L176 _ => 6
  | Recording L175 _ => 7
  | Measuring _ => 8
  end.

Definition weight (st : pipeline) : nat :=
  9 * length (toSend st) + 8 * length (filesChan st)
  + list_sum (map workerWeight (workers st))
  + (if closed st then 0 else 1) + (if panicked st then 0 else 1).

Lemma weight_middle ws1 w ws2 :
  list_sum (map workerWeight (ws1 ++ w :: ws2)) =
  (list_sum (map workerWeight ws1) + workerWeight w + list_sum (map workerWeight ws2))%nat.
Proof. rewrite map_app, list_sum_app. simpl. lia. Qed.

Lemma step_weight st st' : step fs st st' -> (weight st' < weight st)%nat.
Proof.
  intros Hstep. unfold weight.
  destruct Hstep; simpl; rewrite ?weight_middle, ?length_app; simpl; try lia.
  - (* measure *)
    unfold afterMeasure. destruct (measure fs (path task)) as [[? ?]|]; simpl; lia.
  - (* a statement under the mutex *)
    destruct at_; try discriminate; simpl in *.
    + injection H0 as <- <-. simpl. lia.
    + destruct (incFileCount (lang r) T); [|discriminate]. injection H0 as <- <-. simpl. lia.
    + destruct (addLineCount (lines r) (lang r) T); [|discriminate].
      injection H0 as <- <-. simpl. lia.
    + destruct (addByteCount (bytes r) (lang r) T); [|discriminate].
      injection H0 as <- <-. simpl. lia.
Qed.

Lemma nsteps_weight k st st' :
  nsteps (step fs) k st st' -> (k + weight st' <= weight st)%nat.
Proof.
  induction 1 as [|k x y z Hstep _ IH]; [lia|].
  apply step_weight in Hstep. lia.
Qed.

Lemma weight_start n tasks : weight (start n tasks) = (9 * length tasks + n + 2)%nat.
Proof.
  unfold weight, start. simpl.
  assert (H : list_sum (map workerWeight (replicate n Receiving)) = n).
  { induction n as [|n IH]; [reflexivity|]. simpl. rewrite IH. reflexivity. }
  rewrite H. lia.
Qed.

(** *** Files that do not answer *)

(** The files of the model answer: [measure] is a function.  Whether
    the program ends hangs also on files that do not: os.Open waits on
    a FIFO that nobody writes to, and the scan of an endless device
    never comes to an end.  [answers] tells by its path whether a file
    answers.  A step is then a step of the pipeline other than the
    measurement (lines 158-173) of a file that does not answer. *)
Variable answers : string -> bool.

Definition measures (task : FileResult) (st st' : pipeline) : Prop :=
  exists ts ch cl ws1 ws2 T m,
    st = Pipeline ts ch cl (ws1 ++ Measuring task :: ws2) T m false /\
    st' = Pipeline ts ch cl (ws1 ++ afterMeasure fs task :: ws2) T m false.

Definition answeredStep (st st' : pipeline) : Prop :=
  step fs st st' /\ forall task, measures task st st' -> answers (path task) = true.

Definition taskAnswers (task : FileResult) : Prop := answers (path task) = true.

Definition workerAnswers (w : worker) : Prop :=
  match w with
  | Measuring task => taskAnswers task
  | _ => True
  end.

(** Every file that is still to be measured answers. *)
Definition allAnswer (st : pipeline) : Prop :=
  Forall taskAnswers (toSend st) /\
  Forall taskAnswers (filesChan st) /\
  Forall workerAnswers (workers st).

Lemma allAnswer_start n tasks : Forall taskAnswers tasks -> allAnswer (start n tasks).
Proof.
  intros H. unfold allAnswer, start. simpl. split; [exact H|]. split; [constructor|].
  apply Forall_forall. intros w Hw. apply elem_of_replicate in Hw.
  destruct Hw as [-> _]. exact I.
Qed.

Lemma allAnswer_step st st' : allAnswer st -> step fs st st' -> allAnswer st'.
Proof.
  intros (Hts & Hch & Hws) Hstep. unfold allAnswer.
  destruct Hstep; simpl in *;
    rewrite ?Forall_app, ?Forall_cons, ?Forall_nil in *; simpl in *;
    try tauto.
  unfold afterMeasure. destruct (measure fs (path task)) as [[? ?]|]; simpl; tauto.
Qed.

Lemma answeredStep_step st st' : answeredStep st st' -> step fs st st'.
Proof. intros [H _]. exact H. Qed.

Lemma answered_reachable n tasks st :
  Forall taskAnswers tasks ->
  rtc answeredStep (start n tasks) st ->
  reachable fs n tasks st /\ allAnswer st.
Proof.
  intros Htasks Hrun.
  refine (rtc_ind_r (R := answeredStep)
            (fun st => reachable fs n tasks st /\ allAnswer st) _ _ _ _ Hrun).
  - split; [apply rtc_refl|apply allAnswer_start, Htasks].
  - intros y z _ [Hstep _] [Hreach Hall]. split.
    + eapply rtc_r; eassumption.
    + eapply allAnswer_step; eassumption.
Qed.

(** Where every file to come answers, a step is an answered step. *)
Lemma allAnswer_answered st st' : allAnswer st -> step fs st st' -> answeredStep st st'.
Proof.
  intros (_ & _ & Hws) Hstep. split; [exact Hstep|].
  intros task (ts & ch & cl & ws1 & ws2 & T & m & -> & _). simpl in Hws.
  rewrite Forall_app, Forall_cons in Hws. tauto.
Qed.

Lemma nsteps_answered k st st' :
  nsteps answeredStep k st st' -> nsteps (step fs) k st st'.
Proof.
  induction 1 as [|k x y z [Hstep _] _ IH]; [constructor|].
  econstructor; eassumption.
Qed.

(** From a state that the pipeline can reach it can run to its end. *)
Lemma runs_to_the_end n tasks : forall w st,
  (weight st <= w)%nat ->
  reachable fs n tasks st -> allAnswer st ->
  exists st', rtc answeredStep st st' /\ drained st'.
Proof.
  induction w as [|w IH]; intros st Hw Hreach Hall.
  - destruct (progress n tasks st Hreach) as [Hdr|[st' Hstep]].
    + exists st. split; [apply rtc_refl|exact Hdr].
    + apply step_weight in Hstep. lia.
  - destruct (progress n tasks st Hreach) as [Hdr|[st' Hstep]].
    + exists st. split; [apply rtc_refl|exact Hdr].
    + destruct (IH st') as (st'' & Hrun & Hdr).
      * apply step_weight in Hstep. lia.
      * eapply rtc_r; eassumption.
      * eapply allAnswer_step; eassumption.
      * exists st''. split; [|exact Hdr].
        eapply rtc_l; [apply allAnswer_answered; eassumption|exact Hrun].
Qed.

Lemma middle_singleton {A} (l1 l2 : list A) (x y : A) :
  l1 ++ x :: l2 = [y] -> l1 = [] /\ x = y /\ l2 = [].
Proof.
  destruct l1 as [|a l1]; simpl.
  - intros [= -> ->]. auto.
  - intros [= -> H]. destruct l1; discriminate.
Qed.
End PipelineEnds.

(** X16. The worker pool cannot deadlock on files that answer: when
    every file the walk sends answers (os.Open, Stat and the reads
    return, and the content ends), then in every state the pipeline can
    reach, with any number of workers, either all workers have exited
    (and wg.Wait returns) or some goroutine has a statement it can
    run.  (A file that does not answer, such as a FIFO, holds its
    worker for ever: [pool_waits_for_silent_file].) *)
Theorem pool_never_stuck (fs : FileSystem) (answers : string -> bool)
    (numWorkers : nat) (tasks : list FileResult) (st : pipeline) :
  Forall (fun task => answers (path task) = true) tasks ->
  rtc (answeredStep fs answers) (start numWorkers tasks) st ->
  drained st \/ exists st', answeredStep fs answers st st'.
Proof.
  intros Htasks Hrun.
  destruct (answered_reachable fs answers _ _ _ Htasks Hrun) as [Hreach Hall].
  destruct (progress fs _ _ _ Hreach) as [Hdr|[st' Hstep]]; [left; exact Hdr|].
  right. exists st'. apply allAnswer_answered; assumption.
Qed.

Lemma pool_never_stuck_witness :
  let answers := fun _ : string => true in
  Forall (fun task => answers (path task) = true) Examples.twoTasks /\
  (drained (start 2 Examples.twoTasks) \/
   exists st', answeredStep Examples.disk answers (start 2 Examples.twoTasks) st').
Proof.
  intros answers.
  assert (H : Forall (fun task => answers (path task) = true) Examples.twoTasks)
    by (repeat constructor).
  split; [exact H|].
  apply (pool_never_stuck Examples.disk answers 2 Examples.twoTasks _ H). apply rtc_refl.
Defined.

(** With one worker and one file, which does not answer, the pipeline
    comes to a state in which the worker is inside processFile and no
    goroutine can run: the program does not end. *)
Lemma pool_waits_for_silent_file (fs : FileSystem) (answers : string -> bool)
    (task : FileResult) :
  answers (path task) = false ->
  let st := Pipeline [] [] true [Measuring task] ∅ false false in
  rtc (answeredStep fs answers) (start 1 [task]) st /\
  ~ drained st /\
  forall st', ~ answeredStep fs answers st st'.
Proof.
  intros Hsilent st. split; [|split].
  - assert (Hidle : forall ts ch cl st',
              step fs (Pipeline ts ch cl [Receiving] ∅ false false) st' ->
              answeredStep fs answers (Pipeline ts ch cl [Receiving] ∅ false false) st').
    { intros ts ch cl st' Hstep. split; [exact Hstep|].
      intros task' (ts' & ch' & cl' & ws1 & ws2 & T & m & E & _).
      injection E as _ _ _ E _ _. symmetry in E.
      apply middle_singleton in E. destruct E as (_ & E & _). discriminate. }
    unfold start. simpl.
    eapply rtc_l; [apply Hidle, (step_send fs task [] []); simpl; unfold chanCap; lia|].
    eapply rtc_l; [apply Hidle, step_close|].
    eapply rtc_l; [apply Hidle, (step_receive fs [] task [] true [] [])|].
    apply rtc_refl.
  - unfold drained, st. simpl. intros H. inversion H as [|? ? Hw _]. discriminate.
  - intros st' [Hstep Hans].
    assert (Hm : measures fs task st st').
    { inversion Hstep; subst;
        repeat match goal with
               | H : _ ++ _ :: _ = [_] |- _ =>
                 apply middle_singleton in H; destruct H as (-> & H & ->);
                 try discriminate H; try (injection H as ->)
               end.
      exists [], [], true, [], [], ∅, false. split; reflexivity. }
    rewrite (Hans task Hm) in Hsilent. discriminate.
Qed.

(** X17. Every run of the worker pool on files that answer ends: with
    any scheduling the goroutines run at most nine statements for each
    file sent, one for each worker and two more, and from every state
    of the run the pipeline can go on until all workers have exited. *)
Theorem pool_runs_end (fs : FileSystem) (answers : string -> bool)
    (numWorkers : nat) (tasks : list FileResult) (k : nat) (st : pipeline) :
  Forall (fun task => answers (path task) = true) tasks ->
  nsteps (answeredStep fs answers) k (start numWorkers tasks) st ->
  (k <= 9 * length tasks + numWorkers + 2)%nat /\
  exists st', rtc (answeredStep fs answers) st st' /\ drained st'.
Proof.
  intros Htasks Hrun. split.
  - apply nsteps_answered, nsteps_weight in Hrun. rewrite weight_start in Hrun. lia.
  - destruct (answered_reachable fs answers numWorkers tasks st Htasks) as [Hreach Hall].
    { eapply rtc_nsteps_2. exact Hrun. }
    apply (runs_to_the_end fs answers numWorkers tasks (weight st) st);
      [lia|exact Hreach|exact Hall].
Qed.

Lemma pool_runs_end_witness :
  let answers := fun _ : string => true in
  let st := Pipeline (tail Examples.twoTasks)
              [hd {| path := ""; language := "" |} Examples.twoTasks]
              false [Receiving; Receiving] ∅ false false in
  (Forall (fun task => answers (path task) = true) Examples.twoTasks /\
   nsteps (answeredStep Examples.disk answers) 1 (start 2 Examples.twoTasks) st) /\
  (1 <= 9 * length Examples.twoTasks + 2 + 2)%nat /\
  exists st', rtc (answeredStep Examples.disk answers) st st' /\ drained st'.
Proof.
  intros answers st.
  assert (H : Forall (fun task => answers (path task) = true) Examples.twoTasks)
    by (repeat constructor).
  assert (Hrun : nsteps (answeredStep Examples.disk answers) 1 (start 2 Examples.twoTasks) st).
  { apply nsteps_once. apply allAnswer_answered; [apply allAnswer_start, H|].
    apply (step_send Examples.disk _ _ []). simpl. unfold chanCap. lia. }
  split; [split; [exact H|exact Hrun]|].
  exact (pool_runs_end Examples.disk answers 2 Examples.twoTasks 1 st H Hrun).
Defined.

(** ** The goroutines of the first version end *)

Section GoroutinesEnd.
Variable fs : FileSystem.

Lemma goroutines_split (gs : list V0.goroutine) :
  Forall (fun g => g = V0.Returned) gs \/
  exists gs1 g gs2, gs = gs1 ++ g :: gs2 /\ g <> V0.Returned.
Proof.
  induction gs as [|g gs IH]; [left; constructor|].
  assert (Hg : g = V0.Returned \/ g <> V0.Returned)
    by (destruct g; [right; discriminate|right; discriminate|left; reflexivity]).
  destruct Hg as [->|Hne].
  - destruct IH as [IH|(gs1 & g' & gs2 & -> & Hne)].
    + left. constructor; [reflexivity|exact IH].
    + right. exists (V0.Returned :: gs1), g', gs2. split; [reflexivity|exact Hne].
  - right. exists [], g, gs. split; [reflexivity|exact Hne].
Qed.

Lemma holder_split_V0 (gs : list V0.goroutine) :
  (0 < V0.holders gs)%nat ->
  exists gs1 at_ r gs2,
    gs = gs1 ++ V0.Recording at_ r :: gs2 /\ at_ <> V0.L95 /\
    V0.holders gs1 = 0%nat /\ (V0.holders gs = 1 -> V0.holders gs2 = 0)%nat.
Proof.
  induction gs as [|g gs IH]; [unfold V0.holders; simpl; lia|].
  rewrite V0.holders_cons_V0. destruct (V0.holdsMutex g) eqn:E.
  - intros _. destruct g as [|at_ r|]; try discriminate.
    exists [], at_, r, gs. split; [reflexivity|]. split; [intros ->; discriminate|].
    split; [reflexivity|lia].
  - intros H. destruct IH as (gs1 & at_ & r & gs2 & -> & Hne & H1 & H2); [lia|].
    exists (g :: gs1), at_, r, gs2. split; [reflexivity|]. split; [exact Hne|].
    split; [rewrite V0.holders_cons_V0, E; exact H1|].
    intros H'. apply H2. lia.
Qed.

(** The entry's mutex is free whenever a goroutine comes to lock it:
    when the rest of the locked region runs through, so does its first
    statement. *)
Lemma lockedStep_runs at_ r T T1 :
  V0.inLocked at_ = true ->
  V0.finish (V0.Recording at_ r) T = V0.Next T1 ->
  exists T', V0.lockedStep at_ r T = V0.Next T'.
Proof.
  destruct at_; try discriminate; intros _; simpl.
  - eauto.
  - destruct (V0.lockEntry (V0.lang r) T); try discriminate. eauto.
  - destruct (V0.incFileCount (V0.lang r) T); try discriminate. eauto.
  - destruct (V0.addLineCount (V0.lines r) (V0.lang r) T); try discriminate. eauto.
  - destruct (V0.unlockEntry (V0.lang r) T); try discriminate. eauto.
Qed.

Lemma holder_steps_V0 tasks ts gs1 at_ r gs2 T m :
  V0.invariant fs tasks (V0.Program ts (gs1 ++ V0.Recording at_ r :: gs2) T m false) ->
  at_ <> V0.L95 ->
  V0.holders gs1 = 0%nat -> V0.holders gs2 = 0%nat ->
  exists st', V0.step fs (V0.Program ts (gs1 ++ V0.Recording at_ r :: gs2) T m false) st'.
Proof.
  intros (_ & _ & (done & Hs & _)) Hne H1 H2. simpl in Hs.
  rewrite V0.settled_middle_V0 in Hs by assumption.
  assert (Hat : at_ = V0.L103 \/ V0.inLocked at_ = true)
    by (destruct at_; try (right; reflexivity); [congruence|left; reflexivity]).
  destruct Hat as [->|Hin].
  - eexists. apply V0.step_unlock.
  - destruct (lockedStep_runs _ _ _ _ Hin Hs) as [T' HT'].
    eexists. eapply V0.step_locked; eassumption.
Qed.

Definition goroutineWeight (g : V0.goroutine) : nat :=
  match g with
  | V0.Returned => 0
  | V0.Recording V0.L103 _ => 1
  | V0.Recording V0.L102 _ => 2
  | V0.Recording V0.L101 _ => 3
  | V0.Recording V0.L100 _ => 4
  | V0.Recording V0.L99 _ => 5
  | V0.Recording V0.L96 _ => 6
  | V0.Recording V0.L95 _ => 7
  | V0.Counting _ => 8
  end.

Definition weight_V0 (st : V0.program) : nat :=
  9 * length (V0.toLaunch st) + list_sum (map goroutineWeight (V0.goroutines st))
  + (if V0.panicked st then 0 else 1).

Lemma weight_middle_V0 gs1 g gs2 :
  list_sum (map goroutineWeight (gs1 ++ g :: gs2)) =
  (list_sum (map goroutineWeight gs1) + goroutineWeight g
   + list_sum (map goroutineWeight gs2))%nat.
Proof. rewrite map_app, list_sum_app. simpl. lia. Qed.

Lemma step_weight_V0 st st' : V0.step fs st st' -> (weight_V0 st' < weight_V0 st)%nat.
Proof.
  intros Hstep. unfold weight_V0.
  destruct Hstep; simpl; rewrite ?weight_middle_V0; simpl; try lia.
  - unfold V0.afterCount. destruct (V0.countLines fs (path task)) as [? [?|]]; simpl; lia.
  - destruct at_; try discriminate; simpl; lia.
Qed.

Lemma nsteps_weight_V0 k st st' :
  nsteps (V0.step fs) k st st' -> (k + weight_V0 st' <= weight_V0 st)%nat.
Proof.
  induction 1 as [|k x y z Hstep _ IH]; [lia|].
  apply step_weight_V0 in Hstep. lia.
Qed.
Lemma progress_V0 tasks st :
  V0.reachable fs tasks st -> V0.drained st \/ exists st', V0.step fs st st'.
Proof.
  intros Hreach.
  pose proof (V0.invariant_reachable_V0 fs _ _ Hreach) as Hinv.
  destruct st as [ts gs T m p].
  pose proof Hinv as (Hp & Hh & _). simpl in Hp, Hh. subst p.
  destruct ts as [|task ts]; [|right; eexists; apply V0.step_launch].
  destruct (goroutines_split gs) as [Hall|(gs1 & g & gs2 & -> & Hne)];
    [left; split; [reflexivity|exact Hall]|].
  right. destruct g as [task|at_ r|]; [| |congruence].
  - eexists. apply V0.step_count.
  - destruct m.
    + destruct (holder_split_V0 (gs1 ++ V0.Recording at_ r :: gs2))
        as (gs1' & at' & r' & gs2' & E & Hat' & H1 & H2); [lia|].
      rewrite E in *. eapply holder_steps_V0; [exact Hinv|exact Hat'|exact H1|].
      apply H2. exact Hh.
    + assert (Hat : at_ = V0.L95).
      { rewrite V0.holders_middle_V0 in Hh.
        destruct at_; simpl in Hh; try lia. reflexivity. }
      subst at_. eexists. apply V0.step_lock.
Qed.

(** *** Files that do not answer *)

(** As for the pool: a step is a step of the program other than the
    countLines (line 89) of a file that does not answer. *)
Variable answers : string -> bool.

Definition counts (task : FileResult) (st st' : V0.program) : Prop :=
  exists ts gs1 gs2 T m,
    st = V0.Program ts (gs1 ++ V0.Counting task :: gs2) T m false /\
    st' = V0.Program ts (gs1 ++ V0.afterCount fs task :: gs2) T m false.

Definition answeredStep_V0 (st st' : V0.program) : Prop :=
  V0.step fs st st' /\ forall task, counts task st st' -> answers (path task) = true.

Definition goroutineAnswers (g : V0.goroutine) : Prop :=
  match g with
  | V0.Counting task => taskAnswers answers task
  | _ => True
  end.

Definition allAnswer_V0 (st : V0.program) : Prop :=
  Forall (taskAnswers answers) (V0.toLaunch st) /\
  Forall goroutineAnswers (V0.goroutines st).

Lemma allAnswer_step_V0 st st' : allAnswer_V0 st -> V0.step fs st st' -> allAnswer_V0 st'.
Proof.
  intros (Hts & Hgs) Hstep. unfold allAnswer_V0.
  destruct Hstep; simpl in *;
    rewrite ?Forall_app, ?Forall_cons, ?Forall_nil in *; simpl in *;
    try tauto.
  unfold V0.afterCount. destruct (V0.countLines fs (path task)) as [? [?|]]; simpl; tauto.
Qed.

Lemma answered_reachable_V0 tasks st :
  Forall (taskAnswers answers) tasks ->
  rtc answeredStep_V0 (V0.start tasks) st ->
  V0.reachable fs tasks st /\ allAnswer_V0 st.
Proof.
  intros Htasks Hrun.
  refine (rtc_ind_r (R := answeredStep_V0)
            (fun st => V0.reachable fs tasks st /\ allAnswer_V0 st) _ _ _ _ Hrun).
  - split; [apply rtc_refl|]. split; [exact Htasks|constructor].
  - intros y z _ [Hstep _] [Hreach Hall]. split.
    + eapply rtc_r; eassumption.
    + eapply allAnswer_step_V0; eassumption.
Qed.

Lemma allAnswer_answered_V0 st st' :
  allAnswer_V0 st -> V0.step fs st st' -> answeredStep_V0 st st'.
Proof.
  intros (_ & Hgs) Hstep. split; [exact Hstep|].
  intros task (ts & gs1 & gs2 & T & m & -> & _). simpl in Hgs.
  rewrite Forall_app, Forall_cons in Hgs. tauto.
Qed.

Lemma nsteps_answered_V0 k st st' :
  nsteps answeredStep_V0 k st st' -> nsteps (V0.step fs) k st st'.
Proof.
  induction 1 as [|k x y z [Hstep _] _ IH]; [constructor|].
  econstructor; eassumption.
Qed.

Lemma runs_to_the_end_V0 tasks : forall w st,
  (weight_V0 st <= w)%nat ->
  V0.reachable fs tasks st -> allAnswer_V0 st ->
  exists st', rtc answeredStep_V0 st st' /\ V0.drained st'.
Proof.
  induction w as [|w IH]; intros st Hw Hreach Hall.
  - destruct (progress_V0 tasks st Hreach) as [Hdr|[st' Hstep]].
    + exists st. split; [apply rtc_refl|exact Hdr].
    + apply step_weight_V0 in Hstep. lia.
  - destruct (progress_V0 tasks st Hreach) as [Hdr|[st' Hstep]].
    + exists st. split; [apply rtc_refl|exact Hdr].
    + destruct (IH st') as (st'' & Hrun & Hdr).
      * apply step_weight_V0 in Hstep. lia.
      * eapply rtc_r; eassumption.
      * eapply allAnswer_step_V0; eassumption.
      * exists st''. split; [|exact Hdr].
        eapply rtc_l; [apply allAnswer_answered_V0; eassumption|exact Hrun].
Qed.
End GoroutinesEnd.

(** X18. The first version cannot deadlock on files that answer: when
    every file of the walk answers, then in every state the program can
    reach, either the walk is over and all goroutines have returned, or
    some goroutine has a statement it can run.  Moreover the mutex of a
    table entry is free whenever a goroutine comes to lock it: it is
    only taken under the table's mutex, so no goroutine ever waits for
    it. *)
Theorem goroutines_never_stuck (fs : FileSystem) (answers : string -> bool)
    (tasks : list FileResult) (st : V0.program) :
  Forall (fun task => answers (path task) = true) tasks ->
  rtc (answeredStep_V0 fs answers) (V0.start tasks) st ->
  (V0.drained st \/ exists st', answeredStep_V0 fs answers st st') /\
  (forall ts gs1 at_ r gs2 T m,
      st = V0.Program ts (gs1 ++ V0.Recording at_ r :: gs2) T m false ->
      V0.inLocked at_ = true ->
      V0.lockedStep at_ r T <> V0.Blocked).
Proof.
  intros Htasks Hrun.
  destruct (answered_reachable_V0 fs answers _ _ Htasks Hrun) as [Hreach Hall].
  pose proof (V0.invariant_reachable_V0 fs _ _ Hreach) as Hinv.
  split.
  - destruct (progress_V0 fs _ _ Hreach) as [Hdr|[st' Hstep]]; [left; exact Hdr|].
    right. exists st'. apply allAnswer_answered_V0; assumption.
  - intros ts gs1 at_ r gs2 T m -> Hin.
    destruct Hinv as (_ & Hh & (done & Hs & _)). simpl in Hh, Hs.
    pose proof (V0.inLocked_holds_V0 at_ r Hin) as Hhold.
    rewrite V0.holders_middle_V0, Hhold in Hh.
    destruct m; [|lia].
    rewrite V0.settled_middle_V0 in Hs by lia.
    destruct (lockedStep_runs _ _ _ _ Hin Hs) as [T' HT']. congruence.
Qed.

Lemma goroutines_never_stuck_witness :
  let answers := fun _ : string => true in
  Forall (fun task => answers (path task) = true) Examples.twoTasks /\
  (V0.drained (V0.start Examples.twoTasks) \/
   exists st', answeredStep_V0 Examples.disk answers (V0.start Examples.twoTasks) st') /\
  (forall ts gs1 at_ r gs2 T m,
      V0.start Examples.twoTasks =
        V0.Program ts (gs1 ++ V0.Recording at_ r :: gs2) T m false ->
      V0.inLocked at_ = true ->
      V0.lockedStep at_ r T <> V0.Blocked).
Proof.
  intros answers.
  assert (H : Forall (fun task => answers (path task) = true) Examples.twoTasks)
    by (repeat constructor).
  split; [exact H|].
  apply (goroutines_never_stuck Examples.disk answers Examples.twoTasks _ H). apply rtc_refl.
Defined.

(** With one file, which does not answer, the first version comes to a
    state in which the goroutine is inside countLines and nothing can
    run: wg.Wait does not return. *)
Lemma goroutine_waits_for_silent_file (fs : FileSystem) (answers : string -> bool)
    (task : FileResult) :
  answers (path task) = false ->
  let st := V0.Program [] [V0.Counting task] ∅ false false in
  rtc (answeredStep_V0 fs answers) (V0.start [task]) st /\
  ~ V0.drained st /\
  forall st', ~ answeredStep_V0 fs answers st st'.
Proof.
  intros Hsilent st. split; [|split].
  - eapply rtc_l; [|apply rtc_refl]. split; [apply (V0.step_launch fs task [] [])|].
    intros task' (ts & gs1 & gs2 & T & m & E & _).
    injection E as _ E _ _. destruct gs1; discriminate.
  - intros [_ H]. simpl in H. inversion H as [|? ? Hg _]. discriminate.
  - intros st' [Hstep Hans].
    assert (Hm : counts fs task st st').
    { inversion Hstep; subst;
        repeat match goal with
               | H : _ ++ _ :: _ = [_] |- _ =>
                 apply middle_singleton in H; destruct H as (-> & H & ->);
                 try discriminate H; try (injection H as ->)
               end.
      exists [], [], [], ∅, false. split; reflexivity. }
    rewrite (Hans task Hm) in Hsilent. discriminate.
Qed.

(** X19. Every run of the first version on files that answer ends:
    with any scheduling at most nine statements run for each file of
    the walk, and one more, and from every state of the run the program
    can go on until the walk is over and all goroutines have
    returned. *)
Theorem goroutine_runs_end (fs : FileSystem) (answers : string -> bool)
    (tasks : list FileResult) (k : nat) (st : V0.program) :
  Forall (fun task => answers (path task) = true) tasks ->
  nsteps (answeredStep_V0 fs answers) k (V0.start tasks) st ->
  (k <= 9 * length tasks + 1)%nat /\
  exists st', rtc (answeredStep_V0 fs answers) st st' /\ V0.drained st'.
Proof.
  intros Htasks Hrun. split.
  - apply nsteps_answered_V0, nsteps_weight_V0 in Hrun.
    unfold weight_V0 at 2 in Hrun. simpl in Hrun. lia.
  - destruct (answered_reachable_V0 fs answers tasks st Htasks) as [Hreach Hall].
    { eapply rtc_nsteps_2. exact Hrun. }
    apply (runs_to_the_end_V0 fs answers tasks (weight_V0 st) st);
      [lia|exact Hreach|exact Hall].
Qed.

Lemma goroutine_runs_end_witness :
  let answers := fun _ : string => true in
  let st := V0.Program (tail Examples.twoTasks)
              [V0.Counting (hd {| path := ""; language := "" |} Examples.twoTasks)]
              ∅ false false in
  (Forall (fun task => answers (path task) = true) Examples.twoTasks /\
   nsteps (answeredStep_V0 Examples.disk answers) 1 (V0.start Examples.twoTasks) st) /\
  (1 <= 9 * length Examples.twoTasks + 1)%nat /\
  exists st', rtc (answeredStep_V0 Examples.disk answers) st st' /\ V0.drained st'.
Proof.
  intros answers st.
  assert (H : Forall (fun task => answers (path task) = true) Examples.twoTasks)
    by (repeat constructor).
  assert (Hrun : nsteps (answeredStep_V0 Examples.disk answers) 1
                   (V0.start Examples.twoTasks) st).
  { apply nsteps_once. apply allAnswer_answered_V0.
    - split; [exact H|constructor].
    - apply (V0.step_launch Examples.disk _ _ []). }
  split; [split; [exact H|exact Hrun]|].
  exact (goroutine_runs_end Examples.disk answers Examples.twoTasks 1 st H Hrun).
Defined.

(** ** Insertion sort, on lists *)

Section Insertion.
Context {A : Type} (before : A -> A -> bool).

(** The inner loop seen from the element that moves: [leftRev] are the
    elements to its left, the nearest first. *)
Fixpoint sink (x : A) (leftRev : list A) : list A :=
  match leftRev with
  | y :: rest => if before x y then y :: sink x rest else x :: leftRev
  | [] => [x]
  end.

Fixpoint insertFrom (sortedRev rest : list A) : list A :=
  match rest with
  | [] => rev sortedRev
  | x :: rest' => insertFrom (sink x sortedRev) rest'
  end.

Definition insertionSorted (data : list A) : list A := insertFrom [] data.

Lemma sink_length x l : length (sink x l) = S (length l).
Proof.
  induction l as [|y l IH]; [reflexivity|].
  simpl. destruct (before x y); simpl; [rewrite IH|]; reflexivity.
Qed.

Lemma sink_perm x l : sink x l ≡ₚ x :: l.
Proof.
  induction l as [|y l IH]; [reflexivity|].
  simpl. destruct (before x y); [|reflexivity].
  rewrite IH. apply Permutation_swap.
Qed.

Lemma insertFrom_perm rest : forall sortedRev,
  insertFrom sortedRev rest ≡ₚ sortedRev ++ rest.
Proof.
  induction rest as [|x rest IH]; intros sortedRev; simpl.
  - rewrite app_nil_r. symmetry. apply Permutation_rev.
  - rewrite IH, sink_perm. apply Permutation_middle.
Qed.

Variable less : list A -> nat -> nat -> option bool.
Hypothesis less_reads : forall data i j,
  less data i j =
  match data !! i, data !! j with
  | Some x, Some y => Some (before x y)
  | _, _ => None
  end.

Lemma insertionInner_sink left : forall x right,
  gosort.insertionInner less 0 (left ++ x :: right) (length left) =
  Some (rev (sink x (rev left)) ++ right).
Proof.
  induction left as [|y left IH] using rev_ind; intros x right; [reflexivity|].
  rewrite length_app. simpl length. rewrite Nat.add_1_r.
  cbn [gosort.insertionInner]. simpl Nat.ltb.
  rewrite less_reads.
  assert (Hj : (left ++ [y]) ++ x :: right = left ++ y :: x :: right)
    by (rewrite <- (assoc app); reflexivity).
  rewrite Hj.
  assert (H1 : (left ++ y :: x :: right) !! S (length left) = Some x).
  { rewrite lookup_app_r by lia.
    replace (S (length left) - length left)%nat with 1%nat by lia. reflexivity. }
  assert (H2 : (left ++ y :: x :: right) !! length left = Some y).
  { rewrite lookup_app_r by lia. rewrite Nat.sub_diag. reflexivity. }
  rewrite H1, H2. rewrite rev_app_distr. simpl rev. cbn [sink app].
  destruct (before x y) eqn:E.
  - unfold gosort.Swap. rewrite H1, H2.
    assert (Hs : <[length left := x]> (<[S (length left) := y]> (left ++ y :: x :: right)) =
                 left ++ x :: y :: right).
    { rewrite !insert_app_r_alt by lia.
      replace (S (length left) - length left)%nat with 1%nat by lia.
      rewrite Nat.sub_diag. reflexivity. }
    rewrite Hs, IH. simpl rev. rewrite <- (assoc app). reflexivity.
  - simpl rev. rewrite rev_involutive, <- !(assoc app). reflexivity.
Qed.

Lemma insertionOuter_insertFrom rest : forall sortedRev,
  foldl (fun acc i => match acc with
                      | Some data => gosort.insertionInner less 0 data i
                      | None => None
                      end)
        (Some (rev sortedRev ++ rest)) (seq (length sortedRev) (length rest)) =
  Some (insertFrom sortedRev rest).
Proof.
  induction rest as [|x rest IH]; intros sortedRev.
  - simpl. rewrite app_nil_r. reflexivity.
  - simpl length. cbn [seq foldl].
    pose proof (insertionInner_sink (rev sortedRev) x rest) as H.
    rewrite length_rev in H. rewrite H, rev_involutive.
    rewrite <- (sink_length x sortedRev). apply IH.
Qed.

Lemma insertionSort_func_sorted data :
  gosort.insertionSort_func less data 0 (length data) = Some (insertionSorted data).
Proof.
  unfold gosort.insertionSort_func, insertionSorted.
  destruct data as [|x rest]; [reflexivity|].
  replace (length (x :: rest) - 1)%nat with (length rest) by (simpl; lia).
  apply (insertionOuter_insertFrom rest [x]).
Qed.

(** A slice of at most twelve elements is sorted by insertion, and
    nothing panics. *)
Lemma Slice_insertion data :
  (length data <= gosort.maxInsertion)%nat ->
  gosort.Slice less data = gosort.Returns (insertionSorted data).
Proof.
  intros Hlen. unfold gosort.Slice, gosort.pdqsort_func.
  rewrite Nat.sub_0_r.
  destruct (length data <=? gosort.maxInsertion)%nat eqn:E.
  - rewrite insertionSort_func_sorted. reflexivity.
  - apply Nat.leb_gt in E. lia.
Qed.

End Insertion.

Lemma StronglySorted_rev {A} (R : relation A) l :
  StronglySorted (flip R) l -> StronglySorted R (rev l).
Proof.
  induction 1 as [|x l Hl IH Hx]; [constructor|].
  simpl. apply StronglySorted_app_2.
  - intros x1 x2 H1 H2. apply list_elem_of_singleton in H2. subst x2.
    rewrite Forall_forall in Hx. apply Hx.
    apply list_elem_of_In, in_rev, list_elem_of_In. exact H1.
  - exact IH.
  - repeat constructor.
Qed.

Section InsertionOrder.
Context {A : Type} (before : A -> A -> bool) (le : relation A).
Context `{!Transitive le}.
Hypothesis before_le : forall x y, before x y = true -> le x y.
Hypothesis stays_le : forall x y, before x y = false -> le y x.

Lemma sink_sorted x l :
  StronglySorted (flip le) l -> StronglySorted (flip le) (sink before x l).
Proof.
  induction 1 as [|y l Hl IH Hy]; [repeat constructor|].
  simpl. destruct (before x y) eqn:E.
  - constructor; [exact IH|].
    rewrite Forall_forall. intros z Hz.
    rewrite (sink_perm before x l) in Hz.
    apply elem_of_cons in Hz. destruct Hz as [->|Hz].
    + apply before_le, E.
    + rewrite Forall_forall in Hy. apply Hy, Hz.
  - constructor; [constructor; assumption|].
    constructor; [apply stays_le, E|].
    eapply Forall_impl; [exact Hy|].
    intros z Hz. unfold flip in *. etransitivity; [exact Hz|apply stays_le, E].
Qed.

Lemma insertFrom_sorted rest : forall sortedRev,
  StronglySorted (flip le) sortedRev ->
  StronglySorted le (insertFrom before sortedRev rest).
Proof.
  induction rest as [|x rest IH]; intros sortedRev Hs; simpl.
  - apply StronglySorted_rev, Hs.
  - apply IH, sink_sorted, Hs.
Qed.

Lemma insertionSorted_sorted data : StronglySorted le (insertionSorted before data).
Proof. apply insertFrom_sorted. constructor. Qed.
End InsertionOrder.

(** Sorting with the negated comparison gives the reverse. *)
Section InsertionReverse.
Context {A : Type} (lt : A -> A -> bool).
Let le : relation A := fun x y => lt y x = false.
Context `{!Transitive le}.

Let asc := lt.
Let desc := fun x y => negb (lt x y).

Lemma sink_desc x P :
  StronglySorted le P ->
  sink desc x P =
  List.filter (fun y => negb (lt x y)) P ++ x :: List.filter (fun y => lt x y) P.
Proof.
  induction 1 as [|y P HP IH Hy]; [reflexivity|].
  simpl. unfold desc at 1. destruct (lt x y) eqn:E; simpl.
  - assert (Hall : Forall (fun z => lt x z = true) P).
    { eapply Forall_impl; [exact Hy|]. intros z Hz.
      destruct (lt x z) eqn:Ez; [reflexivity|].
      pose proof (transitivity (R := le) (x := y) (y := z) (z := x) Hz Ez) as Hxy.
      unfold le in Hxy. congruence. }
    assert (H1 : List.filter (fun z => negb (lt x z)) P = []).
    { clear -Hall. induction Hall as [|z P Hz _ IH]; [reflexivity|].
      simpl. rewrite Hz. exact IH. }
    assert (H2 : List.filter (fun z => lt x z) P = P).
    { clear -Hall. induction Hall as [|z P Hz _ IH]; [reflexivity|].
      simpl. rewrite Hz, IH. reflexivity. }
    rewrite H1, H2. reflexivity.
  - rewrite IH. reflexivity.
Qed.

Lemma sink_asc x P :
  StronglySorted le P ->
  rev (sink asc x (rev P)) =
  List.filter (fun y => negb (lt x y)) P ++ x :: List.filter (fun y => lt x y) P.
Proof.
  induction P as [|y P IH] using rev_ind; intros HP; [reflexivity|].
  apply StronglySorted_app in HP. destruct HP as (Hcross & HP & _).
  rewrite rev_app_distr. simpl. unfold asc at 1.
  rewrite !List.filter_app. simpl.
  destruct (lt x y) eqn:E; simpl.
  - rewrite (IH HP). rewrite app_nil_r, <- (assoc app). reflexivity.
  - assert (Hall : Forall (fun z => lt x z = false) P).
    { rewrite Forall_forall. intros z Hz.
      assert (Hzy : le z y) by (apply Hcross; [exact Hz|left]).
      exact (transitivity (R := le) (x := z) (y := y) (z := x) Hzy E). }
    assert (H1 : List.filter (fun z => negb (lt x z)) P = P).
    { clear -Hall. induction Hall as [|z P Hz _ IH]; [reflexivity|].
      simpl. rewrite Hz. simpl. rewrite IH. reflexivity. }
    assert (H2 : List.filter (fun z => lt x z) P = []).
    { clear -Hall. induction Hall as [|z P Hz _ IH]; [reflexivity|].
      simpl. rewrite Hz. exact IH. }
    rewrite H1, H2. rewrite rev_involutive. simpl.
    rewrite <- !(assoc app). reflexivity.
Qed.

Hypothesis lt_asym : forall x y, lt x y = true -> lt y x = false.

Lemma insertFrom_desc rest : forall sortedRev,
  StronglySorted le (rev sortedRev) ->
  insertFrom desc (rev sortedRev) rest = rev (insertFrom asc sortedRev rest).
Proof.
  induction rest as [|x rest IH]; intros sortedRev Hs; [reflexivity|].
  cbn [insertFrom].
  assert (Hstep : sink desc x (rev sortedRev) = rev (sink asc x sortedRev)).
  { rewrite (sink_desc x _ Hs). rewrite <- (rev_involutive sortedRev) at 3.
    rewrite (sink_asc x _ Hs). reflexivity. }
  rewrite Hstep. apply IH.
  apply StronglySorted_rev.
  apply (sink_sorted asc le).
  - intros a b H. unfold le. apply lt_asym, H.
  - intros a b H. exact H.
  - rewrite <- (rev_involutive sortedRev). apply (StronglySorted_rev (flip le)). exact Hs.
Qed.

Lemma insertionSorted_desc data :
  insertionSorted desc data = rev (insertionSorted asc data).
Proof. apply (insertFrom_desc data []). constructor. Qed.
End InsertionReverse.

Lemma nat_of_ascii_inj x y : nat_of_ascii x = nat_of_ascii y -> x = y.
Proof.
  intros H. rewrite <- (ascii_nat_embedding x), <- (ascii_nat_embedding y), H. reflexivity.
Qed.

Lemma string_less_asym a : forall b, string_less a b = true -> string_less b a = false.
Proof.
  induction a as [|x a IH]; intros [|y b]; simpl; try congruence.
  intros H. apply orb_true_iff in H. apply orb_false_iff.
  destruct H as [H|H].
  - apply Nat.ltb_lt in H. split; [apply Nat.ltb_ge; lia|].
    apply andb_false_iff. left. apply Nat.eqb_neq. lia.
  - apply andb_true_iff in H. destruct H as [He Hl]. apply Nat.eqb_eq in He.
    split; [apply Nat.ltb_ge; lia|]. rewrite (IH _ Hl). apply andb_false_r.
Qed.

Lemma string_less_total a : forall b,
  string_less a b = false -> string_less b a = false -> a = b.
Proof.
  induction a as [|x a IH]; intros [|y b]; simpl; try congruence.
  intros H1 H2. apply orb_false_iff in H1, H2.
  destruct H1 as [H1 H1'], H2 as [H2 H2'].
  apply Nat.ltb_ge in H1, H2.
  assert (E : nat_of_ascii x = nat_of_ascii y) by lia.
  rewrite E, Nat.eqb_refl in *. simpl in *.
  apply nat_of_ascii_inj in E. subst y. f_equal. apply IH; assumption.
Qed.

Lemma string_less_trans a : forall b c,
  string_less a b = true -> string_less b c = true -> string_less a c = true.
Proof.
  induction a as [|x a IH]; intros [|y b] [|z c]; simpl; try congruence.
  intros H1 H2. apply orb_true_iff in H1, H2. apply orb_true_iff.
  destruct H1 as [H1|H1], H2 as [H2|H2];
    rewrite ?andb_true_iff, ?Nat.ltb_lt, ?Nat.eqb_eq in *.
  - left. lia.
  - left. lia.
  - left. lia.
  - right. destruct H1 as [E1 L1], H2 as [E2 L2]. split; [lia|]. eapply IH; eassumption.
Qed.

(** a is not after b. *)
Definition string_le (a b : string) : Prop := string_less b a = false.

#[local] Instance string_le_trans : Transitive string_le.
Proof.
  unfold string_le. intros a b c Hab Hbc.
  destruct (string_less c a) eqn:Hca; [|reflexivity]. exfalso.
  destruct (string_less b c) eqn:Hlt.
  - rewrite (string_less_trans _ _ _ Hlt Hca) in Hab. discriminate.
  - assert (b = c) by (apply string_less_total; assumption).
    subst c. congruence.
Qed.

(** ** The order of the rows *)

(** Row x comes before row y in the ascending order of a field: the
    comparison of sortLanguageData before its reversal. *)
Definition keyLess (field : string) (x y : V1.LanguageData) : bool :=
  if String.eqb field "files" then FileCount (V1.Stats x) <? FileCount (V1.Stats y)
  else if String.eqb field "lines" then LineCount (V1.Stats x) <? LineCount (V1.Stats y)
  else if String.eqb field "size" then ByteCount (V1.Stats x) <? ByteCount (V1.Stats y)
  else string_less (V1.Name x) (V1.Name y).

(** Row x is not after row y in that order. *)
Definition keyLe (field : string) (x y : V1.LanguageData) : Prop :=
  if String.eqb field "files" then FileCount (V1.Stats x) <= FileCount (V1.Stats y)
  else if String.eqb field "lines" then LineCount (V1.Stats x) <= LineCount (V1.Stats y)
  else if String.eqb field "size" then ByteCount (V1.Stats x) <= ByteCount (V1.Stats y)
  else string_le (V1.Name x) (V1.Name y).

(** The order a sort option asks for. *)
Definition ordered (opt : V1.SortOption) : relation V1.LanguageData :=
  if String.eqb (V1.Direction opt) "desc" then flip (keyLe (V1.Field opt))
  else keyLe (V1.Field opt).

Lemma comparison_keyLess opt x y :
  V1.comparison opt x y =
  if String.eqb (V1.Direction opt) "desc" then negb (keyLess (V1.Field opt) x y)
  else keyLess (V1.Field opt) x y.
Proof. reflexivity. Qed.

Lemma keyLe_keyLess field x y : keyLe field x y <-> keyLess field y x = false.
Proof.
  unfold keyLe, keyLess, string_le.
  repeat (destruct (String.eqb field _); [rewrite Z.ltb_ge; reflexivity|]).
  reflexivity.
Qed.

#[local] Instance keyLe_trans field : Transitive (keyLe field).
Proof.
  unfold keyLe. intros x y z.
  repeat (destruct (String.eqb field _); [lia|]).
  apply string_le_trans.
Qed.

Lemma keyLess_asym field x y : keyLess field x y = true -> keyLess field y x = false.
Proof.
  unfold keyLess.
  repeat (destruct (String.eqb field _); [rewrite Z.ltb_lt, Z.ltb_ge; lia|]).
  apply string_less_asym.
Qed.

Lemma less_reads_comparison opt data i j :
  V1.less opt data i j =
  match data !! i, data !! j with
  | Some x, Some y => Some (V1.comparison opt x y)
  | _, _ => None
  end.
Proof. reflexivity. Qed.

Lemma sortLanguageData_insertion data opt :
  (length data <= 12)%nat ->
  V1.sortLanguageData data opt = gosort.Returns (insertionSorted (V1.comparison opt) data).
Proof.
  intros Hlen. unfold V1.sortLanguageData.
  apply Slice_insertion; [apply less_reads_comparison|exact Hlen].
Qed.

Lemma insertionSorted_ordered opt data :
  StronglySorted (ordered opt) (insertionSorted (V1.comparison opt) data).
Proof.
  unfold ordered. destruct (String.eqb (V1.Direction opt) "desc") eqn:E.
  - apply insertionSorted_sorted.
    + intros x y z Hxy Hyz. unfold flip in *. etransitivity; eassumption.
    + intros x y. rewrite comparison_keyLess, E. intros H.
      unfold flip. apply keyLe_keyLess. destruct (keyLess _ x y); [discriminate|reflexivity].
    + intros x y. rewrite comparison_keyLess, E. intros H.
      unfold flip. apply keyLe_keyLess. apply keyLess_asym.
      destruct (keyLess _ x y); [reflexivity|discriminate].
  - apply insertionSorted_sorted.
    + apply keyLe_trans.
    + intros x y. rewrite comparison_keyLess, E. intros H.
      apply keyLe_keyLess, keyLess_asym, H.
    + intros x y. rewrite comparison_keyLess, E. intros H.
      apply keyLe_keyLess, H.
Qed.

Lemma insertionSorted_ext {A} (f g : A -> A -> bool) data :
  (forall x y, f x y = g x y) -> insertionSorted f data = insertionSorted g data.
Proof.
  intros H. unfold insertionSorted. generalize (@nil A) as acc.
  induction data as [|x data IH]; intros acc; [reflexivity|].
  simpl. rewrite IH. f_equal.
  induction acc as [|y acc IHacc]; [reflexivity|].
  simpl. rewrite H, IHacc. reflexivity.
Qed.

Lemma NoDup_map_eq {A B} (f : A -> B) l x y :
  NoDup (map f l) -> x ∈ l -> y ∈ l -> f x = f y -> x = y.
Proof.
  induction l as [|z l IH]; intros Hnd Hx Hy Hf.
  - apply elem_of_nil in Hx. contradiction.
  - simpl in Hnd. apply NoDup_cons in Hnd. destruct Hnd as [Hz Hnd].
    apply elem_of_cons in Hx, Hy.
    destruct Hx as [->|Hx], Hy as [->|Hy]; [reflexivity| | |auto].
    + exfalso. apply Hz. rewrite Hf.
      apply list_elem_of_In, in_map, list_elem_of_In, Hy.
    + exfalso. apply Hz. rewrite <- Hf.
      apply list_elem_of_In, in_map, list_elem_of_In, Hx.
Qed.

(** X20. On a report of at most twelve rows (the table of extensions
    names twelve languages) sortLanguageData returns without a panic,
    and leaves the same rows in the order the option asks for: by the
    file count, line count or size for the fields "files", "lines" and
    "size", by name for any other field, and in descending order when
    the direction is "desc", ascending for any other direction. *)
Theorem sortLanguageData_sorts (data : list V1.LanguageData) (opt : V1.SortOption) :
  (length data <= 12)%nat ->
  exists rows,
    V1.sortLanguageData data opt = gosort.Returns rows /\
    rows ≡ₚ data /\
    StronglySorted (ordered opt) rows.
Proof.
  intros Hlen. exists (insertionSorted (V1.comparison opt) data).
  split; [apply sortLanguageData_insertion, Hlen|]. split.
  - unfold insertionSorted. rewrite insertFrom_perm. reflexivity.
  - apply insertionSorted_ordered.
Qed.

Lemma sortLanguageData_sorts_witness :
  let opt := {| V1.Field := "files"; V1.Direction := "desc" |} in
  (length [Examples.goRow; Examples.cRow] <= 12)%nat /\
  exists rows,
    V1.sortLanguageData [Examples.goRow; Examples.cRow] opt = gosort.Returns rows /\
    rows ≡ₚ [Examples.goRow; Examples.cRow] /\
    StronglySorted (ordered opt) rows.
Proof.
  intros opt.
  assert (H : (length [Examples.goRow; Examples.cRow] <= 12)%nat) by (simpl; lia).
  split; [exact H|].
  apply (sortLanguageData_sorts [Examples.goRow; Examples.cRow] opt H).
Defined.

(** X21. On a report of at most twelve rows, sorting by a field with
    the direction "desc" gives exactly the reverse of what sorting by
    the same field with any other direction gives; rows with equal keys
    are reversed with the rest (the sort being the insertion sort of
    [sort.Slice]). *)
Theorem sortLanguageData_desc_reverses (data : list V1.LanguageData) (field direction : string) :
  (length data <= 12)%nat ->
  direction <> "desc" ->
  exists rows,
    V1.sortLanguageData data {| V1.Field := field; V1.Direction := direction |}
      = gosort.Returns rows /\
    V1.sortLanguageData data {| V1.Field := field; V1.Direction := "desc" |}
      = gosort.Returns (rev rows).
Proof.
  intros Hlen Hdir.
  exists (insertionSorted (keyLess field) data).
  assert (Hne : String.eqb direction "desc" = false) by (apply String.eqb_neq, Hdir).
  split.
  - rewrite sortLanguageData_insertion by exact Hlen. f_equal.
    apply insertionSorted_ext. intros x y.
    rewrite comparison_keyLess. simpl. rewrite Hne. reflexivity.
  - rewrite sortLanguageData_insertion by exact Hlen. f_equal.
    assert (Ht : Transitive (fun x y => keyLess field y x = false)).
    { intros x y z Hxy Hyz.
      apply keyLe_keyLess. apply keyLe_keyLess in Hxy, Hyz.
      exact (keyLe_trans field _ _ _ Hxy Hyz). }
    rewrite <- (@insertionSorted_desc _ (keyLess field) Ht (keyLess_asym field) data).
    apply insertionSorted_ext. intros x y. reflexivity.
Qed.

Lemma sortLanguageData_desc_reverses_witness :
  ((length [Examples.goRow; Examples.cRow] <= 12)%nat /\ "asc" <> "desc") /\
  exists rows,
    V1.sortLanguageData [Examples.goRow; Examples.cRow]
      {| V1.Field := "lines"; V1.Direction := "asc" |} = gosort.Returns rows /\
    V1.sortLanguageData [Examples.goRow; Examples.cRow]
      {| V1.Field := "lines"; V1.Direction := "desc" |} = gosort.Returns (rev rows).
Proof.
  split; [split; [simpl; lia|discriminate]|].
  apply (sortLanguageData_desc_reverses [Examples.goRow; Examples.cRow] "lines" "asc");
    [simpl; lia|discriminate].
Defined.

Lemma sortLanguageData_perm data opt rows :
  V1.sortLanguageData data opt = gosort.Returns rows -> rows ≡ₚ data.
Proof.
  destruct (decide (length data <= 12)%nat) as [Hlen|Hlen].
  - rewrite sortLanguageData_insertion by exact Hlen. intros [= <-].
    unfold insertionSorted. rewrite insertFrom_perm. reflexivity.
  - unfold V1.sortLanguageData, gosort.Slice, gosort.pdqsort_func.
    rewrite Nat.sub_0_r.
    destruct (length data <=? gosort.maxInsertion)%nat eqn:E; [|discriminate].
    apply Nat.leb_le in E. unfold gosort.maxInsertion in E. lia.
Qed.

(** *** Rows with equal keys *)

Lemma insertFrom_ties {A} (before : A -> A -> bool) rest : forall sortedRev,
  (forall x y, x ∈ sortedRev ++ rest -> y ∈ sortedRev ++ rest -> before x y = false) ->
  insertFrom before sortedRev rest = rev sortedRev ++ rest.
Proof.
  induction rest as [|x rest IH]; intros sortedRev Hties; simpl.
  - rewrite app_nil_r. reflexivity.
  - assert (Hsink : sink before x sortedRev = x :: sortedRev).
    { destruct sortedRev as [|y sortedRev]; [reflexivity|].
      simpl. rewrite Hties; [reflexivity| |].
      - apply elem_of_app. right. left.
      - left. }
    rewrite Hsink, IH.
    + simpl. rewrite <- (assoc app). reflexivity.
    + intros a b Ha Hb. apply Hties; rewrite <- Permutation_middle; assumption.
Qed.

(** *** The totals *)

Definition sumOf (f : LanguageStats -> Z) (rows : list V1.LanguageData) : Z :=
  foldr (fun data acc => f (V1.Stats data) + acc) 0 rows.

Lemma sumOf_perm f rows1 rows2 : rows1 ≡ₚ rows2 -> sumOf f rows1 = sumOf f rows2.
Proof.
  unfold sumOf. induction 1; simpl; lia.
Qed.

Lemma totals_from a b c rows :
  foldl (fun '(totalFiles, totalLines, totalSize) data =>
           (int_add totalFiles (FileCount (V1.Stats data)),
            int_add totalLines (LineCount (V1.Stats data)),
            int_add totalSize (ByteCount (V1.Stats data))))
        (wrap64 a, wrap64 b, wrap64 c) rows =
  (wrap64 (a + sumOf FileCount rows), wrap64 (b + sumOf LineCount rows),
   wrap64 (c + sumOf ByteCount rows)).
Proof.
  revert a b c. induction rows as [|data rows IH]; intros a b c; simpl.
  - rewrite !Z.add_0_r. reflexivity.
  - unfold int_add. rewrite !wrap64_add_l, IH.
    unfold sumOf. simpl. rewrite !Z.add_assoc. reflexivity.
Qed.

Lemma totals_sums rows :
  V1.totals rows =
  (wrap64 (sumOf FileCount rows), wrap64 (sumOf LineCount rows), wrap64 (sumOf ByteCount rows)).
Proof. unfold V1.totals. apply (totals_from 0 0 0). Qed.

(** *** The languages of the table *)

Definition knownLanguage (language : string) : Prop :=
  exists ext, languageExtMap !! ext = Some language.

Lemma walkFn_sends_known skip pats p v :
  Forall (fun task => knownLanguage (language task)) (fst (walkFn skip pats p v)).
Proof.
  unfold walkFn. destruct v as [err|info [err|]]; simpl; try constructor.
  repeat (match goal with |- context [if ?b then _ else _] => destruct b end;
          simpl; try constructor).
  destruct (languageExtMap !! _) as [lang|] eqn:E; simpl; repeat constructor.
  eexists. exact E.
Qed.

Section WalkForall.
Context {A : Type} (fn : WalkFunc A) (P : A -> Prop).
Hypothesis fn_sends : forall p v, Forall P (fst (fn p v)).

Lemma walk_Forall : forall n p, Forall P (fst (walk fn p n)).
Proof.
  induction n as [name err|name kind|name readErr entries IH] using node_rect'; intros p.
  - apply fn_sends.
  - apply fn_sends.
  - destruct readErr as [e|]; [apply fn_sends|].
    rewrite walk_Dir.
    pose proof (fn_sends p (Found {| Name := name; Mode := ModeDir |} None)) as Hs.
    destruct (fn p _) as [sent [e|]]; simpl in *; [exact Hs|].
    assert (Hnames : Forall P (fst (walkNames fn p entries))).
    { clear Hs. induction IH as [|entry entries Hentry _ IHentries]; simpl; [constructor|].
      specialize (Hentry (Join p (nodeName entry))).
      destruct (walk fn (Join p (nodeName entry)) entry) as [sent1 err].
      destruct (stopsLoop entry err); [exact Hentry|].
      destruct (walkNames fn p entries) as [sent2 err']. simpl in *.
      apply Forall_app; split; assumption. }
    destruct (walkNames fn p entries) as [sent' err]. simpl in *.
    apply Forall_app; split; assumption.
Qed.

Lemma Walk_Forall root n : Forall P (fst (Walk fn root n)).
Proof.
  unfold Walk. pose proof (walk_Forall n root) as H.
  destruct (walk fn root n) as [sent [[]|]]; exact H.
Qed.
End WalkForall.

Lemma discover_known flags env root :
  Forall (fun task => knownLanguage (language task)) (fst (discover flags env root)).
Proof. unfold discover. apply Walk_Forall. intros p v. apply walkFn_sends_known. Qed.

(** Where the languages of a state are: in the table, with the workers,
    in the channel and with the walk. *)
Definition workerLanguage (w : worker) : list string :=
  match w with
  | Measuring task => [language task]
  | Recording _ r => [lang r]
  | _ => []
  end.

Definition languagesIn (P : string -> Prop) (st : pipeline) : Prop :=
  (forall l, is_Some (stats st !! l) -> P l) /\
  Forall (fun w => Forall P (workerLanguage w)) (workers st) /\
  Forall (fun task => P (language task)) (filesChan st) /\
  Forall (fun task => P (language task)) (toSend st).

Lemma lockedStep_languages P at_ r T at' T' :
  lockedStep at_ r T = Some (at', T') ->
  P (lang r) ->
  (forall l, is_Some (T !! l) -> P l) ->
  forall l, is_Some (T' !! l) -> P l.
Proof.
  intros Hstep Hr HT l Hl.
  destruct (decide (l = lang r)) as [->|Hne]; [exact Hr|].
  apply HT.
  destruct at_; simpl in Hstep;
    unfold ensureEntry, incFileCount, addLineCount, addByteCount, updateEntry in Hstep;
    destruct (T !! lang r) eqn:E; simpl in Hstep; try discriminate;
    injection Hstep as <- <-; try exact Hl;
    rewrite lookup_insert_ne in Hl by congruence; exact Hl.
Qed.

Lemma languagesIn_step fs P st st' :
  languagesIn P st -> step fs st st' -> languagesIn P st'.
Proof.
  intros (HT & Hw & Hch & Hts) Hstep. unfold languagesIn.
  destruct Hstep; simpl in *;
    rewrite ?Forall_app, ?Forall_cons, ?Forall_nil in *; simpl in *;
    rewrite ?Forall_cons, ?Forall_nil in *;
    try tauto.
  - (* measure *)
    unfold afterMeasure. destruct (measure fs (path task)) as [[? ?]|]; simpl;
      rewrite ?Forall_cons, ?Forall_nil; tauto.
  - (* locked *)
    split; [|tauto].
    eapply lockedStep_languages; [eassumption|tauto|exact HT].
Qed.

Lemma languagesIn_reachable fs P n tasks st :
  Forall (fun task => P (language task)) tasks ->
  reachable fs n tasks st -> languagesIn P st.
Proof.
  intros Htasks Hreach.
  refine (rtc_ind_r (R := step fs) (languagesIn P) _ _ _ _ Hreach).
  - unfold languagesIn, start; simpl. repeat split.
    + intros l [x Hx]. rewrite lookup_empty in Hx. discriminate.
    + apply Forall_forall. intros w Hw. apply elem_of_replicate in Hw.
      destruct Hw as [-> _]. constructor.
    + constructor.
    + exact Htasks.
  - intros y z _ Hstep IH. eapply languagesIn_step; eassumption.
Qed.

Lemma known_table_size (T : gmap string LanguageStats) :
  (forall l, is_Some (T !! l) -> knownLanguage l) -> (size T <= 12)%nat.
Proof.
  intros HT. rewrite <- length_map_to_list.
  rewrite <- (length_fmap fst).
  change 12%nat with (length ((map_to_list languageExtMap).*2)).
  apply submseteq_length, NoDup_submseteq; [apply NoDup_fst_map_to_list|].
  intros l Hl. apply list_elem_of_fmap in Hl. destruct Hl as [[l' e] [-> Hl]].
  apply elem_of_map_to_list in Hl. simpl.
  destruct (HT l' (ex_intro _ e Hl)) as [ext Hext].
  apply list_elem_of_fmap. exists (ext, l'). split; [reflexivity|].
  apply elem_of_map_to_list. exact Hext.
Qed.

Lemma languageDataOf_length T data :
  V1.languageDataOf T data -> length data = size T.
Proof.
  intros H. rewrite (Permutation_length H), length_map. apply length_map_to_list.
Qed.

Lemma languageDataOf_NoDup T data :
  V1.languageDataOf T data -> NoDup (map V1.Name data).
Proof.
  intros H. unfold V1.languageDataOf in H. rewrite H.
  rewrite map_map. simpl. apply NoDup_fst_map_to_list.
Qed.

(** X22. When the sort field is none of "files", "lines" and "size"
    (as without a sort flag), the rows are sorted by language name and
    their order does not depend on the order in which Go ranges over
    the table: any two orders of the range give the same report. *)
Theorem rows_by_name_determined (T : gmap string LanguageStats)
    (data1 data2 : list V1.LanguageData) (opt : V1.SortOption) :
  (size T <= 12)%nat ->
  V1.languageDataOf T data1 ->
  V1.languageDataOf T data2 ->
  V1.Field opt <> "files" -> V1.Field opt <> "lines" -> V1.Field opt <> "size" ->
  V1.sortLanguageData data1 opt = V1.sortLanguageData data2 opt.
Proof.
  intros Hsize H1 H2 Hf Hl Hs.
  rewrite !sortLanguageData_insertion
    by (erewrite languageDataOf_length by eassumption; exact Hsize).
  f_equal.
  pose proof (languageDataOf_NoDup _ _ H1) as Hnd.
  assert (Hperm : insertionSorted (V1.comparison opt) data1 ≡ₚ
                  insertionSorted (V1.comparison opt) data2).
  { unfold insertionSorted. rewrite !insertFrom_perm. simpl.
    unfold V1.languageDataOf in *. rewrite H1, H2. reflexivity. }
  apply (StronglySorted_unique_strong (ordered opt));
    [|apply insertionSorted_ordered|apply insertionSorted_ordered|exact Hperm].
  intros x1 x2 Hx1 Hx2 R12 R21.
  assert (Hin1 : x1 ∈ data1).
  { unfold insertionSorted in Hx1. rewrite insertFrom_perm in Hx1. exact Hx1. }
  assert (Hin2 : x2 ∈ data1).
  { rewrite <- Hperm in Hx2.
    unfold insertionSorted in Hx2. rewrite insertFrom_perm in Hx2. exact Hx2. }
  apply (NoDup_map_eq V1.Name data1 x1 x2 Hnd Hin1 Hin2).
  apply String.eqb_neq in Hf, Hl, Hs.
  unfold ordered, flip, keyLe in R12, R21. rewrite Hf, Hl, Hs in R12, R21.
  unfold string_le in *.
  destruct (String.eqb (V1.Direction opt) "desc");
    apply string_less_total; assumption.
Qed.

Lemma rows_by_name_determined_witness :
  let opt := {| V1.Field := ""; V1.Direction := "" |} in
  (V1.languageDataOf Examples.table [Examples.goRow; Examples.cRow] /\
   V1.languageDataOf Examples.table [Examples.cRow; Examples.goRow]) /\
  V1.sortLanguageData [Examples.goRow; Examples.cRow] opt =
  V1.sortLanguageData [Examples.cRow; Examples.goRow] opt.
Proof.
  intros opt.
  assert (H1 : V1.languageDataOf Examples.table [Examples.goRow; Examples.cRow]).
  { unfold V1.languageDataOf. vm_compute. first [reflexivity|apply perm_swap]. }
  assert (H2 : V1.languageDataOf Examples.table [Examples.cRow; Examples.goRow]).
  { unfold V1.languageDataOf. vm_compute. first [reflexivity|apply perm_swap]. }
  split; [split; [exact H1|exact H2]|].
  apply (rows_by_name_determined Examples.table _ _ opt); try assumption;
    try discriminate.
  vm_compute. lia.
Defined.

(** X23. When no row is smaller than another in the sort field (all
    keys are equal), the sort leaves the rows in the order of the range
    over the table, which Go leaves open, and in the reverse of it with
    the direction "desc" (the sort being the insertion sort of
    [sort.Slice]): the order of tied rows is not fixed by the table. *)
Theorem tied_rows_keep_range_order (data : list V1.LanguageData) (field direction : string) :
  (length data <= 12)%nat ->
  (forall x y, x ∈ data -> y ∈ data -> keyLess field x y = false) ->
  V1.sortLanguageData data {| V1.Field := field; V1.Direction := direction |} =
  gosort.Returns (if String.eqb direction "desc" then rev data else data).
Proof.
  intros Hlen Hties.
  rewrite sortLanguageData_insertion by exact Hlen. f_equal.
  assert (Hasc : insertionSorted (keyLess field) data = data).
  { unfold insertionSorted. rewrite insertFrom_ties; [reflexivity|exact Hties]. }
  destruct (String.eqb direction "desc") eqn:E.
  - assert (Ht : Transitive (fun x y => keyLess field y x = false)).
    { intros x y z Hxy Hyz.
      apply keyLe_keyLess. apply keyLe_keyLess in Hxy, Hyz.
      exact (keyLe_trans field _ _ _ Hxy Hyz). }
    rewrite <- Hasc at 2.
    rewrite <- (@insertionSorted_desc _ (keyLess field) Ht (keyLess_asym field) data).
    apply insertionSorted_ext. intros x y. rewrite comparison_keyLess. simpl.
    rewrite E. reflexivity.
  - rewrite <- Hasc at 2.
    apply insertionSorted_ext. intros x y. rewrite comparison_keyLess. simpl.
    rewrite E. reflexivity.
Qed.

Lemma tied_rows_keep_range_order_witness :
  (forall x y, x ∈ [Examples.goRow; Examples.cRow] -> y ∈ [Examples.goRow; Examples.cRow] ->
     keyLess "lines" x y = false) /\
  V1.sortLanguageData [Examples.goRow; Examples.cRow]
    {| V1.Field := "lines"; V1.Direction := "desc" |} =
  gosort.Returns [Examples.cRow; Examples.goRow].
Proof.
  assert (H : forall x y, x ∈ [Examples.goRow; Examples.cRow] ->
                          y ∈ [Examples.goRow; Examples.cRow] ->
                          keyLess "lines" x y = false).
  { intros x y Hx Hy. apply list_elem_of_In in Hx, Hy.
    destruct Hx as [<-|[<-|[]]], Hy as [<-|[<-|[]]]; reflexivity. }
  split; [exact H|].
  apply (tied_rows_keep_range_order [Examples.goRow; Examples.cRow] "lines" "desc");
    [simpl; lia|exact H].
Defined.

(** The sum of a column of the table. *)
Definition sumField (f : LanguageStats -> Z) (T : gmap string LanguageStats) : Z :=
  map_fold (fun _ e acc => f e + acc) 0 T.

Lemma sumOf_sumField f (T : gmap string LanguageStats) data :
  V1.languageDataOf T data -> sumOf f data = sumField f T.
Proof.
  intros H. rewrite (sumOf_perm _ _ _ H). unfold sumField.
  rewrite map_fold_foldr. unfold sumOf.
  induction (map_to_list T) as [|[l e] rest IH]; [reflexivity|].
  simpl. rewrite IH. reflexivity.
Qed.

(** X24. The totals of the report are the sums of the three columns
    over the table, in 64-bit integers, whatever the order of the range
    over the table and whatever the sort option. *)
Theorem totals_are_sums_of_table (T : gmap string LanguageStats)
    (data rows : list V1.LanguageData) (opt : V1.SortOption) :
  V1.languageDataOf T data ->
  V1.sortLanguageData data opt = gosort.Returns rows ->
  V1.totals rows =
  (wrap64 (sumField FileCount T), wrap64 (sumField LineCount T), wrap64 (sumField ByteCount T)).
Proof.
  intros Hdata Hsort.
  pose proof (sortLanguageData_perm _ _ _ Hsort) as Hperm.
  rewrite totals_sums.
  rewrite !(sumOf_perm _ _ _ Hperm).
  rewrite !(sumOf_sumField _ _ _ Hdata). reflexivity.
Qed.

Lemma totals_are_sums_of_table_witness :
  let opt := {| V1.Field := "files"; V1.Direction := "desc" |} in
  (V1.languageDataOf Examples.table [Examples.goRow; Examples.cRow] /\
   V1.sortLanguageData [Examples.goRow; Examples.cRow] opt =
     gosort.Returns [Examples.cRow; Examples.goRow]) /\
  V1.totals [Examples.cRow; Examples.goRow] =
  (wrap64 (sumField FileCount Examples.table), wrap64 (sumField LineCount Examples.table),
   wrap64 (sumField ByteCount Examples.table)).
Proof.
  intros opt.
  assert (H1 : V1.languageDataOf Examples.table [Examples.goRow; Examples.cRow]).
  { unfold V1.languageDataOf. vm_compute. first [reflexivity|apply perm_swap]. }
  assert (H2 : V1.sortLanguageData [Examples.goRow; Examples.cRow] opt =
               gosort.Returns [Examples.cRow; Examples.goRow]).
  { vm_compute. reflexivity. }
  split; [split; [exact H1|exact H2]|].
  apply (totals_are_sums_of_table Examples.table _ _ opt H1 H2).
Defined.

(** X25. After a complete run of the pool, with any interleaving, the
    total of the Files column is the number of files sent by the walk
    that open and can be stat'ed (for fewer than 2^63 files), whatever
    the sort option. *)
Theorem total_files_of_run (fs : FileSystem) (numWorkers : nat) (tasks : list FileResult)
    (st : pipeline) (data rows : list V1.LanguageData) (opt : V1.SortOption) :
  (0 < numWorkers)%nat ->
  Z.of_nat (length tasks) < 2^63 ->
  reachable fs numWorkers tasks st ->
  drained st ->
  V1.languageDataOf (stats st) data ->
  V1.sortLanguageData data opt = gosort.Returns rows ->
  fst (fst (V1.totals rows)) =
  Z.of_nat (length (filter (fun task => opensAndStats fs (path task) = true) tasks)).
Proof.
  intros Hn Hlen Hreach Hdr Hdata Hsort.
  pose proof (sortLanguageData_perm _ _ _ Hsort) as Hperm.
  rewrite totals_sums. simpl.
  rewrite (sumOf_perm _ _ _ Hperm), (sumOf_sumField _ _ _ Hdata).
  change (sumField FileCount (stats st)) with (sumFileCount (stats st)).
  rewrite (drained_stats _ _ _ _ Hn Hreach Hdr).
  pose proof (length_filter (fun task => opensAndStats fs (path task) = true) tasks) as Hf.
  rewrite <- countedAll_length in *.
  destruct (sumFileCount_aggregate (countedAll fs tasks)) as [Hsum _]; [lia|].
  rewrite Hsum. apply wrap64_small. lia.
Qed.

Lemma total_files_of_run_witness :
  let rows := map (fun entry => {| V1.Name := fst entry; V1.Stats := snd entry |})
                  (map_to_list (runSequential Examples.disk Examples.twoTasks)) in
  let opt := {| V1.Field := "lines"; V1.Direction := "asc" |} in
  V1.sortLanguageData rows opt = gosort.Returns (rev rows) /\
  fst (fst (V1.totals (rev rows))) =
  Z.of_nat (length (filter (fun task => opensAndStats Examples.disk (path task) = true)
                           Examples.twoTasks)).
Proof.
  intros rows opt.
  assert (H : V1.sortLanguageData rows opt = gosort.Returns (rev rows)).
  { vm_compute. reflexivity. }
  split; [exact H|].
  apply (total_files_of_run Examples.disk 1 Examples.twoTasks
           (finalState 1 (runSequential Examples.disk Examples.twoTasks)) rows (rev rows) opt).
  - lia.
  - simpl. lia.
  - apply run_complete. lia.
  - apply drained_finalState.
  - unfold V1.languageDataOf. reflexivity.
  - exact H.
Defined.

(** X26. Every language of a table that main reports is a language of
    the table of extensions: the report has at most twelve rows, so
    that sortLanguageData sorts it by insertion, without a panic, for
    every order of the range and every sort option. *)
Theorem report_has_known_languages (flags : Flags) (env : Env)
    (out : list (output (gmap string LanguageStats))) (T : gmap string LanguageStats) :
  mainRuns flags env out ->
  PrintReport T ∈ out ->
  (forall language, is_Some (T !! language) -> knownLanguage language) /\
  (size T <= 12)%nat /\
  (forall data opt, V1.languageDataOf T data ->
     exists rows, V1.sortLanguageData data opt = gosort.Returns rows).
Proof.
  intros Hrun Hin.
  assert (Hknown : forall language, is_Some (T !! language) -> knownLanguage language).
  { destruct Hrun as [err Herr|homeDir tasks walkErr st Hhome Hwalk Hreach Hdr].
    - apply elem_of_cons in Hin. destruct Hin as [Hin|Hin]; [discriminate|].
      apply elem_of_cons in Hin. destruct Hin as [Hin|Hin]; [discriminate|].
      apply elem_of_nil in Hin. contradiction.
    - assert (HT : T = stats st).
      { apply elem_of_app in Hin. destruct Hin as [Hin|Hin].
        - destruct walkErr; simpl in Hin.
          + apply elem_of_cons in Hin. destruct Hin as [Hin|Hin]; [discriminate|].
            apply elem_of_nil in Hin. contradiction.
          + apply elem_of_nil in Hin. contradiction.
        - apply elem_of_cons in Hin. destruct Hin as [Hin|Hin]; [congruence|].
          apply elem_of_nil in Hin. contradiction. }
      subst T.
      pose proof (discover_known flags env (desktopPath homeDir)) as Hk.
      rewrite Hwalk in Hk. simpl in Hk.
      apply (languagesIn_reachable _ _ _ _ _ Hk Hreach). }
  pose proof (known_table_size T Hknown) as Hsize.
  split; [exact Hknown|]. split; [exact Hsize|].
  intros data opt Hdata. eexists.
  apply sortLanguageData_insertion.
  rewrite (languageDataOf_length _ _ Hdata). exact Hsize.
Qed.

Lemma report_has_known_languages_witness :
  let T := runSequential Examples.disk Examples.twoTasks in
  mainRuns Examples.noFlags (Examples.env Examples.readable) [PrintReport T] /\
  (forall language, is_Some (T !! language) -> knownLanguage language) /\
  (size T <= 12)%nat /\
  (forall data opt, V1.languageDataOf T data ->
     exists rows, V1.sortLanguageData data opt = gosort.Returns rows).
Proof.
  intros T.
  assert (H : mainRuns Examples.noFlags (Examples.env Examples.readable) [PrintReport T]).
  { exact (main_can_run Examples.noFlags (Examples.env Examples.readable) "/home/u"
             _ _ ltac:(simpl; lia) eq_refl Examples.walk_readable). }
  split; [exact H|].
  apply (report_has_known_languages Examples.noFlags (Examples.env Examples.readable)
           [PrintReport T] T H).
  left.
Defined.

(** ** The sort flag *)

(** Strings of ASCII white space, and words of other ASCII bytes. *)
Fixpoint blanks (s : string) : bool :=
  match s with
  | EmptyString => true
  | String c s' => gostrings.asciiSpace c && blanks s'
  end.

Fixpoint wordBytes (s : string) : bool :=
  match s with
  | EmptyString => true
  | String c s' => negb (gostrings.asciiSpace c) && (nat_of_ascii c <? 128)%nat && wordBytes s'
  end.

Definition asciiWord (s : string) : bool := negb (is_empty s) && wordBytes s.

Lemma append_nil_r (s : string) : s +:+ "" = s.
Proof. induction s as [|c s IH]; [reflexivity|]. rewrite append_cons, IH. reflexivity. Qed.

Lemma hasNonASCII_app a b : gostrings.hasNonASCII (a +:+ b) = gostrings.hasNonASCII a || gostrings.hasNonASCII b.
Proof.
  induction a as [|c a IH]; [reflexivity|].
  rewrite append_cons. cbn [gostrings.hasNonASCII]. rewrite IH. apply orb_assoc.
Qed.

Lemma blanks_ascii p : blanks p = true -> gostrings.hasNonASCII p = false.
Proof.
  induction p as [|c p IH]; [reflexivity|].
  cbn [blanks gostrings.hasNonASCII]. intros H. apply andb_prop in H. destruct H as [Hc Hp].
  rewrite (IH Hp), orb_false_r. unfold gostrings.asciiSpace in Hc.
  apply Nat.leb_gt.
  apply orb_prop in Hc. destruct Hc as [Hc|Hc].
  - apply andb_prop in Hc. destruct Hc as [_ Hc]. apply Nat.leb_le in Hc. lia.
  - apply Nat.eqb_eq in Hc. lia.
Qed.

Lemma wordBytes_ascii w : wordBytes w = true -> gostrings.hasNonASCII w = false.
Proof.
  induction w as [|c w IH]; [reflexivity|].
  cbn [wordBytes gostrings.hasNonASCII]. intros H.
  apply andb_prop in H. destruct H as [H Hw]. apply andb_prop in H. destruct H as [_ Hc].
  rewrite (IH Hw), orb_false_r. apply Nat.ltb_lt in Hc. apply Nat.leb_gt. exact Hc.
Qed.

Lemma fieldsASCII_blanks p s :
  blanks p = true -> gostrings.fieldsASCII "" (p +:+ s) = gostrings.fieldsASCII "" s.
Proof.
  induction p as [|c p IH]; [reflexivity|].
  cbn [blanks]. intros H. apply andb_prop in H. destruct H as [Hc Hp].
  rewrite append_cons. cbn [gostrings.fieldsASCII]. rewrite Hc. simpl. apply IH, Hp.
Qed.

Lemma fieldsASCII_word w : forall field s,
  wordBytes w = true -> gostrings.fieldsASCII field (w +:+ s) = gostrings.fieldsASCII (field +:+ w) s.
Proof.
  induction w as [|c w IH]; intros field s.
  - intros _. rewrite append_nil_r. reflexivity.
  - cbn [wordBytes]. intros H.
    apply andb_prop in H. destruct H as [H Hw]. apply andb_prop in H. destruct H as [Hc _].
    apply negb_true_iff in Hc.
    rewrite append_cons. cbn [gostrings.fieldsASCII]. rewrite Hc, (IH _ _ Hw).
    rewrite append_assoc. reflexivity.
Qed.

Lemma fieldsASCII_gap field p s :
  is_empty field = false -> is_empty p = false -> blanks p = true ->
  gostrings.fieldsASCII field (p +:+ s) = field :: gostrings.fieldsASCII "" s.
Proof.
  intros Hf Hne Hp. destruct p as [|c p]; [discriminate|].
  cbn [blanks] in Hp. apply andb_prop in Hp. destruct Hp as [Hc Hp].
  rewrite append_cons. cbn [gostrings.fieldsASCII]. rewrite Hc, Hf.
  rewrite (fieldsASCII_blanks _ _ Hp). reflexivity.
Qed.

Lemma fieldsASCII_end field p :
  is_empty field = false -> blanks p = true -> gostrings.fieldsASCII field p = [field].
Proof.
  intros Hf Hp. destruct p as [|c p].
  - simpl. rewrite Hf. reflexivity.
  - rewrite <- (append_nil_r (String c p)).
    rewrite fieldsASCII_gap by (assumption || reflexivity). reflexivity.
Qed.

Lemma is_empty_app a b : is_empty a = false -> is_empty (a +:+ b) = false.
Proof. destruct a; [discriminate|reflexivity]. Qed.

Lemma is_empty_app_r a b : is_empty b = false -> is_empty (a +:+ b) = false.
Proof. destruct a; [trivial|reflexivity]. Qed.

(** Two ASCII words with white space around them are the two fields. *)
Lemma Fields_two_words pad1 field pad2 direction pad3 :
  blanks pad1 = true -> asciiWord field = true ->
  blanks pad2 = true -> is_empty pad2 = false ->
  asciiWord direction = true -> blanks pad3 = true ->
  gostrings.Fields (pad1 +:+ field +:+ pad2 +:+ direction +:+ pad3) = [field; direction].
Proof.
  intros H1 Hf H2 Hne Hd H3.
  unfold asciiWord in *. apply andb_prop in Hf, Hd.
  destruct Hf as [Hf1 Hf2], Hd as [Hd1 Hd2]. apply negb_true_iff in Hf1, Hd1.
  unfold gostrings.Fields. rewrite !hasNonASCII_app.
  rewrite (blanks_ascii _ H1), (blanks_ascii _ H2), (blanks_ascii _ H3),
    (wordBytes_ascii _ Hf2), (wordBytes_ascii _ Hd2). simpl.
  rewrite fieldsASCII_blanks by assumption.
  rewrite fieldsASCII_word by assumption. simpl.
  rewrite fieldsASCII_gap by assumption.
  rewrite fieldsASCII_word by assumption. simpl.
  rewrite fieldsASCII_end by assumption. reflexivity.
Qed.

(** A single ASCII word is one field. *)
Lemma Fields_one_word pad1 word pad2 :
  blanks pad1 = true -> asciiWord word = true -> blanks pad2 = true ->
  gostrings.Fields (pad1 +:+ word +:+ pad2) = [word].
Proof.
  intros H1 Hw H2.
  unfold asciiWord in *. apply andb_prop in Hw.
  destruct Hw as [Hw1 Hw2]. apply negb_true_iff in Hw1.
  unfold gostrings.Fields. rewrite !hasNonASCII_app.
  rewrite (blanks_ascii _ H1), (blanks_ascii _ H2), (wordBytes_ascii _ Hw2). simpl.
  rewrite fieldsASCII_blanks by assumption.
  rewrite fieldsASCII_word by assumption. simpl.
  rewrite fieldsASCII_end by assumption. reflexivity.
Qed.

(** X27. A sort flag made of two words of ASCII bytes that are no white
    space, with white space between them and possibly around them,
    gives the two words in lower case as field and direction, and no
    message.  A flag with one such word only gives the default option
    (sorting by name, ascending) and the message "Invalid sort format.
    Using default sorting.", whatever the word is. *)
Theorem sort_flag_is_two_words (pad1 field pad2 direction pad3 : string) :
  blanks pad1 = true -> asciiWord field = true ->
  blanks pad2 = true -> is_empty pad2 = false ->
  asciiWord direction = true -> blanks pad3 = true ->
  V1.sortOptOf (pad1 +:+ field +:+ pad2 +:+ direction +:+ pad3) =
    ({| V1.Field := gostrings.ToLower field;
        V1.Direction := gostrings.ToLower direction |}, false) /\
  V1.sortOptOf (pad1 +:+ field +:+ pad3) =
    ({| V1.Field := ""; V1.Direction := "" |}, true).
Proof.
  intros H1 Hf H2 Hne Hd H3.
  assert (Hfne : is_empty field = false).
  { unfold asciiWord in Hf. apply andb_prop in Hf. destruct Hf as [Hf _].
    apply negb_true_iff in Hf. exact Hf. }
  split.
  - unfold V1.sortOptOf.
    rewrite (is_empty_app_r pad1), Fields_two_words by
      (try assumption; apply is_empty_app; exact Hfne).
    reflexivity.
  - unfold V1.sortOptOf.
    rewrite (is_empty_app_r pad1), Fields_one_word by
      (try assumption; apply is_empty_app; exact Hfne).
    reflexivity.
Qed.

Lemma sort_flag_is_two_words_witness :
  (blanks " " = true /\ asciiWord "Files" = true /\ asciiWord "DESC" = true) /\
  V1.sortOptOf " Files  DESC" = ({| V1.Field := "files"; V1.Direction := "desc" |}, false) /\
  V1.sortOptOf " Files" = ({| V1.Field := ""; V1.Direction := "" |}, true).
Proof.
  split; [repeat split; reflexivity|].
  apply (sort_flag_is_two_words " " "Files" "  " "DESC" ""); reflexivity.
Defined.

Lemma string_le_antisym a b : string_le a b -> string_le b a -> a = b.
Proof. unfold string_le. intros H1 H2. apply string_less_total; assumption. Qed.

(** X28. Without a sort flag the latest version prints the rows that
    [main.go] prints, in the same order: [main.go] sorts the names of
    the languages with [sort.Strings] and looks each one up in the
    table; the latest version sorts the entries by name.  (For a table
    of at most twelve languages, as every table of a run is.) *)
Theorem default_rows_are_those_of_main_go (T : gmap string LanguageStats)
    (languages sorted : list string) (data rows : list V1.LanguageData) :
  (size T <= 12)%nat ->
  languagesOf T languages ->
  gosort.Strings languages = gosort.Returns sorted ->
  V1.languageDataOf T data ->
  V1.sortLanguageData data (fst (V1.sortOptOf "")) = gosort.Returns rows ->
  map (fun d => (V1.Name d, Some (V1.Stats d))) rows = rowsOf T sorted.
Proof.
  intros Hsize Hlangs Hsorted Hdata Hrows.
  assert (Hlen : (length languages <= 12)%nat).
  { rewrite (Permutation_length Hlangs), length_fmap, length_map_to_list. exact Hsize. }
  unfold gosort.Strings in Hsorted.
  rewrite (Slice_insertion string_less) in Hsorted by (reflexivity || exact Hlen).
  injection Hsorted as <-.
  rewrite sortLanguageData_insertion in Hrows
    by (rewrite (languageDataOf_length _ _ Hdata); exact Hsize).
  injection Hrows as <-.
  set (opt := fst (V1.sortOptOf "")).
  assert (Hnames : map V1.Name (insertionSorted (V1.comparison opt) data) =
                   insertionSorted string_less languages).
  { apply (StronglySorted_unique_strong string_le).
    - intros x1 x2 _ _. apply string_le_antisym.
    - apply (StronglySorted_fmap V1.Name (ordered opt) string_le).
      + intros x y H. exact H.
      + apply insertionSorted_ordered.
    - apply insertionSorted_sorted.
      + apply string_le_trans.
      + intros x y H. unfold string_le. apply string_less_asym, H.
      + intros x y H. exact H.
    - unfold insertionSorted. rewrite !insertFrom_perm. simpl.
      rewrite Hlangs. unfold V1.languageDataOf in Hdata. rewrite Hdata.
      rewrite map_map. reflexivity. }
  unfold rowsOf. rewrite <- Hnames, map_map.
  apply map_ext_in. intros d Hd. f_equal. symmetry.
  apply list_elem_of_In in Hd.
  unfold insertionSorted in Hd. rewrite insertFrom_perm in Hd. simpl in Hd.
  unfold V1.languageDataOf in Hdata. rewrite Hdata in Hd.
  apply list_elem_of_fmap in Hd. destruct Hd as ([l e] & -> & Hle).
  apply elem_of_map_to_list in Hle. exact Hle.
Qed.

Lemma default_rows_are_those_of_main_go_witness :
  (languagesOf Examples.table ["Go"; "C"] /\
   gosort.Strings ["Go"; "C"] = gosort.Returns ["C"; "Go"] /\
   V1.languageDataOf Examples.table [Examples.goRow; Examples.cRow] /\
   V1.sortLanguageData [Examples.goRow; Examples.cRow] (fst (V1.sortOptOf "")) =
     gosort.Returns [Examples.cRow; Examples.goRow]) /\
  map (fun d => (V1.Name d, Some (V1.Stats d))) [Examples.cRow; Examples.goRow] =
  rowsOf Examples.table ["C"; "Go"].
Proof.
  assert (H1 : languagesOf Examples.table ["Go"; "C"]).
  { unfold languagesOf. vm_compute. first [reflexivity|apply perm_swap]. }
  assert (H2 : gosort.Strings ["Go"; "C"] = gosort.Returns ["C"; "Go"]).
  { vm_compute. reflexivity. }
  assert (H3 : V1.languageDataOf Examples.table [Examples.goRow; Examples.cRow]).
  { unfold V1.languageDataOf. vm_compute. first [reflexivity|apply perm_swap]. }
  assert (H4 : V1.sortLanguageData [Examples.goRow; Examples.cRow] (fst (V1.sortOptOf "")) =
               gosort.Returns [Examples.cRow; Examples.goRow]).
  { vm_compute. reflexivity. }
  split; [repeat split; assumption|].
  apply (default_rows_are_those_of_main_go Examples.table ["Go"; "C"] ["C"; "Go"]
           [Examples.goRow; Examples.cRow] [Examples.cRow; Examples.goRow]);
    try assumption.
  vm_compute. lia.
Defined.
